(** * github-scanner: the accessibility-issue scan, embedded and verified

    Shallow embedding of the script [gather-accessibility-issues.js] in its
    revision with the [--label] and [--additional-labels] options, and, in
    [Module Legacy], of the paged fetcher of its single-label revision.

    - A JavaScript string is a Rocq [string], read as a sequence of the
      code units 0-255 (Latin-1).  [toLowerCase] is the case mapping of
      these code units; [toUpperCase] is too, except for the code units
      181, 223 and 255, whose upper-case forms lie outside the range and
      which are left unchanged (no match of the patterns holds them).
      [\s] and [trim] use the white-space code units 9-13, 32 and 160.
    - A regular-expression object is a record with its mutable
      [lastIndex]; [exec] follows RegExpBuiltinExec, with a backtracking
      matcher for the constructs the patterns of the script use.
    - Remote calls, the console, the clock and [process.exit] are the
      effects of a state monad [M].  A [while] loop is run with a bound on
      the number of its iterations, and is [Pending] when the bound is
      reached. *)

From Stdlib Require Import ZArith Ascii String List Lia Bool DecimalString.
From Stdlib Require DecimalPos DecimalZ.
From stdpp Require Import base gmap strings list.
Import ListNotations.

Open Scope string_scope.

(** ** JavaScript strings *)

Module Js.

Definition isWhiteSpace (c : ascii) : bool :=
  let n := nat_of_ascii c in
  (((9 <=? n) && (n <=? 13)) || (n =? 32) || (n =? 160))%nat.

Definition isDigit (c : ascii) : bool :=
  let n := nat_of_ascii c in ((48 <=? n) && (n <=? 57))%nat.

Definition isUpper (c : ascii) : bool :=
  let n := nat_of_ascii c in ((65 <=? n) && (n <=? 90))%nat.

Definition isLower (c : ascii) : bool :=
  let n := nat_of_ascii c in ((97 <=? n) && (n <=? 122))%nat.

(** The letters of the code units 128-255: 192-222 without the
    multiplication sign are upper case, 224-254 without the division sign
    are their lower-case forms. *)
Definition isUpperLatin1 (c : ascii) : bool :=
  let n := nat_of_ascii c in ((192 <=? n) && (n <=? 222) && negb (n =? 215))%nat.

Definition isLowerLatin1 (c : ascii) : bool :=
  let n := nat_of_ascii c in ((224 <=? n) && (n <=? 254) && negb (n =? 247))%nat.

(** [\w] of a regular expression: [A-Za-z0-9_]. *)
Definition isWordChar (c : ascii) : bool :=
  isUpper c || isLower c || isDigit c || (nat_of_ascii c =? 95)%nat.

Definition toUpperChar (c : ascii) : ascii :=
  if isLower c || isLowerLatin1 c then ascii_of_nat (nat_of_ascii c - 32) else c.

Definition toLowerChar (c : ascii) : ascii :=
  if isUpper c || isUpperLatin1 c then ascii_of_nat (nat_of_ascii c + 32) else c.

(** [String.prototype.toLowerCase] *)
Fixpoint toLowerCase (s : string) : string :=
  match s with
  | EmptyString => EmptyString
  | String c s' => String (toLowerChar c) (toLowerCase s')
  end.

(** [String.prototype.toUpperCase], on the code units of a match *)
Definition toUpperCase (s : list ascii) : list ascii := map toUpperChar s.

(** [String.prototype.includes] *)
Fixpoint includes (s needle : string) : bool :=
  String.prefix needle s ||
  match s with
  | EmptyString => false
  | String _ s' => includes s' needle
  end.

(** [s.replace(/\s+/g, ' ')]: every maximal run of white space becomes
    one space; [inRun] tells that the previous code unit was white space. *)
Fixpoint collapseRuns (inRun : bool) (s : list ascii) : list ascii :=
  match s with
  | [] => []
  | c :: s' =>
      if isWhiteSpace c
      then (if inRun then collapseRuns true s' else " "%char :: collapseRuns true s')
      else c :: collapseRuns false s'
  end.

Definition replaceWhiteSpaceRuns (s : list ascii) : list ascii :=
  collapseRuns false s.

Fixpoint trimStart (s : list ascii) : list ascii :=
  match s with
  | c :: s' => if isWhiteSpace c then trimStart s' else s
  | [] => []
  end.

(** [String.prototype.trim] *)
Definition trim (s : list ascii) : list ascii :=
  rev (trimStart (rev (trimStart s))).

(** [Array.prototype.join] *)
Fixpoint join (sep : string) (l : list string) : string :=
  match l with
  | [] => ""
  | [x] => x
  | x :: l' => x ++ sep ++ join sep l'
  end.

(** Template-literal rendering of an integer. *)
Definition ofZ (z : Z) : string := NilZero.string_of_int (Z.to_int z).
Definition ofNat (n : nat) : string := ofZ (Z.of_nat n).

(** A [Set] of strings: [add] keeps the first insertion, and
    [Array.from] lists the elements in insertion order. *)
Definition setAdd (x : string) (l : list string) : list string :=
  if bool_decide (x ∈ l) then l else l ++ [x].

(** [[...new Set(l)]] *)
Definition dedupe (l : list string) : list string :=
  fold_left (fun acc x => setAdd x acc) l [].

End Js.

(** ** Regular expressions *)

Module RegExp.

Inductive ClassAtom :=
| Single (c : ascii)
| Range (lo hi : ascii)
| WhiteSpace.                          (* \s *)

Definition CharSet := list ClassAtom.

(** The patterns of the script are sequences of single-character atoms,
    greedy quantifiers over such atoms, and [\b].  Capture groups do not
    change [match[0]], the only part of a match the script reads, and
    are left out. *)
Inductive Node :=
| Chr (cs : CharSet)
| Quant (cs : CharSet) (min : nat) (max : option nat)
| WordBoundary.

Record t := mk {
  nodes : list Node;
  ignoreCase : bool;
  global : bool;
  lastIndex : nat
}.

Record Match := mkMatch {
  index : nat;
  matched : list ascii                  (* match[0] *)
}.

Definition withLastIndex (r : t) (i : nat) : t :=
  {| nodes := nodes r; ignoreCase := ignoreCase r;
     global := global r; lastIndex := i |}.

(** Canonicalize: with the [i] flag (and no [u] flag) a code unit is
    compared through its upper-case form. *)
Definition canonicalize (ic : bool) (c : ascii) : ascii :=
  if ic then Js.toUpperChar c else c.

Definition codes (lo hi : ascii) : list ascii :=
  map ascii_of_nat (seq (nat_of_ascii lo) (S (nat_of_ascii hi) - nat_of_ascii lo)).

Definition atomMatches (ic : bool) (a : ClassAtom) (c : ascii) : bool :=
  match a with
  | Single x => Ascii.eqb (canonicalize ic x) (canonicalize ic c)
  | Range lo hi =>
      existsb (fun x => Ascii.eqb (canonicalize ic x) (canonicalize ic c)) (codes lo hi)
  | WhiteSpace => Js.isWhiteSpace c
  end.

Definition setMatches (ic : bool) (cs : CharSet) (c : ascii) : bool :=
  existsb (fun a => atomMatches ic a c) cs.

Definition isWordAt (c : option ascii) : bool :=
  match c with Some x => Js.isWordChar x | None => false end.

Definition exhausted (max : option nat) : bool :=
  match max with Some 0 => true | _ => false end.

(** RepeatMatcher for a greedy quantifier over a one-character atom: with
    no repetition left, continue with [k]; otherwise take one more
    character when the atom allows it, and fall back to [k] (if [min] is
    reached) only when the longer attempt fails. *)
Fixpoint greedy (k : option ascii -> list ascii -> option (list ascii))
    (test : ascii -> bool) (min : nat) (max : option nat)
    (prev : option ascii) (s : list ascii) : option (list ascii) :=
  if exhausted max then k prev s
  else
    let stop := if (min =? 0)%nat then k prev s else None in
    match s with
    | c :: s' =>
        if test c then
          match greedy k test (pred min) (option_map pred max) (Some c) s' with
          | Some m => Some (c :: m)
          | None => stop
          end
        else stop
    | [] => stop
    end.

(** The matcher of a pattern at one position: [prev] is the code unit
    before the position, [s] the text from the position on; the result
    is the matched text. *)
Fixpoint matchNodes (ic : bool) (ns : list Node)
    : option ascii -> list ascii -> option (list ascii) :=
  match ns with
  | [] => fun _ _ => Some []
  | n :: ns' =>
      let k := matchNodes ic ns' in
      match n with
      | Chr cs => fun _ s =>
          match s with
          | c :: s' =>
              if setMatches ic cs c
              then option_map (cons c) (k (Some c) s')
              else None
          | [] => None
          end
      | Quant cs min max => greedy k (setMatches ic cs) min max
      | WordBoundary => fun prev s =>
          if xorb (isWordAt prev) (isWordAt (head s)) then k prev s else None
      end
  end.

(** The search loop of RegExpBuiltinExec: try the position, then the
    next one; the result counts the positions skipped. *)
Fixpoint search (ic : bool) (ns : list Node) (prev : option ascii)
    (s : list ascii) : option (nat * list ascii) :=
  match matchNodes ic ns prev s with
  | Some m => Some (0, m)
  | None =>
      match s with
      | [] => None
      | c :: s' =>
          match search ic ns (Some c) s' with
          | Some (i, m) => Some (S i, m)
          | None => None
          end
      end
  end.

(** [RegExp.prototype.exec]: the match, if any, and the object with its
    [lastIndex] updated. *)
Definition exec (r : t) (text : list ascii) : option Match * t :=
  let start := if global r then lastIndex r else 0 in
  if (length text <? start)%nat then
    (None, if global r then withLastIndex r 0 else r)
  else
    match search (ignoreCase r) (nodes r) (last (take start text)) (drop start text) with
    | Some (i, m) =>
        (Some (mkMatch (start + i) m),
         if global r then withLastIndex r (start + i + length m) else r)
    | None => (None, if global r then withLastIndex r 0 else r)
    end.

End RegExp.

(** ** The criteria extractor *)

Import RegExp.

Definition digit : ClassAtom := Range "0" "9".

Definition lit (c : ascii) : Node := Chr [Single c].

(** [/WCAG\s*([0-9\.]+)\s*(A{1,3})/gi] *)
Definition wcagLevel : RegExp.t :=
  RegExp.mk [lit "W"; lit "C"; lit "A"; lit "G"; Quant [WhiteSpace] 0 None;
             Quant [digit; Single "."] 1 None; Quant [WhiteSpace] 0 None;
             Quant [Single "A"] 1 (Some 3)] true true 0.

(** [/SC\s*([0-9\.]+)/gi] *)
Definition scNumber : RegExp.t :=
  RegExp.mk [lit "S"; lit "C"; Quant [WhiteSpace] 0 None;
             Quant [digit; Single "."] 1 None] true true 0.

(** [/\b([0-9]+\.[0-9]+\.[0-9]+)\b/g] *)
Definition dottedTriple : RegExp.t :=
  RegExp.mk [WordBoundary; Quant [digit] 1 None; lit "."; Quant [digit] 1 None;
             lit "."; Quant [digit] 1 None; WordBoundary] false true 0.

(** [/AA/gi] *)
Definition doubleA : RegExp.t := RegExp.mk [lit "A"; lit "A"] true true 0.

(** [/A/gi] *)
Definition singleA : RegExp.t := RegExp.mk [lit "A"] true true 0.

Definition WCAG_PATTERNS : list RegExp.t :=
  [wcagLevel; scNumber; dottedTriple; doubleA; singleA].

(** [match[0].toUpperCase().replace(/\s+/g, ' ').trim()] *)
Definition normalize (m : list ascii) : string :=
  string_of_list_ascii (Js.trim (Js.replaceWhiteSpaceRuns (Js.toUpperCase m))).

(** [while ((match = pattern.exec(text)) !== null) { ... }], at most [fuel]
    calls of [exec]; [None] when the bound is reached. *)
Fixpoint execLoop (fuel : nat) (pattern : RegExp.t) (text : list ascii)
    (foundSc : list string) : option (list string * RegExp.t) :=
  match fuel with
  | 0 => None
  | S fuel' =>
      match exec pattern text with
      | (Some m, pattern') =>
          execLoop fuel' pattern' text
            (match matched m with
             | [] => foundSc
             | _ :: _ => Js.setAdd (normalize (matched m)) foundSc
             end)
      | (None, pattern') => Some (foundSc, pattern')
      end
  end.

(** [WCAG_PATTERNS.forEach(pattern => { pattern.lastIndex = 0; while ... })]:
    [patterns] are the pattern objects as the previous calls left them. *)
Fixpoint forEachPattern (fuel : nat) (patterns : list RegExp.t) (text : list ascii)
    (foundSc : list string) : option (list string * list RegExp.t) :=
  match patterns with
  | [] => Some (foundSc, [])
  | pattern :: rest =>
      match execLoop fuel (withLastIndex pattern 0) text foundSc with
      | Some (foundSc', pattern') =>
          match forEachPattern fuel rest text foundSc' with
          | Some (foundSc'', rest') => Some (foundSc'', pattern' :: rest')
          | None => None
          end
      | None => None
      end
  end.

(** [findWcagScInText(text)]; an absent text is [None]. *)
Definition findWcagScInText (fuel : nat) (patterns : list RegExp.t)
    (text : option string) : option (list string * list RegExp.t) :=
  match text with
  | None | Some EmptyString => Some ([], patterns)
  | Some text => forEachPattern fuel patterns (list_ascii_of_string text) []
  end.

(** ** Data of the remote provider *)

Module User.
Record t := mk { login : string }.
End User.

Module Repo.
Record t := mk {
  name : string;
  full_name : string;
  owner : User.t;
  fork : bool
}.
End Repo.

Module Label.
Record t := mk { name : string }.
End Label.

Module Issue.
Record t := mk {
  id : Z;
  number : Z;
  title : string;
  body : option string;
  labels : list Label.t;
  user : option User.t;
  created_at : string;
  updated_at : string;
  comments : Z;
  state : string;
  html_url : string;
  pull_request : bool          (* the marker is present *)
}.
End Issue.

Module Comment.
Record t := mk {
  user : option User.t;
  body : option string
}.
End Comment.

(** The row of the export; [None] is [null]. *)
Module ExportRecord.
Record t := mk {
  WCAG_SC : option string;
  Issue_ID : string;
  Issue_Title : string;
  Issue_URL : string;
  Project : string;
  Status : string;
  Priority : option string;
  Component : option string;
  Version : option string;
  Reporter : string;
  Created : string;
  Updated : string;
  Comments : Z;
  Has_Fork : string;
  Last_Commenter : option string;
  Extracted_At : string
}.
End ExportRecord.

(** ** Requests, replies and the process state *)

(** The parameter object of a listing call; an absent property is [None]. *)
Module Params.
Record t := mk {
  org : option string;
  type : option string;
  owner : option string;
  repo : option string;
  state : option string;
  issue_number : option Z
}.
End Params.

(** [{ ...params, page, per_page }] *)
Record Request := mkRequest {
  params : Params.t;
  page : nat;
  per_page : nat
}.

(** The error a call rejects with: [error.status], [error.message] and
    [error.response.headers]. *)
Record ApiError := mkApiError {
  status : option Z;
  message : string;
  headers : option (gmap string string)
}.

Inductive Reply (A : Type) :=
| Resolved (data : option (list A))       (* response.data *)
| Rejected (error : ApiError).

Arguments Resolved {A} data.
Arguments Rejected {A} error.

Inductive Stream := Log | Warn | Error | Stdout.

(** What a call came back with, as kept in the trace of calls. *)
Inductive Answer :=
| Items (n : nat)
| NoData
| Failure (error : ApiError).

Definition answerOf {A} (r : Reply A) : Answer :=
  match r with
  | Resolved (Some d) => Items (length d)
  | Resolved None => NoData
  | Rejected e => Failure e
  end.

(** The remote provider and the host, over a type [W] of worlds. *)
Record Host (W : Type) := mkHost {
  listForOrg : Request -> W -> Reply Repo.t * W;          (* octokit.repos.listForOrg *)
  listForRepo : Request -> W -> Reply Issue.t * W;        (* octokit.issues.listForRepo *)
  listComments : Request -> W -> Reply Comment.t * W;     (* octokit.issues.listComments *)
  toISOString : W -> string;                              (* new Date().toISOString() *)
  (* new Date(parseInt(h) * 1000).toLocaleTimeString(), [h] the header read *)
  resetTime : option string -> string
}.

Arguments listForOrg {W} _ _ _.
Arguments listForRepo {W} _ _ _.
Arguments listComments {W} _ _ _.
Arguments toISOString {W} _ _.
Arguments resetTime {W} _ _.

(** The state of the process.  [sources] is a ghost field: the issue each
    row of [issuesData] was built from, in the same order. *)
Record State (W : Type) := mkState {
  world : W;
  console : list (Stream * string);
  calls : list (Request * Answer);
  patterns : list RegExp.t;               (* the objects of WCAG_PATTERNS *)
  issuesData : list ExportRecord.t;
  processedIssueIds : gset Z;
  sources : list Issue.t
}.

Arguments mkState {W} _ _ _ _ _ _ _.
Arguments world {W} _.
Arguments console {W} _.
Arguments calls {W} _.
Arguments patterns {W} _.
Arguments issuesData {W} _.
Arguments processedIssueIds {W} _.
Arguments sources {W} _.

Inductive Outcome (A : Type) :=
| Returned (a : A)
| Exited (code : Z)                       (* process.exit(code) *)
| Pending.                                (* a loop reached its bound *)

Arguments Returned {A} a.
Arguments Exited {A} code.
Arguments Pending {A}.

Definition M (W A : Type) : Type := State W -> Outcome A * State W.

Definition ret {W A} (a : A) : M W A := fun st => (Returned a, st).

Definition bind {W A B} (m : M W A) (f : A -> M W B) : M W B :=
  fun st =>
    match m st with
    | (Returned a, st') => f a st'
    | (Exited c, st') => (Exited c, st')
    | (Pending, st') => (Pending, st')
    end.

Notation "x <- m ;; k" := (bind m (fun x => k))
  (at level 100, m at next level, right associativity).
Notation "m ;;; k" := (bind m (fun _ => k))
  (at level 100, right associativity).

Definition exit {W A} (code : Z) : M W A := fun st => (Exited code, st).

Definition pending {W A} : M W A := fun st => (Pending, st).

(** The state after a line is printed. *)
Definition printed {W} (st : State W) (to : Stream) (line : string) : State W :=
  mkState (world st) (console st ++ [(to, line)]) (calls st) (patterns st)
          (issuesData st) (processedIssueIds st) (sources st).

(** The state after a call: the world moves to [w], the call is traced. *)
Definition traced {W} (st : State W) (w : W) (request : Request) (answer : Answer)
    : State W :=
  mkState w (console st) (calls st ++ [(request, answer)]) (patterns st)
          (issuesData st) (processedIssueIds st) (sources st).

Definition print {W} (to : Stream) (line : string) : M W unit :=
  fun st => (Returned tt, printed st to line).

(** [await apiCall(request)] *)
Definition await {W A} (apiCall : Request -> W -> Reply A * W) (request : Request)
    : M W (Reply A) :=
  fun st =>
    let (reply, w) := apiCall request (world st) in
    (Returned reply, traced st w request (answerOf reply)).

Definition undefinedOr (s : option string) : string :=
  match s with Some x => x | None => "undefined" end.

Definition dquote : string := String (ascii_of_nat 34) "".
Definition newline : string := String (ascii_of_nat 10) "".

(** ** The paged fetcher *)

(** [error.status === 403 && error.response && error.response.headers &&
     error.response.headers['x-ratelimit-remaining'] === '0'] *)
Definition rateLimitExceeded (error : ApiError) : bool :=
  bool_decide (status error = Some 403%Z) &&
  match headers error with
  | Some h => bool_decide (h !! "x-ratelimit-remaining" = Some "0")
  | None => false
  end.

Definition rateLimitMessage {W} (host : Host W) (error : ApiError) : string :=
  "Rate limit exceeded! Please wait until "
  ++ resetTime host (match headers error with
                     | Some h => h !! "x-ratelimit-reset"
                     | None => None
                     end)
  ++ " before trying again.".

Definition notFoundMessage (params : Params.t) : string :=
  "Warning: Repository not found or no access for "
  ++ undefinedOr (Params.owner params) ++ "/" ++ undefinedOr (Params.repo params)
  ++ ". Skipping.".

Definition fetchErrorMessage (page : nat) (error : ApiError) : string :=
  "Error fetching page " ++ Js.ofNat page ++ ": " ++ message error.

Section Fetch.

Context {W A : Type}.
Variable host : Host W.
Variable apiCall : Request -> W -> Reply A * W.
Variable params : Params.t.

(** The [while (hasMore)] loop of [fetchAllPages], at most [fuel] calls.
    The loop leaves [page] as it is. *)
Fixpoint fetchLoop (fuel : nat) (allItems : list A) (page : nat) : M W (list A) :=
  match fuel with
  | 0 => pending
  | S fuel' =>
      reply <- await apiCall (mkRequest params page 100) ;;
      match reply with
      | Resolved (Some (x :: d)) =>
          let allItems := (allItems ++ x :: d)%list in
          if (length (x :: d) <? 100)%nat
          then ret allItems
          else fetchLoop fuel' allItems page
      | Resolved _ => ret allItems
      | Rejected error =>
          if bool_decide (status error = Some 404%Z) then
            print Warn (notFoundMessage params) ;;; ret allItems
          else if rateLimitExceeded error then
            print Error (rateLimitMessage host error) ;;; exit 1
          else
            print Error (fetchErrorMessage page error) ;;; ret allItems
      end
  end.

Definition fetchAllPages (fuel : nat) : M W (list A) := fetchLoop fuel [] 1.

End Fetch.

(** [fetchAllPages] of the single-label script. *)
Module Legacy.
Section Fetch.

Context {W A : Type}.
Variable apiCall : Request -> W -> Reply A * W.
Variable params : Params.t.

(** Reading [response.data.length] of a reply without data throws, and the
    [catch] handles the TypeError like a rejected call. *)
Definition noDataError : ApiError :=
  mkApiError None "Cannot read properties of undefined (reading 'length')" None.

Fixpoint fetchLoop (fuel : nat) (allItems : list A) (page : nat) : M W (list A) :=
  match fuel with
  | 0 => pending
  | S fuel' =>
      reply <- await apiCall (mkRequest params page 100) ;;
      match reply with
      | Resolved (Some (x :: d)) => fetchLoop fuel' (allItems ++ x :: d)%list (S page)
      | Resolved (Some []) => ret allItems
      | Resolved None => print Error (fetchErrorMessage page noDataError) ;;; ret allItems
      | Rejected error => print Error (fetchErrorMessage page error) ;;; ret allItems
      end
  end.

Definition fetchAllPages (fuel : nat) : M W (list A) := fetchLoop fuel [] 1.

End Fetch.
End Legacy.

(** ** The classifier and the orchestrator *)

Definition DEFAULT_PRIMARY_LABEL : string := "accessibility".

Section Scan.

Context {W : Type}.
Variable host : Host W.
Variable fuel : nat.                      (* the bound of every [while] loop *)
Variable primaryLabel : string.
Variable additionalLabels : list string.

Definition hasRelevantLabel (issue : Issue.t) : bool :=
  let issueLabels := map (fun label => Js.toLowerCase (Label.name label)) (Issue.labels issue) in
  bool_decide (Js.toLowerCase primaryLabel ∈ issueLabels)
  || existsb (fun label => bool_decide (Js.toLowerCase label ∈ issueLabels)) additionalLabels.

Definition isKeywordFoundInText (issue : Issue.t) : bool :=
  Js.includes (Js.toLowerCase (Issue.title issue)) "accessibility"
  || match Issue.body issue with
     | Some body => Js.includes (Js.toLowerCase body) "accessibility"
     | None => false
     end.

(** [findWcagScInText(text)] on the pattern objects of the process. *)
Definition findWcagSc (text : option string) : M W (list string) :=
  fun st =>
    match findWcagScInText fuel (patterns st) text with
    | Some (found, patterns') =>
        (Returned found,
         mkState (world st) (console st) (calls st) patterns'
                 (issuesData st) (processedIssueIds st) (sources st))
    | None => (Pending, st)
    end.

(** [comments.forEach(comment => { wcagScFound = wcagScFound.concat(...) })] *)
Fixpoint scanComments (comments : list Comment.t) (wcagScFound : list string)
    : M W (list string) :=
  match comments with
  | [] => ret wcagScFound
  | comment :: rest =>
      found <- findWcagSc (Comment.body comment) ;;
      scanComments rest (wcagScFound ++ found)%list
  end.

Definition addProcessed (id : Z) : M W unit :=
  fun st => (Returned tt,
    mkState (world st) (console st) (calls st) (patterns st)
            (issuesData st) ({[ id ]} ∪ processedIssueIds st) (sources st)).

Definition isProcessed (id : Z) : M W bool :=
  fun st => (Returned (bool_decide (id ∈ processedIssueIds st)), st).

Definition now : M W string :=
  fun st => (Returned (toISOString host (world st)), st).

(** [issuesData.push(row)], [row] built from [issue]. *)
Definition push (issue : Issue.t) (row : ExportRecord.t) : M W unit :=
  fun st => (Returned tt,
    mkState (world st) (console st) (calls st) (patterns st)
            (issuesData st ++ [row]) (processedIssueIds st) (sources st ++ [issue])).

Definition commentsParams (repo : Repo.t) (issue : Issue.t) : Params.t :=
  Params.mk None None (Some (User.login (Repo.owner repo))) (Some (Repo.name repo))
            None (Some (Issue.number issue)).

(** The comments of an included issue: the last commenter and the criteria
    found in the comment bodies. *)
Definition readComments (repo : Repo.t) (issue : Issue.t)
    : M W (option string * list string) :=
  if (0 <? Issue.comments issue)%Z then
    comments <- fetchAllPages host (listComments host) (commentsParams repo issue) fuel ;;
    match last comments with
    | Some lastComment =>
        let lastCommenter :=
          match Comment.user lastComment with
          | Some u => User.login u
          | None => "N/A"
          end in
        found <- scanComments comments [] ;;
        ret (Some lastCommenter, found)
    | None => ret (None, [])
    end
  else ret (None, []).

Definition exportRecord (repo : Repo.t) (issue : Issue.t) (wcagScFound : list string)
    (lastCommenter : option string) (extractedAt : string) : ExportRecord.t :=
  {| ExportRecord.WCAG_SC :=
       match wcagScFound with
       | [] => None
       | _ :: _ => Some (Js.join "; " wcagScFound)
       end;
     ExportRecord.Issue_ID := Repo.name repo ++ "-" ++ Js.ofZ (Issue.number issue);
     ExportRecord.Issue_Title := Issue.title issue;
     ExportRecord.Issue_URL := Issue.html_url issue;
     ExportRecord.Project := Repo.name repo;
     ExportRecord.Status := Issue.state issue;
     ExportRecord.Priority := None;
     ExportRecord.Component := None;
     ExportRecord.Version := None;
     ExportRecord.Reporter :=
       match Issue.user issue with Some u => User.login u | None => "N/A" end;
     ExportRecord.Created := Issue.created_at issue;
     ExportRecord.Updated := Issue.updated_at issue;
     ExportRecord.Comments := Issue.comments issue;
     ExportRecord.Has_Fork := if Repo.fork repo then "Yes" else "No";
     ExportRecord.Last_Commenter := lastCommenter;
     ExportRecord.Extracted_At := extractedAt |}.

(** The body of [for (const issue of repoIssues)]. *)
Definition processIssue (repo : Repo.t) (issue : Issue.t) : M W unit :=
  if Issue.pull_request issue then ret tt
  else
    seen <- isProcessed (Issue.id issue) ;;
    if seen : bool then ret tt
    else
      addProcessed (Issue.id issue) ;;;
      if negb (hasRelevantLabel issue) && negb (isKeywordFoundInText issue) then ret tt
      else
        read <- readComments repo issue ;;
        fromBody <- findWcagSc (Issue.body issue) ;;
        fromTitle <- findWcagSc (Some (Issue.title issue)) ;;
        extractedAt <- now ;;
        push issue
          (exportRecord repo issue (Js.dedupe ((snd read ++ fromBody) ++ fromTitle)%list)
                        (fst read) extractedAt).

Fixpoint forEachIssue (repo : Repo.t) (repoIssues : list Issue.t) : M W unit :=
  match repoIssues with
  | [] => ret tt
  | issue :: rest => processIssue repo issue ;;; forEachIssue repo rest
  end.

Definition issuesParams (repo : Repo.t) : Params.t :=
  Params.mk None None (Some (User.login (Repo.owner repo))) (Some (Repo.name repo))
            (Some "all") None.

(** The body of [for (const repo of repositories)]. *)
Definition processRepo (repo : Repo.t) : M W unit :=
  print Stdout ("Processing repository: " ++ Repo.full_name repo ++ "... ") ;;;
  repoIssues <- fetchAllPages host (listForRepo host) (issuesParams repo) fuel ;;
  print Log ("Found " ++ Js.ofNat (length repoIssues) ++ " issues.") ;;;
  forEachIssue repo repoIssues.

Fixpoint forEachRepo (repositories : list Repo.t) : M W unit :=
  match repositories with
  | [] => ret tt
  | repo :: rest => processRepo repo ;;; forEachRepo rest
  end.

Definition orgParams (orgName : string) : Params.t :=
  Params.mk (Some orgName) (Some "public") None None None None.

Definition rows : M W (list ExportRecord.t) :=
  fun st => (Returned (issuesData st), st).

(** [gatherAccessibilityIssues(orgName, primaryLabel, additionalLabels)]:
    the result is the file name and the rows handed to the CSV writer, or
    [None] when the function returns before writing. *)
Definition gatherAccessibilityIssues (orgName : string)
    : M W (option (string * list ExportRecord.t)) :=
  print Log ("Scanning GitHub organization: " ++ orgName) ;;;
  print Log ("Looking for issues with primary label: " ++ dquote ++ primaryLabel ++ dquote) ;;;
  (match additionalLabels with
   | [] => ret tt
   | _ :: _ =>
       print Log ("Also including issues with additional labels: " ++ dquote
                  ++ Js.join (dquote ++ ", " ++ dquote) additionalLabels ++ dquote)
   end) ;;;
  print Log "Fetching repositories..." ;;;
  repositories <- fetchAllPages host (listForOrg host) (orgParams orgName) fuel ;;
  match repositories with
  | [] =>
      print Log ("No public repositories found for " ++ orgName
                 ++ " or access denied. Exiting.") ;;;
      ret None
  | _ :: _ =>
      print Log ("Found " ++ Js.ofNat (length repositories) ++ " repositories.") ;;;
      forEachRepo repositories ;;;
      data <- rows ;;
      print Log (newline ++ "Found " ++ Js.ofNat (length data)
                 ++ " accessibility-related issues across "
                 ++ Js.ofNat (length repositories) ++ " repositories.") ;;;
      today <- now ;;
      ret (Some (orgName ++ "-accessibility-issues-" ++ substring 0 10 today ++ ".csv", data))
  end.

End Scan.

(** The process at start: nothing printed, called, processed or exported,
    and the pattern objects as created. *)
Definition start {W} (w : W) : State W :=
  mkState w [] [] WCAG_PATTERNS [] ∅ [].

(** ** Properties of the matcher *)

Section Matcher.

Local Open Scope list_scope.

Variable ic : bool.

(** The least number of characters a pattern consumes. *)
Fixpoint minLength (ns : list Node) : nat :=
  match ns with
  | [] => 0
  | Chr _ :: ns' => S (minLength ns')
  | Quant _ min _ :: ns' => min + minLength ns'
  | WordBoundary :: ns' => minLength ns'
  end.

(** The characters a node can consume. *)
Definition accepts (n : Node) (c : ascii) : bool :=
  match n with
  | Chr cs | Quant cs _ _ => setMatches ic cs c
  | WordBoundary => false
  end.

(** A quantifier [{min,max}] is well formed when [min <= max]. *)
Definition wfQuant (min : nat) (max : option nat) : bool :=
  match max with Some mx => (min <=? mx)%nat | None => true end.

Definition wfNodes (ns : list Node) : bool :=
  forallb (fun n => match n with Quant _ min max => wfQuant min max | _ => true end) ns.

(** What a continuation promises about its result: it is a prefix of the
    text, has at least [len] characters, all of them satisfying [P]. *)
Definition sound (len : nat) (P : ascii -> Prop)
    (k : option ascii -> list ascii -> option (list ascii)) : Prop :=
  forall prev s m, k prev s = Some m ->
    (exists rest, s = m ++ rest) /\ (len <= length m)%nat /\ Forall P m.

Lemma sound_weaken len (P Q : ascii -> Prop) k :
  (forall c, P c -> Q c) -> sound len P k -> sound len Q k.
Proof.
  intros HPQ Hk prev s m H. apply Hk in H as (Hr & Hl & HP).
  repeat split; auto. eapply Forall_impl; eauto.
Qed.

Lemma greedy_sound len (P : ascii -> Prop) k test :
  sound len P k -> (forall c, test c = true -> P c) ->
  forall s min max prev m,
    wfQuant min max = true ->
    greedy k test min max prev s = Some m ->
    (exists rest, s = m ++ rest) /\ (min + len <= length m)%nat /\ Forall P m.
Proof.
  intros Hk Ht.
  assert (Hstop : forall min prev s m,
    (if (min =? 0)%nat then k prev s else None) = Some m ->
    (exists rest, s = m ++ rest) /\ (min + len <= length m)%nat /\ Forall P m).
  { intros min prev s m H.
    destruct (Nat.eqb_spec min 0) as [->|]; [|discriminate]. now apply Hk in H. }
  assert (Hdone : forall min max prev s m,
    wfQuant min max = true -> exhausted max = true -> k prev s = Some m ->
    (exists rest, s = m ++ rest) /\ (min + len <= length m)%nat /\ Forall P m).
  { intros min max prev s m Hwf Hmax H.
    destruct max as [[|mx]|]; try discriminate. simpl in Hwf.
    apply Nat.leb_le in Hwf. assert (min = 0) as -> by lia. now apply Hk in H. }
  induction s as [|c s IH]; intros min max prev m Hwf H; simpl in H;
    destruct (exhausted max) eqn:Hmax; try (eapply Hdone; eassumption).
  - eapply Hstop; eauto.
  - destruct (test c) eqn:Hc; [|eapply Hstop; eauto].
    destruct (greedy k test (Init.Nat.pred min) (option_map Init.Nat.pred max) (Some c) s)
      as [m'|] eqn:Hrec; [|eapply Hstop; eauto].
    injection H as <-.
    apply IH in Hrec as ([rest ->] & Hl & HP).
    + split; [exists rest; reflexivity|]. split; [simpl; lia|].
      constructor; auto.
    + destruct max as [[|mx]|]; simpl in *; try discriminate; auto.
      apply Nat.leb_le in Hwf. apply Nat.leb_le. lia.
Qed.

Definition accepted (ns : list Node) (c : ascii) : Prop :=
  existsb (fun n => accepts n c) ns = true.

Lemma matchNodes_sound ns :
  wfNodes ns = true -> sound (minLength ns) (accepted ns) (matchNodes ic ns).
Proof.
  induction ns as [|n ns IH]; intros Hwf.
  - intros prev s m H. injection H as <-. repeat split; [now exists s|simpl; lia|constructor].
  - simpl in Hwf. apply andb_true_iff in Hwf as [Hn Hwf]. specialize (IH Hwf).
    assert (IH' : sound (minLength ns) (accepted (n :: ns)) (matchNodes ic ns)).
    { eapply sound_weaken; [|exact IH]. intros c Hc. unfold accepted in *. simpl.
      rewrite Hc. apply orb_true_r. }
    destruct n as [cs|cs min max|].
    + intros prev [|c s] m H; simpl in H; [discriminate|].
      destruct (setMatches ic cs c) eqn:Hc; [|discriminate].
      destruct (matchNodes ic ns (Some c) s) as [m'|] eqn:Hm; [|discriminate].
      injection H as <-. apply IH' in Hm as ([rest ->] & Hl & HP).
      split; [now exists rest|]. split; [simpl; lia|].
      constructor; auto. unfold accepted. simpl. now rewrite Hc.
    + intros prev s m H. simpl in H.
      eapply greedy_sound in H; eauto.
      intros c Hc. unfold accepted. simpl. now rewrite Hc.
    + intros prev s m H. simpl in H.
      destruct (xorb (isWordAt prev) (isWordAt (head s))); [|discriminate].
      now apply IH' in H.
Qed.

Lemma matchNodes_Chr cs ns prev s m :
  matchNodes ic (Chr cs :: ns) prev s = Some m ->
  exists c s' m', s = c :: s' /\ setMatches ic cs c = true /\
    matchNodes ic ns (Some c) s' = Some m' /\ m = c :: m'.
Proof.
  destruct s as [|c s]; simpl; [discriminate|].
  destruct (setMatches ic cs c) eqn:Hc; [|discriminate].
  destruct (matchNodes ic ns (Some c) s) as [m'|] eqn:Hm; [|discriminate].
  intros H. injection H as <-. exists c, s, m'. repeat split; reflexivity || assumption.
Qed.

(** The code unit before the position reached after [s1]. *)
Fixpoint prevOf (prev : option ascii) (s1 : list ascii) : option ascii :=
  match s1 with
  | [] => prev
  | c :: s1' => prevOf (Some c) s1'
  end.

Lemma prevOf_last prev s1 :
  prevOf prev s1 = match last s1 with Some c => Some c | None => prev end.
Proof.
  revert prev. induction s1 as [|c s1 IH]; intros prev; [reflexivity|].
  simpl prevOf. rewrite IH. destruct s1 as [|a s1]; [reflexivity|].
  change (last (c :: a :: s1)) with (last (a :: s1)).
  destruct (last (a :: s1)) eqn:E; [reflexivity|].
  apply last_None in E. discriminate.
Qed.

Lemma prevOf_app prev s1 s2 : prevOf prev (s1 ++ s2) = prevOf (prevOf prev s1) s2.
Proof. revert prev. induction s1; intros; simpl; auto. Qed.

(** [search] returns a position at which the pattern matches. *)
Lemma search_Some ns s : forall prev i m,
  search ic ns prev s = Some (i, m) ->
  exists s1 s2, s = s1 ++ s2 /\ length s1 = i /\
    matchNodes ic ns (prevOf prev s1) s2 = Some m.
Proof.
  induction s as [|c s IH]; intros prev i m H; simpl in H.
  - destruct (matchNodes ic ns prev []) eqn:Hm; [|discriminate].
    injection H as <- <-. now exists [], [].
  - destruct (matchNodes ic ns prev (c :: s)) eqn:Hm.
    + injection H as <- <-. now exists [], (c :: s).
    + destruct (search ic ns (Some c) s) as [[j m']|] eqn:Hs; [|discriminate].
      injection H as <- <-. apply IH in Hs as (s1 & s2 & -> & <- & Hm').
      now exists (c :: s1), s2.
Qed.

(** ... and no later than the first position at which it matches. *)
Lemma search_split ns s1 : forall prev s2 m0,
  matchNodes ic ns (prevOf prev s1) s2 = Some m0 ->
  exists i m, search ic ns prev (s1 ++ s2) = Some (i, m) /\
    ((i < length s1)%nat \/ (i = length s1 /\ m = m0)).
Proof.
  induction s1 as [|c s1 IH]; intros prev s2 m0 H; simpl in H.
  - exists 0, m0. split; [|now right].
    destruct s2; simpl; now rewrite H.
  - simpl. destruct (matchNodes ic ns prev (c :: s1 ++ s2)) as [m|] eqn:Hm.
    + exists 0, m. split; [reflexivity|left; simpl; lia].
    + apply IH in H as (i & m & -> & Hi). exists (S i), m.
      split; [reflexivity|]. simpl. destruct Hi as [Hi|[-> ->]]; [left; lia|now right].
Qed.

(** A match found by [search] lies inside the text and is at least as
    long as the pattern's shortest match. *)
Lemma search_bounds ns prev s i m :
  wfNodes ns = true ->
  search ic ns prev s = Some (i, m) ->
  (i + length m <= length s)%nat /\ (minLength ns <= length m)%nat.
Proof.
  intros Hwf H. apply search_Some in H as (s1 & s2 & -> & <- & Hm).
  apply (matchNodes_sound ns Hwf) in Hm as ([rest ->] & Hl & _).
  rewrite !length_app. lia.
Qed.

End Matcher.

(** ** Properties of [exec] and of the scan loop *)

Section ExecLoop.

Local Open Scope list_scope.

Lemma exec_global r text :
  global r = true -> (lastIndex r <= length text)%nat ->
  exec r text =
    match search (ignoreCase r) (nodes r) (last (take (lastIndex r) text))
                 (drop (lastIndex r) text) with
    | Some (i, m) => (Some (mkMatch (lastIndex r + i) m),
                      withLastIndex r (lastIndex r + i + length m))
    | None => (None, withLastIndex r 0)
    end.
Proof.
  intros Hg Hl. unfold exec. rewrite Hg.
  destruct (Nat.ltb_spec (length text) (lastIndex r)); [lia|reflexivity].
Qed.

Lemma exec_past_end r text :
  global r = true -> (length text < lastIndex r)%nat ->
  exec r text = (None, withLastIndex r 0).
Proof.
  intros Hg Hl. unfold exec. rewrite Hg.
  destruct (Nat.ltb_spec (length text) (lastIndex r)); [reflexivity|lia].
Qed.

(** The loop ends, with [lastIndex] back at zero, whenever every match of
    the pattern is non-empty: [length text + 1] calls of [exec] suffice. *)
Lemma execLoop_total r text :
  global r = true -> wfNodes (nodes r) = true -> (1 <= minLength (nodes r))%nat ->
  forall fuel li found,
    (length text - li < fuel)%nat ->
    exists found', execLoop fuel (withLastIndex r li) text found
                   = Some (found', withLastIndex r 0).
Proof.
  intros Hg Hwf Hmin. induction fuel as [|fuel IH]; intros li found Hf; [lia|].
  simpl. destruct (Nat.le_gt_cases li (length text)) as [Hli|Hli].
  - rewrite exec_global by (simpl; auto). simpl.
    destruct (search _ _ _ _) as [[i m]|] eqn:Hs.
    + apply search_bounds in Hs as [Hb Hm]; [|exact Hwf].
      rewrite length_drop in Hb.
      apply IH. lia.
    + eexists. reflexivity.
  - rewrite exec_past_end by (simpl; auto). eexists. reflexivity.
Qed.

Lemma setAdd_mono x y l : y ∈ l -> y ∈ Js.setAdd x l.
Proof.
  intros H. unfold Js.setAdd. case_bool_decide; [exact H|].
  apply elem_of_app. now left.
Qed.

Lemma setAdd_elem x l : x ∈ Js.setAdd x l.
Proof.
  unfold Js.setAdd. case_bool_decide; [assumption|].
  apply elem_of_app. right. apply list_elem_of_singleton. reflexivity.
Qed.

(** The loop only adds to the set. *)
Lemma execLoop_mono text y : forall fuel r found found' r',
  execLoop fuel r text found = Some (found', r') -> y ∈ found -> y ∈ found'.
Proof.
  induction fuel as [|fuel IH]; intros r found found' r' H Hy; [discriminate|].
  simpl in H. destruct (exec r text) as [[m|] r1].
  - eapply IH; [exact H|]. destruct (matched m); [exact Hy|now apply setAdd_mono].
  - now injection H as <- <-.
Qed.

Lemma forEachPattern_mono text y : forall fuel patterns found found' patterns',
  forEachPattern fuel patterns text found = Some (found', patterns') ->
  y ∈ found -> y ∈ found'.
Proof.
  intros fuel patterns. induction patterns as [|p ps IH]; intros found found' ps' H Hy.
  - now injection H as <- <-.
  - simpl in H.
    destruct (execLoop fuel (withLastIndex p 0) text found) as [[f1 p1]|] eqn:H1; [|discriminate].
    destruct (forEachPattern fuel ps text f1) as [[f2 ps2]|] eqn:H2; [|discriminate].
    injection H as <- <-. eapply IH; [exact H2|]. eapply execLoop_mono; eauto.
Qed.

(** The first call of [exec] on a text in which the pattern matches
    somewhere returns a match, so the loop adds its normal form. *)
Lemma execLoop_first r text s1 s2 m0 target :
  global r = true ->
  text = s1 ++ s2 ->
  matchNodes (ignoreCase r) (nodes r) (prevOf None s1) s2 = Some m0 ->
  (forall prev s m, matchNodes (ignoreCase r) (nodes r) prev s = Some m ->
     m <> [] /\ normalize m = target) ->
  forall fuel found found' r',
    execLoop fuel (withLastIndex r 0) text found = Some (found', r') ->
    target ∈ found'.
Proof.
  intros Hg -> Hm0 Hnorm fuel found found' r' H.
  destruct fuel as [|fuel]; [discriminate|]. simpl in H.
  rewrite exec_global in H by (simpl; auto; lia). simpl in H.
  destruct (search_split (ignoreCase r) (nodes r) s1 None s2 m0 Hm0) as (i & m & Hs & _).
  rewrite drop_0, Hs in H. simpl in H.
  apply search_Some in Hs as (sa & sb & _ & _ & Hm).
  apply Hnorm in Hm as [Hne <-].
  eapply execLoop_mono; [exact H|].
  destruct m; [congruence|]. apply setAdd_elem.
Qed.

(** If the pattern matches at the position after [pre], where the text has
    [c0], and no match of the pattern has [c0] after its first character,
    the loop reaches that position and adds the normal form of the match
    found there. *)
Lemma execLoop_reaches r pre c0 s2 m0 :
  global r = true -> wfNodes (nodes r) = true -> (1 <= minLength (nodes r))%nat ->
  (forall prev, matchNodes (ignoreCase r) (nodes r) prev (c0 :: s2) = Some m0) ->
  (forall prev s m k, matchNodes (ignoreCase r) (nodes r) prev s = Some m ->
     (1 <= k)%nat -> m !! k <> Some c0) ->
  forall fuel li found found' r',
    (li <= length pre)%nat ->
    execLoop fuel (withLastIndex r li) (pre ++ c0 :: s2) found = Some (found', r') ->
    normalize m0 ∈ found'.
Proof.
  intros Hg Hwf Hmin Hm0 Hover.
  assert (Hne : m0 <> []).
  { specialize (Hm0 None). apply (matchNodes_sound _ _ Hwf) in Hm0 as (_ & Hl & _).
    destruct m0; [simpl in Hl; lia|discriminate]. }
  induction fuel as [|fuel IH]; intros li found found' r' Hli H; [discriminate|].
  simpl in H.
  rewrite exec_global in H by (simpl; auto; rewrite length_app; lia). simpl in H.
  rewrite drop_app_le in H by exact Hli.
  destruct (search_split (ignoreCase r) (nodes r) (drop li pre)
              (last (take li (pre ++ c0 :: s2))) (c0 :: s2) m0 (Hm0 _))
    as (i & m & Hs & Hi).
  rewrite Hs in H. simpl in H.
  destruct Hi as [Hi|[-> ->]].
  - (* a match before the position: it ends at or before it *)
    apply search_Some in Hs as (sa & sb & Hsplit & Hsa & Hm).
    pose proof Hm as Hsound.
    apply (matchNodes_sound _ _ Hwf) in Hsound as ([rest ->] & Hl & _).
    assert (Hend : (i + length m <= length (drop li pre))%nat).
    { destruct (Nat.le_gt_cases (i + length m) (length (drop li pre))) as [|Hgt]; [assumption|].
      exfalso.
      assert (Hc : (drop li pre ++ c0 :: s2) !! length (drop li pre) = Some c0)
        by apply list_lookup_middle, eq_refl.
      rewrite Hsplit in Hc.
      rewrite lookup_app_r in Hc by lia.
      rewrite lookup_app_l in Hc by lia.
      eapply Hover; [exact Hm| |exact Hc]. lia. }
    rewrite length_drop in Hend, Hi.
    change (withLastIndex (withLastIndex r li) (li + i + length m))
      with (withLastIndex r (li + i + length m)) in H.
    eapply IH; [|exact H]. lia.
  - eapply execLoop_mono; [exact H|].
    destruct m0; [congruence|]. apply setAdd_elem.
Qed.

End ExecLoop.

(** ** The criteria extractor: absent input, and independence of earlier calls *)

Section Extractor.

Local Open Scope list_scope.

Example findWcagScInText_sc143 :
  findWcagScInText 20 WCAG_PATTERNS (Some "see SC 1.4.3")
  = Some (["SC 1.4.3"; "1.4.3"], WCAG_PATTERNS).
Proof. vm_compute. reflexivity. Qed.

Example findWcagScInText_mixed_case :
  findWcagScInText 40 WCAG_PATTERNS (Some "Fails wcag  2.1 aa on focus")
  = Some (["WCAG 2.1 AA"; "AA"; "A"], WCAG_PATTERNS).
Proof. vm_compute. reflexivity. Qed.

(** The pattern objects with their cursors moved to arbitrary positions. *)
Fixpoint relocate (cursors : list nat) (patterns : list RegExp.t) : list RegExp.t :=
  match patterns, cursors with
  | p :: ps, i :: cursors' => withLastIndex p i :: relocate cursors' ps
  | _, _ => patterns
  end.

(** The state of the pattern objects after a sequence of calls. *)
Fixpoint afterCalls (fuel : nat) (patterns : list RegExp.t) (texts : list (option string))
    : option (list RegExp.t) :=
  match texts with
  | [] => Some patterns
  | text :: rest =>
      match findWcagScInText fuel patterns text with
      | Some (_, patterns') => afterCalls fuel patterns' rest
      | None => None
      end
  end.

Definition textLength (text : option string) : nat :=
  match text with Some s => String.length s | None => 0 end.

(** Every match of the pattern is non-empty, and the pattern is global. *)
Definition progresses (p : RegExp.t) : bool :=
  global p && wfNodes (nodes p) && (1 <=? minLength (nodes p))%nat.

Lemma WCAG_PATTERNS_progress : forallb progresses WCAG_PATTERNS = true.
Proof. reflexivity. Qed.

Lemma forEachPattern_relocate fuel text : forall patterns cursors found,
  forEachPattern fuel (relocate cursors patterns) text found
  = forEachPattern fuel patterns text found.
Proof.
  intros patterns; induction patterns as [|p ps IH]; intros cursors found; [now destruct cursors|].
  destruct cursors as [|i cursors]; [reflexivity|].
  simpl. change (withLastIndex (withLastIndex p i) 0) with (withLastIndex p 0).
  destruct (execLoop fuel (withLastIndex p 0) text found) as [[f1 p1]|]; [|reflexivity].
  now rewrite IH.
Qed.

Lemma forEachPattern_total text : forall patterns fuel found,
  forallb progresses patterns = true ->
  (length text < fuel)%nat ->
  exists found', forEachPattern fuel patterns text found
                 = Some (found', map (fun p => withLastIndex p 0) patterns).
Proof.
  intros patterns; induction patterns as [|p ps IH]; intros fuel found Hp Hf; [now eexists|].
  simpl in Hp. apply andb_true_iff in Hp as [Hp Hps].
  unfold progresses in Hp. apply andb_true_iff in Hp as [Hp Hmin].
  apply andb_true_iff in Hp as [Hg Hwf]. apply Nat.leb_le in Hmin.
  destruct (execLoop_total p text Hg Hwf Hmin fuel 0 found) as [f1 H1]; [lia|].
  destruct (IH fuel f1 Hps Hf) as [f2 H2].
  exists f2. simpl. rewrite H1, H2. reflexivity.
Qed.

(** More calls allowed do not change the result of a loop that ended. *)
Lemma execLoop_fuel text : forall fuel fuel' r found res,
  execLoop fuel r text found = Some res -> (fuel <= fuel')%nat ->
  execLoop fuel' r text found = Some res.
Proof.
  induction fuel as [|fuel IH]; intros fuel' r found res H Hle; [discriminate|].
  destruct fuel' as [|fuel']; [lia|]. simpl in *.
  destruct (exec r text) as [[m|] r1]; [|exact H].
  eapply IH; [exact H|lia].
Qed.

Lemma forEachPattern_fuel text : forall patterns fuel fuel' found res,
  forEachPattern fuel patterns text found = Some res -> (fuel <= fuel')%nat ->
  forEachPattern fuel' patterns text found = Some res.
Proof.
  intros patterns; induction patterns as [|p ps IH]; intros fuel fuel' found res H Hle; [exact H|].
  simpl in *.
  destruct (execLoop fuel (withLastIndex p 0) text found) as [[f1 p1]|] eqn:H1; [|discriminate].
  rewrite (execLoop_fuel _ _ _ _ _ _ H1 Hle).
  destruct (forEachPattern fuel ps text f1) as [[f2 ps2]|] eqn:H2; [|discriminate].
  now rewrite (IH _ _ _ _ H2 Hle).
Qed.

Lemma length_list_ascii_of_string s :
  length (list_ascii_of_string s) = String.length s.
Proof. induction s; simpl; auto. Qed.

Lemma findWcagScInText_scan fuel patterns c s :
  findWcagScInText fuel patterns (Some (String c s))
  = forEachPattern fuel patterns (c :: list_ascii_of_string s) [].
Proof. reflexivity. Qed.

(** With the bound above the length of the text the call returns, whatever
    the cursors, and leaves every cursor at zero (an absent or empty text
    leaves the objects untouched). *)
Lemma findWcagScInText_total fuel cursors text :
  (textLength text < fuel)%nat ->
  exists found patterns',
    findWcagScInText fuel (relocate cursors WCAG_PATTERNS) text = Some (found, patterns')
    /\ (patterns' = WCAG_PATTERNS \/ patterns' = relocate cursors WCAG_PATTERNS).
Proof.
  intros Hf. destruct text as [[|c s]|].
  - eexists _, _. split; [reflexivity|now right].
  - rewrite findWcagScInText_scan, forEachPattern_relocate.
    destruct (forEachPattern_total (c :: list_ascii_of_string s) WCAG_PATTERNS fuel [])
      as [found H]; [reflexivity| |].
    + cbn [length textLength String.length] in *. rewrite length_list_ascii_of_string. exact Hf.
    + eexists _, _. split; [exact H|now left].
  - eexists _, _. split; [reflexivity|now right].
Qed.

Lemma afterCalls_cursors fuel : forall texts cursors patterns,
  afterCalls fuel (relocate cursors WCAG_PATTERNS) texts = Some patterns ->
  exists cursors', patterns = relocate cursors' WCAG_PATTERNS.
Proof.
  induction texts as [|text rest IH]; intros cursors patterns H; simpl in H.
  - injection H as <-. now exists cursors.
  - destruct (findWcagScInText fuel (relocate cursors WCAG_PATTERNS) text)
      as [[found p1]|] eqn:H1; [|discriminate].
    assert (exists c1, p1 = relocate c1 WCAG_PATTERNS) as [c1 ->].
    { destruct text as [[|c s]|].
      - injection H1 as _ <-. now exists cursors.
      - rewrite findWcagScInText_scan, forEachPattern_relocate in H1.
        pose (F := S (Nat.max fuel (length (c :: list_ascii_of_string s)))).
        assert (HF : forEachPattern F WCAG_PATTERNS (c :: list_ascii_of_string s) []
                     = Some (found, p1)).
        { eapply forEachPattern_fuel; [exact H1|unfold F; lia]. }
        destruct (forEachPattern_total (c :: list_ascii_of_string s) WCAG_PATTERNS F [])
          as [f2 H2]; [reflexivity|unfold F; lia|].
        rewrite H2 in HF. injection HF as _ <-. now exists [].
      - injection H1 as _ <-. now exists cursors. }
    eapply IH. exact H.
Qed.

(** C9. For an absent text ([null] or [undefined]) and for the empty
    string, findWcagScInText returns the empty list without scanning: it
    does not fail, whatever the bound on its loops, and leaves the pattern
    objects as they are. *)
Theorem findWcagScInText_absent :
  (forall fuel patterns, findWcagScInText fuel patterns None = Some ([], patterns))
  /\ (forall fuel patterns, findWcagScInText fuel patterns (Some "") = Some ([], patterns)).
Proof. split; reflexivity. Qed.

(** C10. findWcagScInText is stateless across calls: for every text there
    is one result [found], which the call returns whatever the cursors
    ([lastIndex]) of the pattern objects are when it starts, in particular
    after any sequence of earlier calls on other texts, and whatever the
    bound on its loops (above the length of the text): each pattern's
    cursor is reset to zero before its scan. *)
Theorem findWcagScInText_stateless (text : option string) :
  exists found,
    (forall fuel cursors, (textLength text < fuel)%nat ->
       fst <$> findWcagScInText fuel (relocate cursors WCAG_PATTERNS) text = Some found)
    /\ (forall fuel earlier patterns, (textLength text < fuel)%nat ->
          afterCalls fuel WCAG_PATTERNS earlier = Some patterns ->
          fst <$> findWcagScInText fuel patterns text = Some found).
Proof.
  destruct (findWcagScInText_total (S (textLength text)) [] text) as (found & p0 & H0 & _); [lia|].
  exists found.
  assert (Hall : forall fuel cursors, (textLength text < fuel)%nat ->
     fst <$> findWcagScInText fuel (relocate cursors WCAG_PATTERNS) text = Some found).
  { intros fuel cursors Hf. destruct text as [[|c s]|].
    - injection H0 as <- _. reflexivity.
    - rewrite findWcagScInText_scan, forEachPattern_relocate.
      change (relocate [] WCAG_PATTERNS) with WCAG_PATTERNS in H0.
      rewrite findWcagScInText_scan in H0.
      rewrite (forEachPattern_fuel _ _ _ fuel _ _ H0); [reflexivity|].
      cbn [textLength String.length] in *. lia.
    - injection H0 as <- _. reflexivity. }
  split; [exact Hall|].
  intros fuel earlier patterns Hf He.
  apply (afterCalls_cursors fuel earlier []) in He as [cursors ->].
  now apply Hall.
Qed.

Lemma findWcagScInText_stateless_witness :
  exists found,
    fst <$> findWcagScInText 20 (relocate [7; 3; 99; 0; 1] WCAG_PATTERNS) (Some "see SC 1.4.3")
      = Some found
    /\ fst <$> findWcagScInText 20 WCAG_PATTERNS (Some "see SC 1.4.3") = Some found.
Proof.
  destruct (findWcagScInText_stateless (Some "see SC 1.4.3")) as (found & Hc & He).
  exists found. split.
  - apply Hc. simpl. lia.
  - apply (He 20 [] WCAG_PATTERNS); [simpl; lia|reflexivity].
Defined.

End Extractor.

(** ** The criteria extractor: overlapping matches *)

Section Overlap.

Local Open Scope list_scope.

Lemma list_ascii_of_string_app s t :
  list_ascii_of_string (s +:+ t) = list_ascii_of_string s ++ list_ascii_of_string t.
Proof. induction s as [|c s IH]; simpl; [reflexivity|now rewrite IH]. Qed.

Lemma findWcagScInText_chars fuel patterns text :
  list_ascii_of_string text <> [] ->
  findWcagScInText fuel patterns (Some text)
  = forEachPattern fuel patterns (list_ascii_of_string text) [].
Proof. intros H. destruct text; [now contradict H|reflexivity]. Qed.

(** Under the [i] flag the atom [A] takes exactly the letters A and a. *)
Lemma isA_spec c :
  setMatches true [Single "A"] c = (Ascii.eqb c "A" || Ascii.eqb c "a").
Proof. destruct c as [[] [] [] [] [] [] [] []]; reflexivity. Qed.

Lemma isA_inv c :
  setMatches true [Single "A"] c = true -> c = "A"%char \/ c = "a"%char.
Proof.
  rewrite isA_spec. intros H. apply orb_true_iff in H as [H|H];
    apply Ascii.eqb_eq in H; auto.
Qed.

(** Every match of [/AA/gi] has the normal form AA. *)
Lemma doubleA_normal prev s m :
  matchNodes true (nodes doubleA) prev s = Some m -> m <> [] /\ normalize m = "AA".
Proof.
  destruct s as [|c1 [|c2 s]]; cbn [matchNodes nodes doubleA lit option_map]; try discriminate.
  - destruct (setMatches true [Single "A"] c1); discriminate.
  - destruct (setMatches true [Single "A"] c1) eqn:H1; [|discriminate].
    destruct (setMatches true [Single "A"] c2) eqn:H2; [|discriminate].
    intros H. injection H as <-. split; [discriminate|].
    apply isA_inv in H1 as [-> | ->]; apply isA_inv in H2 as [-> | ->]; reflexivity.
Qed.

(** The characters of "WCAG 2.1 AA". *)
Definition wcag21aa : list ascii := list_ascii_of_string "WCAG 2.1 AA".

(** The text after an occurrence starts with a letter A or a. *)
Definition followedByA (post : string) : bool :=
  match post with
  | String c _ => Ascii.eqb c "A" || Ascii.eqb c "a"
  | EmptyString => false
  end.

(** At an occurrence of "WCAG 2.1 AA" the first pattern matches the
    occurrence, and one more letter when an A follows: [A{1,3}] is greedy. *)
Lemma wcagLevel_at prev post :
  matchNodes true (nodes wcagLevel) prev (wcag21aa ++ list_ascii_of_string post)
  = Some (wcag21aa ++ match post with
                      | String c _ => if followedByA post then [c] else []
                      | EmptyString => []
                      end).
Proof.
  destruct post as [|c post]; [reflexivity|].
  cbn [list_ascii_of_string]. generalize (list_ascii_of_string post). intros l.
  destruct l; destruct c as [[] [] [] [] [] [] [] []]; vm_compute; reflexivity.
Qed.

(** A match of the first pattern has no letter W after its first character. *)
Lemma wcagLevel_no_W prev s m k :
  matchNodes true (nodes wcagLevel) prev s = Some m ->
  (1 <= k)%nat -> m !! k <> Some "W"%char.
Proof.
  intros H Hk Hlook.
  apply matchNodes_Chr in H as (c & s' & m' & -> & _ & Hm & ->).
  apply matchNodes_sound in Hm as (_ & _ & Hall); [|reflexivity].
  destruct k as [|k]; [lia|]. simpl in Hlook.
  apply list_elem_of_lookup_2 in Hlook.
  rewrite Forall_forall in Hall. apply Hall in Hlook.
  vm_compute in Hlook. discriminate.
Qed.

(** C5, as the code has it. For every text with an occurrence of
    "WCAG 2.1 AA", findWcagScInText returns (given a bound on its loops
    above the length of the text) a list that includes "AA"; it includes
    "WCAG 2.1 AA" when the occurrence is not followed by a letter A or a,
    and "WCAG 2.1 AAA" when it is: the overlapping matches of different
    patterns are all kept. *)
Theorem findWcagScInText_wcag21aa (pre post : string) (fuel : nat) :
  (String.length (pre +:+ "WCAG 2.1 AA" +:+ post) < fuel)%nat ->
  exists found,
    findWcagScInText fuel WCAG_PATTERNS (Some (pre +:+ "WCAG 2.1 AA" +:+ post))
      = Some (found, WCAG_PATTERNS)
    /\ "AA" ∈ found
    /\ (if followedByA post then "WCAG 2.1 AAA" ∈ found else "WCAG 2.1 AA" ∈ found).
Proof.
  intros Hf.
  set (text := pre +:+ "WCAG 2.1 AA" +:+ post) in *.
  assert (Htext : list_ascii_of_string text
                  = list_ascii_of_string pre ++ wcag21aa ++ list_ascii_of_string post).
  { unfold text. now rewrite !list_ascii_of_string_app. }
  rewrite findWcagScInText_chars
    by (rewrite Htext; destruct (list_ascii_of_string pre); discriminate).
  destruct (forEachPattern_total (list_ascii_of_string text) WCAG_PATTERNS fuel [])
    as [found H]; [reflexivity|now rewrite length_list_ascii_of_string|].
  exists found. split; [exact H|].
  cbn [forEachPattern WCAG_PATTERNS] in H.
  destruct (execLoop fuel (withLastIndex wcagLevel 0) _ []) as [[f1 p1]|] eqn:H1; [|discriminate].
  destruct (execLoop fuel (withLastIndex scNumber 0) _ f1) as [[f2 p2]|] eqn:H2; [|discriminate].
  destruct (execLoop fuel (withLastIndex dottedTriple 0) _ f2) as [[f3 p3]|] eqn:H3; [|discriminate].
  destruct (execLoop fuel (withLastIndex doubleA 0) _ f3) as [[f4 p4]|] eqn:H4; [|discriminate].
  destruct (execLoop fuel (withLastIndex singleA 0) _ f4) as [[f5 p5]|] eqn:H5; [|discriminate].
  injection H as <- _.
  split.
  - eapply execLoop_mono; [exact H5|].
    rewrite Htext in H4.
    eapply (execLoop_first doubleA _
              (list_ascii_of_string pre ++ list_ascii_of_string "WCAG 2.1 ")
              (list_ascii_of_string "AA" ++ list_ascii_of_string post)
              (list_ascii_of_string "AA") "AA" eq_refl); [| | |exact H4].
    + now rewrite <- app_assoc.
    + destruct (list_ascii_of_string post) as [|c l]; [reflexivity|].
      cbn [matchNodes nodes doubleA lit list_ascii_of_string app option_map].
      reflexivity.
    + apply doubleA_normal.
  - assert (H1' : normalize (wcag21aa ++ match post with
                      | String c _ => if followedByA post then [c] else []
                      | EmptyString => []
                      end) ∈ f1).
    { rewrite Htext in H1.
      eapply (execLoop_reaches wcagLevel (list_ascii_of_string pre) "W"%char
                (list_ascii_of_string "CAG 2.1 AA" ++ list_ascii_of_string post)
                _ eq_refl eq_refl); [| | | |exact H1].
      - cbn; lia.
      - intros prev. apply (wcagLevel_at prev post).
      - intros prev s m k. apply wcagLevel_no_W.
      - lia. }
    assert (Hkeep : forall y, y ∈ f1 -> y ∈ f5).
    { intros y Hy. eapply execLoop_mono; [exact H5|]. eapply execLoop_mono; [exact H4|].
      eapply execLoop_mono; [exact H3|]. eapply execLoop_mono; [exact H2|]. exact Hy. }
    destruct post as [|c post]; [apply Hkeep; exact H1'|].
    destruct (followedByA (String c post)) eqn:HA; [|apply Hkeep; exact H1'].
    apply Hkeep. simpl in HA. apply orb_true_iff in HA as [HA|HA];
      apply Ascii.eqb_eq in HA; subst c; exact H1'.
Qed.

Lemma findWcagScInText_wcag21aa_witness :
  exists found,
    findWcagScInText 40 WCAG_PATTERNS (Some ("Fails " +:+ "WCAG 2.1 AA" +:+ " contrast"))
      = Some (found, WCAG_PATTERNS)
    /\ "AA" ∈ found /\ "WCAG 2.1 AA" ∈ found.
Proof.
  apply (findWcagScInText_wcag21aa "Fails " " contrast" 40). simpl. lia.
Defined.

(** C5 as stated fails: "WCAG 2.1 AAA" contains "WCAG 2.1 AA", and the
    result for it does not include "WCAG 2.1 AA". *)
Lemma findWcagScInText_wcag21aaa :
  findWcagScInText 20 WCAG_PATTERNS (Some ("" +:+ "WCAG 2.1 AA" +:+ "A"))
    = Some (["WCAG 2.1 AAA"; "AA"; "A"], WCAG_PATTERNS)
  /\ "WCAG 2.1 AA" ∉ ["WCAG 2.1 AAA"; "AA"; "A"].
Proof.
  split; [vm_compute; reflexivity|].
  intros H. repeat (apply elem_of_cons in H as [H|H]; [discriminate|]).
  now apply elem_of_nil in H.
Qed.

End Overlap.

(** ** The paged fetcher *)

Section FetchProperties.

Local Open Scope list_scope.

Context {W A : Type}.
Variable host : Host W.
Variable apiCall : Request -> W -> Reply A * W.
Variable params : Params.t.

Lemma fetchLoop_step fuel allItems page st :
  fetchLoop host apiCall params (S fuel) allItems page st =
  let (reply, w) := apiCall (mkRequest params page 100) (world st) in
  let st1 := traced st w (mkRequest params page 100) (answerOf reply) in
  match reply with
  | Resolved (Some (x :: d)) =>
      if (length (x :: d) <? 100)%nat
      then (Returned (allItems ++ x :: d), st1)
      else fetchLoop host apiCall params fuel (allItems ++ x :: d) page st1
  | Resolved _ => (Returned allItems, st1)
  | Rejected error =>
      if bool_decide (status error = Some 404%Z) then
        (Returned allItems, printed st1 Warn (notFoundMessage params))
      else if rateLimitExceeded error then
        (Exited 1, printed st1 Error (rateLimitMessage host error))
      else
        (Returned allItems, printed st1 Error (fetchErrorMessage page error))
  end.
Proof.
  cbn [fetchLoop]. unfold bind at 1. unfold await.
  destruct (apiCall (mkRequest params page 100) (world st)) as [reply w].
  destruct reply as [[[|x d]|]|error]; try reflexivity.
  - destruct (length (x :: d) <? 100)%nat; reflexivity.
  - destruct (bool_decide (status error = Some 404%Z)); [reflexivity|].
    destruct (rateLimitExceeded error); reflexivity.
Qed.

(** Every request of a fetch asks for the page the loop started with, with
    page size 100: the page number is never incremented. *)
Lemma fetchLoop_same_page : forall fuel allItems page st,
  exists made,
    calls (snd (fetchLoop host apiCall params fuel allItems page st)) = calls st ++ made
    /\ Forall (fun c => fst c = mkRequest params page 100) made.
Proof.
  induction fuel as [|fuel IH]; intros allItems pg st.
  - exists []. split; [now rewrite app_nil_r|constructor].
  - rewrite fetchLoop_step.
    destruct (apiCall (mkRequest params pg 100) (world st)) as [reply w].
    set (st1 := traced st w (mkRequest params pg 100) (answerOf reply)).
    assert (H1 : forall st' : State W, calls st' = calls st1 ->
              exists made, calls st' = calls st ++ made
                /\ Forall (fun c => fst c = mkRequest params pg 100) made).
    { intros st' ->. eexists. split; [reflexivity|]. repeat constructor. }
    destruct reply as [[[|x d]|]|error]; cbn [snd]; try (apply H1; reflexivity).
    + destruct (length (x :: d) <? 100)%nat; [apply H1; reflexivity|].
      destruct (IH (allItems ++ x :: d) pg st1) as (made & -> & Hall).
      exists ((mkRequest params pg 100, answerOf (Resolved (Some (x :: d)))) :: made).
      split; [unfold st1; simpl; now rewrite <- app_assoc|].
      constructor; auto.
    + destruct (bool_decide (status error = Some 404%Z)); [apply H1; reflexivity|].
      destruct (rateLimitExceeded error); apply H1; reflexivity.
Qed.

(** A not-found error ends this fetch: a warning is printed, no further
    call is made, and the items accumulated so far are returned. *)
Lemma fetchLoop_not_found fuel allItems page st error w :
  apiCall (mkRequest params page 100) (world st) = (Rejected error, w) ->
  status error = Some 404%Z ->
  fetchLoop host apiCall params (S fuel) allItems page st
  = (Returned allItems,
     printed (traced st w (mkRequest params page 100) (Failure error))
             Warn (notFoundMessage params)).
Proof.
  intros Hcall H404. rewrite fetchLoop_step, Hcall.
  rewrite bool_decide_eq_true_2 by exact H404. reflexivity.
Qed.

(** A rate-limit error ends the process: the reset time is printed and
    [process.exit(1)] is called, with no further call. *)
Lemma fetchLoop_rate_limited fuel allItems page st error w :
  apiCall (mkRequest params page 100) (world st) = (Rejected error, w) ->
  rateLimitExceeded error = true ->
  fetchLoop host apiCall params (S fuel) allItems page st
  = (Exited 1,
     printed (traced st w (mkRequest params page 100) (Failure error))
             Error (rateLimitMessage host error)).
Proof.
  intros Hcall Hrate. rewrite fetchLoop_step, Hcall, Hrate.
  unfold rateLimitExceeded in Hrate. apply andb_true_iff in Hrate as [H403 _].
  apply bool_decide_eq_true_1 in H403.
  rewrite bool_decide_eq_false_2 by (rewrite H403; discriminate). reflexivity.
Qed.

End FetchProperties.

(** The single-label script has no branch for a rate-limit error: every
    rejected call, whatever its status, ends the fetch with an error line,
    and the accumulated items are returned. *)
Lemma Legacy_fetchLoop_rejected {W A} (apiCall : Request -> W -> Reply A * W)
    params fuel allItems page st error w :
  apiCall (mkRequest params page 100) (world st) = (Rejected error, w) ->
  Legacy.fetchLoop apiCall params (S fuel) allItems page st
  = (Returned allItems,
     printed (traced st w (mkRequest params page 100) (Failure error))
             Error (fetchErrorMessage page error)).
Proof.
  intros Hcall. cbn [Legacy.fetchLoop]. unfold bind at 1. unfold await.
  rewrite Hcall. reflexivity.
Qed.

(** *** A listing of 240 items *)

Module Listing.

(** Pages 1 and 2 hold 100 items each, page 3 holds 40, later pages none. *)
Definition pageOf (page : nat) : list nat :=
  if (page <=? 2)%nat then seq (100 * (page - 1) + 1) 100
  else if (page =? 3)%nat then seq 201 40
  else [].

(** The listing served by page number; the world does not change. *)
Definition byPage (request : Request) (w : unit) : Reply nat * unit :=
  (Resolved (Some (pageOf (page request))), w).

(** The listing served as a sequence of answers, whatever page is asked
    for; the world counts the calls. *)
Definition inTurn (request : Request) (w : nat) : Reply nat * nat :=
  (Resolved (Some (pageOf (S w))), S w).

(** A host whose three listings are empty. *)
Definition idle (W : Type) : Host W :=
  mkHost W (fun _ w => (Resolved (Some []), w)) (fun _ w => (Resolved (Some []), w))
         (fun _ w => (Resolved (Some []), w)) (fun _ => "2025-07-24T00:00:00.000Z")
         (fun h => match h with Some t => t | None => "Invalid Date" end).

Definition noParams : Params.t := Params.mk None None None None None None.

End Listing.

Section Paging.

Local Open Scope list_scope.
Import Listing.

(** C1, the failing input. On the listing of 240 items served by page
    number, fetchAllPages never returns: whatever the bound, all its calls
    ask for page 1, each receives the full first page, and the loop is
    still running when the bound is reached. *)
Theorem fetchAllPages_never_leaves_page_1 (fuel : nat) :
  fst (fetchAllPages (idle unit) byPage noParams fuel (start tt)) = Pending
  /\ calls (snd (fetchAllPages (idle unit) byPage noParams fuel (start tt)))
     = repeat (mkRequest noParams 1 100, Items 100) fuel.
Proof.
  unfold fetchAllPages.
  change (repeat (mkRequest noParams 1 100, Items 100) fuel)
    with (calls (start tt) ++ repeat (mkRequest noParams 1 100, Items 100) fuel).
  generalize (start tt). generalize (@nil nat).
  induction fuel as [|fuel IH]; intros allItems st.
  - split; [reflexivity|]. simpl. now rewrite app_nil_r.
  - rewrite fetchLoop_step.
    change (byPage (mkRequest noParams 1 100) (world st))
      with (@Resolved nat (Some (1 :: seq 2 99)), world st).
    cbv beta iota zeta.
    change (length (1 :: seq 2 99) <? 100)%nat with false. cbv iota.
    change (answerOf (Resolved (Some (1 :: seq 2 99)))) with (Items 100).
    destruct (IH (allItems ++ 1 :: seq 2 99)
                (traced st (world st) (mkRequest noParams 1 100) (Items 100))) as [Ho Hc].
    split; [exact Ho|]. rewrite Hc. simpl. now rewrite <- app_assoc.
Qed.

(** On the same listing the single-label script asks for pages 1, 2, 3 and
    4 and returns the 240 items: it increments the page, and stops only at
    an empty page. *)
Example Legacy_fetchAllPages_by_page :
  Legacy.fetchAllPages byPage noParams 5 (start tt)
  = (Returned (seq 1 240),
     mkState tt [] [(mkRequest noParams 1 100, Items 100);
                    (mkRequest noParams 2 100, Items 100);
                    (mkRequest noParams 3 100, Items 40);
                    (mkRequest noParams 4 100, Items 0)] WCAG_PATTERNS [] ∅ []).
Proof. vm_compute. reflexivity. Qed.

(** When the answers come in turn whatever the page asked for, the loop of
    fetchAllPages ends after three calls with the 240 items, at the short
    page; all three calls ask for page 1. *)
Example fetchAllPages_in_turn :
  fetchAllPages (idle nat) inTurn noParams 5 (start 0)
  = (Returned (seq 1 240),
     mkState 3 [] [(mkRequest noParams 1 100, Items 100);
                   (mkRequest noParams 1 100, Items 100);
                   (mkRequest noParams 1 100, Items 40)] WCAG_PATTERNS [] ∅ []).
Proof. vm_compute. reflexivity. Qed.

End Paging.

(** ** Invariants of the monad *)

Section Respects.

Context {W : Type}.

(** [I] holds of the state as long as the process runs, [E code] once it
    has exited. *)
Variable I : State W -> Prop.
Variable E : Z -> State W -> Prop.

Definition post {A} (r : Outcome A * State W) : Prop :=
  match r with
  | (Exited code, st) => E code st
  | (_, st) => I st
  end.

Definition respects {A} (m : M W A) : Prop :=
  forall st, I st -> post (m st).

Lemma respects_ret {A} (a : A) : respects (ret a).
Proof. intros st H. exact H. Qed.

Lemma respects_pending {A} : respects (@pending W A).
Proof. intros st H. exact H. Qed.

Lemma respects_bind {A B} (m : M W A) (f : A -> M W B) :
  respects m -> (forall a, respects (f a)) -> respects (bind m f).
Proof.
  intros Hm Hf st H. unfold bind. specialize (Hm st H).
  destruct (m st) as [[a|code|] st']; simpl in Hm; auto.
  now apply Hf.
Qed.

(** A step that returns and keeps [I]. *)
Lemma respects_step {A} (m : M W A) :
  (forall st, I st -> exists a st', m st = (Returned a, st') /\ I st') -> respects m.
Proof. intros Hm st H. destruct (Hm st H) as (a & st' & -> & H'). exact H'. Qed.

End Respects.

(** The functions of the scan respect what its steps respect. *)
Section ScanRespects.

Context {W : Type}.
Variable host : Host W.
Variable fuel : nat.
Variable primaryLabel : string.
Variable additionalLabels : list string.
Variable I : State W -> Prop.
Variable E : Z -> State W -> Prop.

Hypothesis print_ok : forall to line, respects I E (@print W to line).
Hypothesis fetch_ok : forall A (apiCall : Request -> W -> Reply A * W) params,
  respects I E (fetchAllPages host apiCall params fuel).
Hypothesis findWcagSc_ok : forall text, respects I E (@findWcagSc W fuel text).

Lemma now_ok : respects I E (now host).
Proof. intros st H. exact H. Qed.

Lemma rows_ok : respects I E (@rows W).
Proof. intros st H. exact H. Qed.

Lemma isProcessed_ok id : respects I E (@isProcessed W id).
Proof. intros st H. exact H. Qed.

Lemma scanComments_ok comments : forall found,
  respects I E (scanComments fuel comments found).
Proof.
  induction comments as [|c comments IH]; intros found; simpl.
  - apply respects_ret.
  - apply respects_bind; auto.
Qed.

Lemma readComments_ok repo issue : respects I E (readComments host fuel repo issue).
Proof.
  unfold readComments. destruct (0 <? Issue.comments issue)%Z; [|apply respects_ret].
  apply respects_bind; [apply fetch_ok|]. intros comments.
  destruct (last comments); [|apply respects_ret].
  apply respects_bind; [apply scanComments_ok|]. intros found. apply respects_ret.
Qed.

Hypothesis processIssue_ok : forall repo issue,
  respects I E (processIssue host fuel primaryLabel additionalLabels repo issue).

Lemma forEachIssue_ok repo issues :
  respects I E (forEachIssue host fuel primaryLabel additionalLabels repo issues).
Proof.
  induction issues as [|issue issues IH]; simpl; [apply respects_ret|].
  apply respects_bind; auto.
Qed.

Lemma processRepo_ok repo :
  respects I E (processRepo host fuel primaryLabel additionalLabels repo).
Proof.
  unfold processRepo. apply respects_bind; [apply print_ok|]. intros _.
  apply respects_bind; [apply fetch_ok|]. intros issues.
  apply respects_bind; [apply print_ok|]. intros _. apply forEachIssue_ok.
Qed.

Lemma forEachRepo_ok repositories :
  respects I E (forEachRepo host fuel primaryLabel additionalLabels repositories).
Proof.
  induction repositories as [|repo repositories IH]; simpl; [apply respects_ret|].
  apply respects_bind; [apply processRepo_ok|auto].
Qed.

Lemma gatherAccessibilityIssues_ok orgName :
  respects I E (gatherAccessibilityIssues host fuel primaryLabel additionalLabels orgName).
Proof.
  unfold gatherAccessibilityIssues.
  apply respects_bind; [apply print_ok|]. intros _.
  apply respects_bind; [apply print_ok|]. intros _.
  apply respects_bind; [destruct additionalLabels; [apply respects_ret|apply print_ok]|].
  intros _.
  apply respects_bind; [apply print_ok|]. intros _.
  apply respects_bind; [apply fetch_ok|]. intros [|repo repositories].
  - apply respects_bind; [apply print_ok|]. intros _. apply respects_ret.
  - apply respects_bind; [apply print_ok|]. intros _.
    apply respects_bind; [apply forEachRepo_ok|]. intros _.
    apply respects_bind; [apply rows_ok|]. intros data.
    apply respects_bind; [apply print_ok|]. intros _.
    apply respects_bind; [apply now_ok|]. intros today. apply respects_ret.
Qed.

End ScanRespects.

(** ** Rate-limit exhaustion *)

Section RateLimit.

Local Open Scope list_scope.

Context {W : Type}.
Variable host : Host W.

(** No call so far was answered with a rate-limit error. *)
Definition unlimited (made : list (Request * Answer)) : Prop :=
  forall request error, (request, Failure error) ∈ made -> rateLimitExceeded error = false.

(** The process has exited with status 1, straight after the first call
    answered with a rate-limit error, and the last line on the console
    reports its reset time. *)
Definition haltedAtLimit (code : Z) (st : State W) : Prop :=
  code = 1%Z /\
  exists made request error,
    calls st = made ++ [(request, Failure error)]
    /\ unlimited made
    /\ rateLimitExceeded error = true
    /\ last (console st) = Some (Error, rateLimitMessage host error).

Definition running (st : State W) : Prop := unlimited (calls st).

Lemma unlimited_snoc made request answer :
  unlimited made ->
  (forall error, answer = Failure error -> rateLimitExceeded error = false) ->
  unlimited (made ++ [(request, answer)]).
Proof.
  intros Hm Ha req err Hin. apply elem_of_app in Hin as [Hin|Hin]; [eauto|].
  apply list_elem_of_singleton in Hin. injection Hin as -> <-. now apply Ha.
Qed.

Lemma fetchLoop_limit {A} (apiCall : Request -> W -> Reply A * W) params :
  forall fuel allItems page,
    respects running haltedAtLimit (fetchLoop host apiCall params fuel allItems page).
Proof.
  induction fuel as [|fuel IH]; intros allItems pg st Hst; [exact Hst|].
  rewrite fetchLoop_step.
  destruct (apiCall (mkRequest params pg 100) (world st)) as [reply w].
  destruct reply as [[[|x d]|]|error].
  - apply unlimited_snoc; [exact Hst|discriminate].
  - destruct (length (x :: d) <? 100)%nat.
    + apply unlimited_snoc; [exact Hst|discriminate].
    + apply IH. apply unlimited_snoc; [exact Hst|discriminate].
  - apply unlimited_snoc; [exact Hst|discriminate].
  - destruct (bool_decide (status error = Some 404%Z)) eqn:H404.
    + apply unlimited_snoc; [exact Hst|]. intros e [= <-].
      apply bool_decide_eq_true_1 in H404. unfold rateLimitExceeded.
      rewrite bool_decide_eq_false_2 by (rewrite H404; discriminate). reflexivity.
    + destruct (rateLimitExceeded error) eqn:Hrate.
      * split; [reflexivity|]. exists (calls st), (mkRequest params pg 100), error.
        repeat split; auto. simpl. apply last_snoc.
      * apply unlimited_snoc; [exact Hst|]. now intros e [= <-].
Qed.

Variable fuel : nat.
Variable primaryLabel : string.
Variable additionalLabels : list string.

Lemma processIssue_limit repo issue :
  respects running haltedAtLimit
    (processIssue host fuel primaryLabel additionalLabels repo issue).
Proof.
  assert (Hfind : forall text, respects running haltedAtLimit (@findWcagSc W fuel text)).
  { intros text st Hst. unfold findWcagSc.
    destruct (findWcagScInText fuel (patterns st) text) as [[found p]|]; exact Hst. }
  unfold processIssue. destruct (Issue.pull_request issue); [apply respects_ret|].
  apply respects_bind; [apply isProcessed_ok|]. intros [|]; [apply respects_ret|].
  apply respects_bind; [intros st Hst; exact Hst|]. intros _.
  destruct (negb _ && negb _); [apply respects_ret|].
  apply respects_bind.
  { apply readComments_ok; [intros; apply fetchLoop_limit|exact Hfind]. }
  intros read.
  apply respects_bind; [apply Hfind|]. intros fromBody.
  apply respects_bind; [apply Hfind|]. intros fromTitle.
  apply respects_bind; [apply now_ok|]. intros extractedAt.
  intros st Hst. exact Hst.
Qed.

(** C3. In the label-option script a call answered with a rate-limit
    error (status 403 with x-ratelimit-remaining 0) is fatal for the run:
    the process has exited with status 1, that call is the last one made
    (no retry, no further fetch), and the last line on the console is, on
    the error stream, "Rate limit exceeded! Please wait until", the reset
    time read from the header x-ratelimit-reset, and "before trying
    again.".  The single-label script has no branch for this error: there
    the same answer ends only the fetch it occurs in, which prints "Error
    fetching page", the page number and the message of the error, makes no
    further call and returns the items accumulated so far. *)
Theorem rate_limit_exhaustion_is_fatal (error : ApiError) :
  rateLimitExceeded error = true ->
  (forall orgName w request,
     let run := gatherAccessibilityIssues host fuel primaryLabel additionalLabels orgName
                  (start w) in
     (request, Failure error) ∈ calls (snd run) ->
     fst run = Exited 1
     /\ last (calls (snd run)) = Some (request, Failure error)
     /\ last (console (snd run))
        = Some (Error,
                "Rate limit exceeded! Please wait until "
                +:+ resetTime host (match headers error with
                                    | Some h => h !! "x-ratelimit-reset"
                                    | None => None
                                    end)
                +:+ " before trying again."))
  /\ (forall A (apiCall : Request -> W -> Reply A * W) params n allItems page st w,
        apiCall (mkRequest params page 100) (world st) = (Rejected error, w) ->
        Legacy.fetchLoop apiCall params (S n) allItems page st
        = (Returned allItems,
           mkState w
             (console st ++ [(Error, "Error fetching page " +:+ Js.ofNat page +:+ ": "
                                     +:+ message error)])
             (calls st ++ [(mkRequest params page 100, Failure error)])
             (patterns st) (issuesData st) (processedIssueIds st) (sources st))).
Proof.
  intros Hrate. split.
  - intros orgName w request run Hin.
    assert (Hpost : post running haltedAtLimit run).
    { apply gatherAccessibilityIssues_ok.
      - intros to line st Hst. exact Hst.
      - intros A apiCall params. apply fetchLoop_limit.
      - apply processIssue_limit.
      - intros request' error' Hnone. now apply elem_of_nil in Hnone. }
    destruct run as [[res|code|] st]; simpl in *.
    + apply Hpost in Hin. congruence.
    + destruct Hpost as (-> & made & req & err & Hcalls & Hmade & Herr & Hline).
      rewrite Hcalls in Hin |- *. apply elem_of_app in Hin as [Hin|Hin].
      * apply Hmade in Hin. congruence.
      * apply list_elem_of_singleton in Hin. injection Hin as -> ->.
        rewrite last_snoc, Hline. auto.
    + apply Hpost in Hin. congruence.
  - intros A apiCall params n allItems page st w Hcall.
    now rewrite (Legacy_fetchLoop_rejected apiCall params n allItems page st error w Hcall).
Qed.

End RateLimit.

(** ** The export: pull requests and duplicates *)

Section Exported.

Local Open Scope list_scope.

Context {W : Type}.
Variable host : Host W.
Variable fuel : nat.
Variable primaryLabel : string.
Variable additionalLabels : list string.

(** [row] is the export record built from [issue]. *)
Definition rowOf (issue : Issue.t) (row : ExportRecord.t) : Prop :=
  exists repo wcagScFound lastCommenter extractedAt,
    row = exportRecord repo issue wcagScFound lastCommenter extractedAt.

(** The states of a scan: the start, and the states its steps lead to,
    whether a step returns, exits, or is cut at any number of calls. *)
Inductive reachable : State W -> Prop :=
| reachable_start w : reachable (start w)
| reachable_print st to line :
    reachable st -> reachable (printed st to line)
| reachable_fetch {A} st (apiCall : Request -> W -> Reply A * W) params n allItems page :
    reachable st -> reachable (snd (fetchLoop host apiCall params n allItems page st))
| reachable_find st text :
    reachable st -> reachable (snd (findWcagSc fuel text st))
| reachable_issue st repo issue :
    reachable st ->
    reachable (snd (processIssue host fuel primaryLabel additionalLabels repo issue st)).

(** The state of a run of gatherAccessibilityIssues is reachable. *)
Lemma gatherAccessibilityIssues_reachable orgName w :
  reachable (snd (gatherAccessibilityIssues host fuel primaryLabel additionalLabels
                    orgName (start w))).
Proof.
  assert (Hsnd : forall A (m : M W A) st,
            post reachable (fun _ => reachable) (m st) -> reachable (snd (m st))).
  { intros A m st. destruct (m st) as [[a|code|] st']; auto. }
  apply Hsnd. apply gatherAccessibilityIssues_ok.
  - intros to line st Hst. now apply reachable_print.
  - intros A apiCall params st Hst.
    pose proof (reachable_fetch st apiCall params fuel [] 1 Hst) as H.
    unfold fetchAllPages. destruct (fetchLoop _ _ _ _ _ _ _) as [[a|code|] st']; exact H.
  - intros repo issue st Hst.
    pose proof (reachable_issue st repo issue Hst) as H.
    destruct (processIssue _ _ _ _ _ _ _) as [[a|code|] st']; exact H.
  - apply reachable_start.
Qed.

(** The part of the state the export is made of. *)
Definition sameExport (st st' : State W) : Prop :=
  issuesData st' = issuesData st /\ sources st' = sources st
  /\ processedIssueIds st' = processedIssueIds st.

Definition keeps {A} (m : M W A) : Prop := forall st, sameExport st (snd (m st)).

Lemma sameExport_refl st : sameExport st st.
Proof. repeat split. Qed.

Lemma sameExport_trans st1 st2 st3 :
  sameExport st1 st2 -> sameExport st2 st3 -> sameExport st1 st3.
Proof. intros (a & b & c) (d & e & f). repeat split; congruence. Qed.

Lemma keeps_respects {A} (m : M W A) :
  (forall st0, respects (sameExport st0) (fun _ => sameExport st0) m) -> keeps m.
Proof.
  intros H st. specialize (H st st (sameExport_refl st)).
  destruct (m st) as [[a|code|] st']; exact H.
Qed.

Lemma respects_keeps {A} (m : M W A) st0 :
  keeps m -> respects (sameExport st0) (fun _ => sameExport st0) m.
Proof.
  intros H st Hst. specialize (H st).
  destruct (m st) as [[a|code|] st']; simpl in *; eapply sameExport_trans; eauto.
Qed.

Lemma fetchLoop_keeps {A} (apiCall : Request -> W -> Reply A * W) params :
  forall n allItems page, keeps (fetchLoop host apiCall params n allItems page).
Proof.
  induction n as [|n IH]; intros allItems pg st; [apply sameExport_refl|].
  rewrite fetchLoop_step.
  destruct (apiCall (mkRequest params pg 100) (world st)) as [reply w].
  destruct reply as [[[|x d]|]|error]; try (now repeat split).
  - destruct (length (x :: d) <? 100)%nat; [now repeat split|].
    eapply sameExport_trans; [|apply IH]. now repeat split.
  - destruct (bool_decide (status error = Some 404%Z)); [now repeat split|].
    destruct (rateLimitExceeded error); now repeat split.
Qed.

Lemma findWcagSc_keeps text : keeps (@findWcagSc W fuel text).
Proof.
  intros st. unfold findWcagSc.
  destruct (findWcagScInText fuel (patterns st) text) as [[found p]|]; now repeat split.
Qed.

Lemma readComments_keeps repo issue : keeps (readComments host fuel repo issue).
Proof.
  apply keeps_respects. intros st0. apply readComments_ok.
  - intros A apiCall params. apply respects_keeps, fetchLoop_keeps.
  - intros text. apply respects_keeps, findWcagSc_keeps.
Qed.

(** The invariant of the export. *)
Definition exportInv (st : State W) : Prop :=
  NoDup (map Issue.id (sources st))
  /\ (forall issue, issue ∈ sources st -> Issue.id issue ∈ processedIssueIds st)
  /\ Forall (fun issue => Issue.pull_request issue = false) (sources st)
  /\ Forall2 rowOf (sources st) (issuesData st).

Lemma exportInv_same st st' : sameExport st st' -> exportInv st -> exportInv st'.
Proof. intros (a & b & c). unfold exportInv. now rewrite a, b, c. Qed.

Lemma exportInv_push st issue row :
  exportInv st -> Issue.id issue ∈ processedIssueIds st ->
  Issue.id issue ∉ map Issue.id (sources st) ->
  Issue.pull_request issue = false -> rowOf issue row ->
  exportInv (snd (push issue row st)).
Proof.
  intros (Hnd & Hin & Hpr & Hrows) Hid Hnew Hnot Hrow. unfold exportInv, push. simpl.
  repeat split.
  - rewrite map_app. simpl. apply NoDup_app. split; [exact Hnd|]. split.
    + intros x Hx Hx'. apply list_elem_of_singleton in Hx' as ->. exact (Hnew Hx).
    + apply NoDup_singleton.
  - intros i Hi. apply elem_of_app in Hi as [Hi|Hi]; [now apply Hin|].
    apply list_elem_of_singleton in Hi as ->. exact Hid.
  - apply Forall_app. split; [exact Hpr|]. now constructor.
  - apply Forall2_app; [exact Hrows|]. now constructor.
Qed.

Lemma processIssue_export repo issue st :
  exportInv st ->
  exportInv (snd (processIssue host fuel primaryLabel additionalLabels repo issue st)).
Proof.
  intros Hst. unfold processIssue.
  destruct (Issue.pull_request issue) eqn:Hpr; [exact Hst|].
  unfold bind at 1. unfold isProcessed at 1.
  case_bool_decide as Hseen; [exact Hst|].
  unfold bind at 1. unfold addProcessed at 1.
  set (st1 := mkState _ _ _ _ _ _ _).
  assert (Hst1 : exportInv st1).
  { destruct Hst as (Hnd & Hin & Hprs & Hrows). unfold exportInv, st1. simpl.
    repeat split; auto. intros i Hi. apply elem_of_union. right. now apply Hin. }
  assert (Hid : Issue.id issue ∈ processedIssueIds st1).
  { unfold st1. simpl. apply elem_of_union. left. now apply elem_of_singleton. }
  assert (Hnew : Issue.id issue ∉ map Issue.id (sources st1)).
  { intros Hx. apply list_elem_of_fmap in Hx as (i & Hi & Hx).
    destruct Hst as (_ & Hin & _). apply Hseen. rewrite Hi. now apply Hin. }
  clearbody st1. clear Hst Hseen st.
  destruct (negb _ && negb _); [exact Hst1|].
  assert (Hkeep : forall st', sameExport st1 st' ->
            exportInv st' /\ Issue.id issue ∈ processedIssueIds st'
            /\ Issue.id issue ∉ map Issue.id (sources st')).
  { intros st' (a & b & c). split; [now apply (exportInv_same st1)|]. now rewrite b, c. }
  unfold bind at 1.
  pose proof (readComments_keeps repo issue st1) as K1.
  destruct (readComments host fuel repo issue st1) as [[read|code|] st2];
    simpl in K1; try (now apply Hkeep).
  unfold bind at 1.
  pose proof (findWcagSc_keeps (Issue.body issue) st2) as K2.
  destruct (findWcagSc fuel (Issue.body issue) st2) as [[fromBody|code|] st3];
    simpl in K2; try (apply Hkeep; eapply sameExport_trans; eassumption).
  unfold bind at 1.
  pose proof (findWcagSc_keeps (Some (Issue.title issue)) st3) as K3.
  destruct (findWcagSc fuel (Some (Issue.title issue)) st3) as [[fromTitle|code|] st4];
    simpl in K3;
    try (apply Hkeep; eapply sameExport_trans; [eapply sameExport_trans|]; eassumption).
  unfold bind at 1. unfold now at 1.
  destruct (Hkeep st4) as (H4 & Hid4 & Hnew4).
  { eapply sameExport_trans; [eapply sameExport_trans|]; eassumption. }
  apply exportInv_push; auto. now eexists _, _, _, _.
Qed.

Lemma reachable_exportInv st : reachable st -> exportInv st.
Proof.
  induction 1 as [w|st to line _ IH|A st apiCall params n allItems pg _ IH
                  |st text _ IH|st repo issue _ IH].
  - unfold exportInv, start. simpl. repeat split; try constructor.
    intros i Hi. now apply elem_of_nil in Hi.
  - exact IH.
  - eapply exportInv_same; [apply fetchLoop_keeps|exact IH].
  - eapply exportInv_same; [apply findWcagSc_keeps|exact IH].
  - now apply processIssue_export.
Qed.

(** The loop over the issues of a repository does what it does on the
    issues without the pull-request marker. *)
Lemma forEachIssue_without_pull_requests repo issues : forall st,
  forEachIssue host fuel primaryLabel additionalLabels repo issues st
  = forEachIssue host fuel primaryLabel additionalLabels repo
      (List.filter (fun issue => negb (Issue.pull_request issue)) issues) st.
Proof.
  induction issues as [|issue issues IH]; intros st; [reflexivity|].
  cbn [forEachIssue List.filter].
  destruct (Issue.pull_request issue) eqn:Hmark; cbn [negb forEachIssue].
  - unfold bind at 1. unfold processIssue. rewrite Hmark. apply IH.
  - unfold bind.
    destruct (processIssue host fuel primaryLabel additionalLabels repo issue st)
      as [[[]|code|] st1]; [apply IH|reflexivity|reflexivity].
Qed.

(** C6. In every reachable state of the scan, each export record was built
    from an issue without the pull-request marker.  The loop body leaves an
    issue with the marker at once, before it looks at the processed
    identifiers, the labels, the title or the body, with the state
    unchanged; so the loop over the issues of a repository does the same
    with and without the issues that carry the marker. *)
Theorem pull_requests_never_exported (st : State W) :
  reachable st ->
  Forall2 rowOf (sources st) (issuesData st)
  /\ Forall (fun issue => Issue.pull_request issue = false) (sources st)
  /\ (forall repo issue (st' : State W),
        Issue.pull_request issue = true ->
        processIssue host fuel primaryLabel additionalLabels repo issue st'
        = (Returned tt, st'))
  /\ (forall repo issues (st' : State W),
        forEachIssue host fuel primaryLabel additionalLabels repo issues st'
        = forEachIssue host fuel primaryLabel additionalLabels repo
            (List.filter (fun issue => negb (Issue.pull_request issue)) issues) st').
Proof.
  intros H. apply reachable_exportInv in H as (_ & _ & Hpr & Hrows).
  repeat split; auto.
  - intros repo issue st' Hmark. unfold processIssue. now rewrite Hmark.
  - intros repo issues st'. apply forEachIssue_without_pull_requests.
Qed.

(** C7. In every reachable state of the scan, the issues the export
    records were built from have pairwise different identifiers; and the
    loop body leaves an issue whose identifier was processed before with
    the state unchanged, so no second record is made for it. *)
Theorem export_identifiers_unique (st : State W) :
  reachable st ->
  Forall2 rowOf (sources st) (issuesData st)
  /\ NoDup (map Issue.id (sources st))
  /\ (forall repo issue (st' : State W),
        Issue.id issue ∈ processedIssueIds st' ->
        processIssue host fuel primaryLabel additionalLabels repo issue st'
        = (Returned tt, st')).
Proof.
  intros H. apply reachable_exportInv in H as (Hnd & _ & _ & Hrows).
  repeat split; auto.
  intros repo issue st' Hseen. unfold processIssue.
  destruct (Issue.pull_request issue); [reflexivity|].
  unfold bind, isProcessed. now rewrite bool_decide_eq_true_2.
Qed.

End Exported.

(** ** The classifier *)

Section Classifier.

(** Equal up to the case of letters. *)
Definition sameIgnoringCase (a b : string) : Prop :=
  Js.toLowerCase a = Js.toLowerCase b.

(** [text] has a substring equal to [word] up to the case of letters. *)
Definition containsIgnoringCase (text word : string) : Prop :=
  exists pre mid post, text = pre +:+ mid +:+ post /\ sameIgnoringCase mid word.

(** The inclusion rule in the words of the specification. *)
Definition qualifies (primaryLabel : string) (additionalLabels : list string)
    (issue : Issue.t) : Prop :=
  (exists label wanted,
     label ∈ Issue.labels issue /\ wanted ∈ primaryLabel :: additionalLabels
     /\ sameIgnoringCase (Label.name label) wanted)
  \/ containsIgnoringCase (Issue.title issue) "accessibility"
  \/ (exists body, Issue.body issue = Some body
                   /\ containsIgnoringCase body "accessibility").

(** The test of the loop body: the issue is not skipped. *)
Definition included (primaryLabel : string) (additionalLabels : list string)
    (issue : Issue.t) : bool :=
  negb (negb (hasRelevantLabel primaryLabel additionalLabels issue)
        && negb (isKeywordFoundInText issue)).

Lemma append_cons c a b : String c a +:+ b = String c (a +:+ b).
Proof. reflexivity. Qed.

Lemma prefix_app needle : forall s,
  String.prefix needle s = true <-> exists post, s = needle +:+ post.
Proof.
  induction needle as [|c needle IH]; intros s.
  - split; [intros _; now exists s|intros _; destruct s; reflexivity].
  - destruct s as [|d s]; simpl.
    + split; [discriminate|intros [post H]; discriminate].
    + destruct (Ascii.ascii_dec c d) as [->|Hne].
      * rewrite IH. split; intros [post H]; exists post;
          rewrite append_cons in *; congruence.
      * split; [discriminate|]. intros [post H]. rewrite append_cons in H. congruence.
Qed.

Lemma includes_app needle : forall s,
  Js.includes s needle = true <-> exists pre post, s = pre +:+ needle +:+ post.
Proof.
  induction s as [|c s IH]; cbn [Js.includes].
  - rewrite orb_false_r, prefix_app. split.
    + intros [post H]. now exists "", post.
    + intros (pre & post & H). destruct pre; [now exists post|discriminate].
  - rewrite orb_true_iff, prefix_app, IH. split.
    + intros [[post H]|(pre & post & H)].
      * now exists "", post.
      * exists (String c pre), post. now rewrite append_cons, H.
    + intros (pre & post & H). destruct pre as [|d pre].
      * left. now exists post.
      * right. exists pre, post. rewrite append_cons in H. congruence.
Qed.

Lemma toLowerCase_app a b :
  Js.toLowerCase (a +:+ b) = Js.toLowerCase a +:+ Js.toLowerCase b.
Proof.
  induction a as [|c a IH]; [reflexivity|].
  rewrite append_cons. cbn [Js.toLowerCase]. now rewrite append_cons, IH.
Qed.

Lemma toLowerCase_split a : forall t b,
  Js.toLowerCase t = a +:+ b ->
  exists ta tb, t = ta +:+ tb /\ Js.toLowerCase ta = a /\ Js.toLowerCase tb = b.
Proof.
  induction a as [|c a IH]; intros t b H.
  - now exists "", t.
  - destruct t as [|d t]; [discriminate|].
    rewrite append_cons in H. cbn [Js.toLowerCase] in H. injection H as Hc H.
    apply IH in H as (ta & tb & -> & Ha & Hb).
    exists (String d ta), tb. cbn [Js.toLowerCase]. now rewrite Hc, Ha.
Qed.

Lemma includes_ignoring_case text word :
  Js.toLowerCase word = word ->
  Js.includes (Js.toLowerCase text) word = true <-> containsIgnoringCase text word.
Proof.
  intros Hw. rewrite includes_app. unfold containsIgnoringCase, sameIgnoringCase.
  rewrite Hw. split.
  - intros (pre & post & H).
    apply toLowerCase_split in H as (tpre & trest & -> & _ & H).
    apply toLowerCase_split in H as (tmid & tpost & -> & Hmid & _).
    now exists tpre, tmid, tpost.
  - intros (pre & mid & post & -> & Hmid).
    exists (Js.toLowerCase pre), (Js.toLowerCase post).
    now rewrite !toLowerCase_app, Hmid.
Qed.

Lemma hasRelevantLabel_spec primaryLabel additionalLabels issue :
  hasRelevantLabel primaryLabel additionalLabels issue = true <->
  exists label wanted,
    label ∈ Issue.labels issue /\ wanted ∈ primaryLabel :: additionalLabels
    /\ sameIgnoringCase (Label.name label) wanted.
Proof.
  unfold hasRelevantLabel, sameIgnoringCase.
  rewrite orb_true_iff, bool_decide_eq_true, existsb_exists. split.
  - intros [H|(wanted & Hin & H)].
    + apply list_elem_of_fmap in H as (label & Heq & Hl).
      exists label, primaryLabel. split; [exact Hl|]. split; [apply list_elem_of_here|].
      now symmetry.
    + apply bool_decide_eq_true in H. apply list_elem_of_fmap in H as (label & Heq & Hl).
      exists label, wanted. split; [exact Hl|]. split; [|now symmetry].
      apply list_elem_of_further. now apply list_elem_of_In.
  - intros (label & wanted & Hl & Hw & Heq).
    assert (Hmem : Js.toLowerCase wanted ∈
              map (fun label => Js.toLowerCase (Label.name label)) (Issue.labels issue)).
    { apply list_elem_of_fmap. exists label. split; [now symmetry|exact Hl]. }
    apply elem_of_cons in Hw as [->|Hw]; [now left|].
    right. exists wanted. split; [now apply list_elem_of_In|].
    now apply bool_decide_eq_true.
Qed.

Lemma included_spec primaryLabel additionalLabels issue :
  included primaryLabel additionalLabels issue = true
  <-> qualifies primaryLabel additionalLabels issue.
Proof.
  unfold included, qualifies, isKeywordFoundInText.
  rewrite negb_true_iff, andb_false_iff, !negb_false_iff, orb_true_iff.
  rewrite hasRelevantLabel_spec, includes_ignoring_case by reflexivity.
  destruct (Issue.body issue) as [body|].
  - rewrite includes_ignoring_case by reflexivity. split.
    + intros [H|[H|H]]; auto. right. right. now exists body.
    + intros [H|[H|(b & [= <-] & H)]]; auto.
  - split.
    + intros [H|[H|H]]; auto. discriminate.
    + intros [H|[H|(b & [=] & H)]]; auto.
Qed.

(** A label equal to the primary label up to case includes the issue. *)
Lemma included_by_label primaryLabel additionalLabels issue label :
  label ∈ Issue.labels issue ->
  sameIgnoringCase (Label.name label) primaryLabel ->
  included primaryLabel additionalLabels issue = true.
Proof.
  intros Hl Hs. apply included_spec. left. exists label, primaryLabel.
  split; [exact Hl|]. split; [apply list_elem_of_here|exact Hs].
Qed.

(** C4. The loop body keeps an issue exactly when the issue qualifies: a
    label of the issue equals the primary label or an additional label up
    to the case of letters, or the title or the body has a substring equal
    to "accessibility" up to the case of letters.  In particular the label
    "Accessibility" qualifies an issue for the primary label
    "accessibility". *)
Theorem included_iff_qualifies (primaryLabel : string) (additionalLabels : list string)
    (issue : Issue.t) :
  (included primaryLabel additionalLabels issue = true
   <-> qualifies primaryLabel additionalLabels issue)
  /\ (Label.mk "Accessibility" ∈ Issue.labels issue ->
      included "accessibility" additionalLabels issue = true).
Proof.
  split; [apply included_spec|].
  intros Hl. now apply (included_by_label _ _ _ (Label.mk "Accessibility")).
Qed.

End Classifier.

(** ** Not-found errors *)

Section NotFound.

Local Open Scope list_scope.

Context {W : Type}.
Variable host : Host W.
Variable fuel : nat.
Variable primaryLabel : string.
Variable additionalLabels : list string.

(** C8. A not-found error (status 404) ends the fetch it occurs in and
    nothing else: fetchAllPages prints one line on the warning stream,
    "Warning: Repository not found or no access for", the owner and the
    repository of the parameters, and "Skipping.", makes no further call
    and returns the items accumulated so far, none when the error comes on
    the first call.  The scan goes on: when the issues of a repository are
    not found, the loop over the repositories continues with the next
    repository; when the repositories of the organization are not found,
    gatherAccessibilityIssues returns without a file after this one call,
    and the process does not exit. *)
Theorem not_found_ends_only_this_fetch (error : ApiError) :
  status error = Some 404%Z ->
  (forall A (apiCall : Request -> W -> Reply A * W) params allItems page st w,
     apiCall (mkRequest params page 100) (world st) = (Rejected error, w) ->
     fetchLoop host apiCall params (S fuel) allItems page st
     = (Returned allItems,
        mkState w
          (console st
           ++ [(Warn, "Warning: Repository not found or no access for "
                      +:+ undefinedOr (Params.owner params) +:+ "/"
                      +:+ undefinedOr (Params.repo params) +:+ ". Skipping.")])
          (calls st ++ [(mkRequest params page 100, Failure error)])
          (patterns st) (issuesData st) (processedIssueIds st) (sources st)))
  /\ (forall A (apiCall : Request -> W -> Reply A * W) params st w,
        apiCall (mkRequest params 1 100) (world st) = (Rejected error, w) ->
        fst (fetchAllPages host apiCall params (S fuel) st) = Returned [])
  /\ (forall repo rest st w,
        listForRepo host (mkRequest (issuesParams repo) 1 100) (world st)
          = (Rejected error, w) ->
        forEachRepo host (S fuel) primaryLabel additionalLabels (repo :: rest) st
        = forEachRepo host (S fuel) primaryLabel additionalLabels rest
            (mkState w
               (console st
                ++ [(Stdout, "Processing repository: " +:+ Repo.full_name repo +:+ "... ");
                    (Warn, "Warning: Repository not found or no access for "
                           +:+ User.login (Repo.owner repo) +:+ "/" +:+ Repo.name repo
                           +:+ ". Skipping.");
                    (Log, "Found 0 issues.")])
               (calls st ++ [(mkRequest (issuesParams repo) 1 100, Failure error)])
               (patterns st) (issuesData st) (processedIssueIds st) (sources st)))
  /\ (forall orgName w w',
        listForOrg host (mkRequest (orgParams orgName) 1 100) w = (Rejected error, w') ->
        let run := gatherAccessibilityIssues host (S fuel) primaryLabel additionalLabels
                     orgName (start w) in
        fst run = Returned None
        /\ calls (snd run) = [(mkRequest (orgParams orgName) 1 100, Failure error)]
        /\ exists before,
             console (snd run)
             = before
               ++ [(Log, "Fetching repositories...");
                   (Warn, "Warning: Repository not found or no access for "
                          +:+ "undefined/undefined. Skipping.");
                   (Log, "No public repositories found for " +:+ orgName
                         +:+ " or access denied. Exiting.")]).
Proof.
  intros H404.
  assert (Hfetch : forall A (apiCall : Request -> W -> Reply A * W) params allItems page st w,
     apiCall (mkRequest params page 100) (world st) = (Rejected error, w) ->
     fetchLoop host apiCall params (S fuel) allItems page st
     = (Returned allItems,
        printed (traced st w (mkRequest params page 100) (Failure error))
                Warn (notFoundMessage params))).
  { intros. now apply fetchLoop_not_found. }
  split; [|split; [|split]].
  - intros A apiCall params allItems page st w Hcall.
    now rewrite (Hfetch _ _ _ _ _ _ _ Hcall).
  - intros A apiCall params st w Hcall. unfold fetchAllPages.
    now rewrite (Hfetch _ _ _ _ _ _ _ Hcall).
  - intros repo rest st w Hcall.
    cbn [forEachRepo]. unfold bind at 1. unfold processRepo.
    unfold bind at 1. unfold print at 1.
    unfold bind at 1. unfold fetchAllPages.
    rewrite (Hfetch _ _ _ _ _ _ w) by exact Hcall.
    unfold bind at 1. unfold print at 1. cbn [forEachIssue]. unfold ret at 1.
    f_equal. unfold printed, traced, notFoundMessage, issuesParams.
    cbn [world console calls patterns issuesData processedIssueIds sources
         Params.owner Params.repo undefinedOr length].
    f_equal. now rewrite <- !app_assoc.
  - intros orgName w w' Hcall run. pattern run.
    match goal with |- ?F run => set (P := F) end.
    subst run. unfold gatherAccessibilityIssues.
    unfold bind at 1. unfold print at 1.
    unfold bind at 1. unfold print at 1.
    unfold bind at 1.
    assert (Hlabels : exists st1,
      match additionalLabels with
      | [] => ret tt
      | _ :: _ =>
          print Log ("Also including issues with additional labels: " +:+ dquote
                     +:+ Js.join (dquote +:+ ", " +:+ dquote) additionalLabels +:+ dquote)
      end (printed (printed (start w) Log ("Scanning GitHub organization: " +:+ orgName))
             Log ("Looking for issues with primary label: " +:+ dquote +:+ primaryLabel
                  +:+ dquote))
      = (Returned tt, st1) /\ world st1 = w /\ calls st1 = []).
    { destruct additionalLabels; eexists; repeat split; reflexivity. }
    destruct Hlabels as (st1 & -> & Hw & Hc).
    unfold bind at 1. unfold print at 1.
    unfold bind at 1. unfold fetchAllPages.
    rewrite (Hfetch _ _ _ _ _ _ w') by (simpl; rewrite Hw; exact Hcall).
    unfold bind, print, ret, printed, traced, notFoundMessage, orgParams, P.
    cbn [fst snd world console calls Params.owner Params.repo undefinedOr].
    split; [reflexivity|]. split; [now rewrite Hc|].
    exists (console st1). now rewrite <- !app_assoc.
Qed.

End NotFound.

(** ** End to end: one repository with one issue *)

Section EndToEnd.

Local Open Scope list_scope.

Context {W : Type}.
Variable host : Host W.

Lemma fetchAllPages_short {A} (apiCall : Request -> W -> Reply A * W) params n st x d w :
  apiCall (mkRequest params 1 100) (world st) = (Resolved (Some (x :: d)), w) ->
  (length (x :: d) < 100)%nat ->
  fetchAllPages host apiCall params (S n) st
  = (Returned (x :: d), traced st w (mkRequest params 1 100) (Items (length (x :: d)))).
Proof.
  intros Hcall Hlen. unfold fetchAllPages. rewrite fetchLoop_step, Hcall.
  apply Nat.ltb_lt in Hlen. now rewrite Hlen.
Qed.

Lemma findWcagScInText_sc143_fuel fuel :
  (12 < fuel)%nat ->
  findWcagScInText fuel WCAG_PATTERNS (Some "see SC 1.4.3")
  = Some (["SC 1.4.3"; "1.4.3"], WCAG_PATTERNS).
Proof.
  intros Hf. rewrite findWcagScInText_chars by discriminate.
  apply (forEachPattern_fuel _ _ 13); [vm_compute; reflexivity|lia].
Qed.

(** [dedupe] keeps the first two elements of a list when they differ. *)
Lemma dedupe_grows l : forall acc,
  exists more, fold_left (fun acc x => Js.setAdd x acc) l acc = acc ++ more
               /\ (l = [] -> more = []).
Proof.
  induction l as [|x l IH]; intros acc; simpl.
  - exists []. split; [now rewrite app_nil_r|reflexivity].
  - destruct (IH (Js.setAdd x acc)) as (more & -> & _). unfold Js.setAdd.
    case_bool_decide.
    + exists more. split; [reflexivity|discriminate].
    + exists (x :: more). split; [now rewrite <- app_assoc|discriminate].
Qed.

Lemma dedupe_two a b l :
  a <> b ->
  exists more, Js.dedupe (a :: b :: l) = a :: b :: more /\ (l = [] -> more = []).
Proof.
  intros Hab. unfold Js.dedupe. cbn [fold_left].
  assert (Hstart : Js.setAdd b (Js.setAdd a []) = [a; b]).
  { change (Js.setAdd a []) with [a]. unfold Js.setAdd.
    rewrite bool_decide_eq_false_2; [reflexivity|].
    intros H. apply list_elem_of_singleton in H. congruence. }
  rewrite Hstart. destruct (dedupe_grows l [a; b]) as (more & -> & Hm).
  now exists more.
Qed.

Variable additionalLabels : list string.
Variables (repo : Repo.t) (issue : Issue.t).

Hypothesis not_pull_request : Issue.pull_request issue = false.
Hypothesis labelled : Label.mk "accessibility" ∈ Issue.labels issue.
Hypothesis body_sc143 : Issue.body issue = Some "see SC 1.4.3".
Hypothesis no_comments : Issue.comments issue = 0%Z.

(** The row of the issue, [fromTitle] being what the title contributes. *)
Definition rowWith (fromTitle : list string) (extractedAt : string) : ExportRecord.t :=
  exportRecord repo issue (Js.dedupe ((([] ++ ["SC 1.4.3"; "1.4.3"]) ++ fromTitle)))
               None extractedAt.

Lemma processIssue_one n st :
  (12 < S n)%nat -> (String.length (Issue.title issue) < S n)%nat ->
  patterns st = WCAG_PATTERNS ->
  Issue.id issue ∉ processedIssueIds st ->
  exists fromTitle,
    fst <$> findWcagScInText (S n) WCAG_PATTERNS (Some (Issue.title issue)) = Some fromTitle
    /\ processIssue host (S n) DEFAULT_PRIMARY_LABEL additionalLabels repo issue st
       = (Returned tt,
          mkState (world st) (console st) (calls st) WCAG_PATTERNS
                  (issuesData st ++ [rowWith fromTitle (toISOString host (world st))])
                  ({[ Issue.id issue ]} ∪ processedIssueIds st)
                  (sources st ++ [issue])).
Proof.
  intros Hf Hlen Hpat Hnew.
  destruct (findWcagScInText_total (S n) [] (Some (Issue.title issue)) Hlen)
    as (fromTitle & pats & Htitle & Hpats).
  change (relocate [] WCAG_PATTERNS) with WCAG_PATTERNS in *.
  assert (pats = WCAG_PATTERNS) as -> by (destruct Hpats; assumption).
  exists fromTitle. split; [now rewrite Htitle|].
  unfold processIssue. rewrite not_pull_request.
  unfold bind at 1. unfold isProcessed at 1.
  rewrite bool_decide_eq_false_2 by exact Hnew.
  unfold bind at 1. unfold addProcessed at 1.
  assert (Hin : included DEFAULT_PRIMARY_LABEL additionalLabels issue = true).
  { now apply (included_by_label _ _ _ (Label.mk "accessibility")). }
  unfold included in Hin. apply negb_true_iff in Hin. rewrite Hin.
  unfold readComments. rewrite no_comments. cbn [Z.ltb Z.compare].
  unfold bind at 1. unfold ret at 1.
  unfold bind at 1. unfold findWcagSc at 1. cbn [patterns].
  rewrite body_sc143, Hpat, findWcagScInText_sc143_fuel by exact Hf.
  unfold bind at 1. unfold findWcagSc at 1. cbn [patterns].
  rewrite Htitle.
  unfold bind at 1. unfold now at 1.
  reflexivity.
Qed.

Variables (orgName : string) (w w1 w2 : W).

Hypothesis one_repository :
  listForOrg host (mkRequest (orgParams orgName) 1 100) w = (Resolved (Some [repo]), w1).
Hypothesis one_issue :
  listForRepo host (mkRequest (issuesParams repo) 1 100) w1 = (Resolved (Some [issue]), w2).

(** C2, as the code has it. For an organization with one repository that
    holds one issue, not a pull request, labelled "accessibility", with
    body "see SC 1.4.3" and no comments, a scan for the default primary
    label (its loops bounded above 12 and above the length of the title)
    returns and hands exactly one record to the CSV writer.  Its WCAG SC
    field is the list of "SC 1.4.3", "1.4.3" and what findWcagScInText
    finds in the title, joined with "; ": it starts with
    "SC 1.4.3; 1.4.3" and is exactly that when the title has no match.  Its
    Last Commenter field is null. *)
Theorem one_issue_one_record (fuel : nat) :
  (12 < fuel)%nat -> (String.length (Issue.title issue) < fuel)%nat ->
  exists file row st fromTitle rest,
    gatherAccessibilityIssues host fuel DEFAULT_PRIMARY_LABEL additionalLabels orgName
      (start w) = (Returned (Some (file, [row])), st)
    /\ issuesData st = [row]
    /\ fst <$> findWcagScInText fuel WCAG_PATTERNS (Some (Issue.title issue))
       = Some fromTitle
    /\ ExportRecord.WCAG_SC row
       = Some (Js.join "; " (Js.dedupe (["SC 1.4.3"; "1.4.3"] ++ fromTitle)))
    /\ ExportRecord.WCAG_SC row = Some ("SC 1.4.3; 1.4.3" +:+ rest)
    /\ (fromTitle = [] -> rest = "")
    /\ ExportRecord.Last_Commenter row = None.
Proof.
  intros Hf Hlen. destruct fuel as [|n]; [lia|].
  set (st0 := printed (printed (start w) Log ("Scanning GitHub organization: " +:+ orgName))
                Log ("Looking for issues with primary label: " +:+ dquote
                     +:+ DEFAULT_PRIMARY_LABEL +:+ dquote)).
  assert (Hlabels : exists st1,
    match additionalLabels with
    | [] => ret tt
    | _ :: _ =>
        print Log ("Also including issues with additional labels: " +:+ dquote
                   +:+ Js.join (dquote +:+ ", " +:+ dquote) additionalLabels +:+ dquote)
    end st0 = (Returned tt, st1)
    /\ world st1 = w /\ patterns st1 = WCAG_PATTERNS /\ issuesData st1 = []
    /\ processedIssueIds st1 = ∅ /\ sources st1 = []).
  { destruct additionalLabels; eexists; repeat split; reflexivity. }
  destruct Hlabels as (st1 & Hst1 & Hw & Hpat & Hdata & Hids & Hsrc).
  set (st2 := traced (printed st1 Log "Fetching repositories...") w1
                (mkRequest (orgParams orgName) 1 100) (Items 1)).
  set (st3 := traced (printed (printed st2 Log ("Found " +:+ Js.ofNat 1 +:+ " repositories."))
                        Stdout ("Processing repository: " +:+ Repo.full_name repo +:+ "... "))
                w2 (mkRequest (issuesParams repo) 1 100) (Items 1)).
  set (st4 := printed st3 Log ("Found " +:+ Js.ofNat 1 +:+ " issues.")).
  destruct (processIssue_one n st4 Hf Hlen) as (fromTitle & Htitle & Hissue).
  { unfold st4, st3, st2. simpl. exact Hpat. }
  { unfold st4, st3, st2. simpl. rewrite Hids. apply not_elem_of_empty. }
  destruct (dedupe_two "SC 1.4.3" "1.4.3" fromTitle) as (more & Hdedupe & Hmore);
    [discriminate|].
  assert (Hd4 : issuesData st4 = []) by exact Hdata.
  assert (Hw4 : world st4 = w2) by reflexivity.
  eexists _, (rowWith fromTitle (toISOString host w2)), _, fromTitle,
    (match more with [] => "" | _ :: _ => "; " +:+ Js.join "; " more end).
  assert (Hsc : ExportRecord.WCAG_SC (rowWith fromTitle (toISOString host w2))
                = Some (Js.join "; " (Js.dedupe (["SC 1.4.3"; "1.4.3"] ++ fromTitle)))).
  { unfold rowWith, exportRecord. cbn [ExportRecord.WCAG_SC].
    change (([] ++ ["SC 1.4.3"; "1.4.3"]) ++ fromTitle)
      with ("SC 1.4.3" :: "1.4.3" :: fromTitle).
    change (["SC 1.4.3"; "1.4.3"] ++ fromTitle) with ("SC 1.4.3" :: "1.4.3" :: fromTitle).
    now rewrite Hdedupe. }
  split; [|split; [|split; [exact Htitle|split; [exact Hsc|split; [|split]]]]].
  - unfold gatherAccessibilityIssues.
    unfold bind at 1. unfold print at 1.
    unfold bind at 1. unfold print at 1.
    unfold bind at 1. fold st0. rewrite Hst1.
    unfold bind at 1. unfold print at 1.
    unfold bind at 1.
    rewrite (fetchAllPages_short _ _ _ _ repo [] w1)
      by (simpl; try rewrite Hw; try exact one_repository; lia).
    unfold bind at 1. unfold print at 1.
    unfold bind at 1. cbn [forEachRepo]. unfold bind at 1. unfold processRepo.
    unfold bind at 1. unfold print at 1.
    unfold bind at 1.
    rewrite (fetchAllPages_short _ _ _ _ issue [] w2)
      by (simpl; try exact one_issue; lia).
    unfold bind at 1. unfold print at 1.
    cbn [forEachIssue]. unfold bind at 1.
    change (processIssue host (S n) DEFAULT_PRIMARY_LABEL additionalLabels repo issue _)
      with (processIssue host (S n) DEFAULT_PRIMARY_LABEL additionalLabels repo issue st4).
    rewrite Hissue.
    unfold ret at 1. unfold ret at 1.
    unfold bind at 1. unfold rows at 1.
    unfold bind at 1. unfold print at 1.
    unfold bind at 1. unfold now at 1. unfold ret.
    cbn [issuesData printed world]. rewrite Hd4, Hw4. reflexivity.
  - reflexivity.
  - rewrite Hsc.
    change (["SC 1.4.3"; "1.4.3"] ++ fromTitle) with ("SC 1.4.3" :: "1.4.3" :: fromTitle).
    rewrite Hdedupe. destruct more; reflexivity.
  - intros ->. now rewrite Hmore.
  - reflexivity.
Qed.

End EndToEnd.

(** ** A small organization *)

Module Demo.

Definition acme : User.t := User.mk "acme".

Definition site : Repo.t := Repo.mk "site" "acme/site" acme false.

Definition contrast : Issue.t :=
  Issue.mk 1001 7 "Button colour" (Some "see SC 1.4.3") [Label.mk "accessibility"]
           (Some (User.mk "kim")) "2025-07-01T10:00:00Z" "2025-07-02T10:00:00Z" 0
           "open" "https://github.com/acme/site/issues/7" false.

(** A pull request with the label and the keyword. *)
Definition patch : Issue.t :=
  Issue.mk 1002 8 "Fix accessibility of the menu" (Some "WCAG 2.1 AA")
           [Label.mk "accessibility"]
           (Some (User.mk "lee")) "2025-07-03T10:00:00Z" "2025-07-03T11:00:00Z" 0
           "open" "https://github.com/acme/site/pull/8" true.

(** An issue whose label is written with a capital letter. *)
Definition capital : Issue.t :=
  Issue.mk 1003 9 "Menu is hard to reach" None [Label.mk "Accessibility"]
           None "2025-07-04T10:00:00Z" "2025-07-04T10:00:00Z" 0
           "closed" "https://github.com/acme/site/issues/9" false.

Definition clock (w : unit) : string := "2025-07-24T12:00:00.000Z".

Definition localTime (h : option string) : string :=
  match h with Some t => t | None => "Invalid Date" end.

Definition listing {A} (items : list A) (request : Request) (w : unit) : Reply A * unit :=
  (Resolved (Some items), w).

Definition failing {A} (error : ApiError) (request : Request) (w : unit) : Reply A * unit :=
  (Rejected error, w).

(** One repository with one issue. *)
Definition oneIssue : Host unit :=
  mkHost unit (listing [site]) (listing [contrast]) (listing []) clock localTime.

(** The listing of issues holds a pull request, and the same issue twice. *)
Definition repeated : Host unit :=
  mkHost unit (listing [site]) (listing [patch; contrast; contrast]) (listing [])
         clock localTime.

Definition quotaSpent : ApiError :=
  mkApiError (Some 403%Z) "API rate limit exceeded"
             (Some (<[ "x-ratelimit-remaining" := "0" ]>
                      (<[ "x-ratelimit-reset" := "1753358400" ]> ∅))).

(** The quota runs out at the listing of issues. *)
Definition limited : Host unit :=
  mkHost unit (listing [site]) (failing quotaSpent) (listing []) clock localTime.

Definition missing : ApiError := mkApiError (Some 404%Z) "Not Found" None.

(** The issues of the repository are not found. *)
Definition gone : Host unit :=
  mkHost unit (listing [site]) (failing missing) (listing []) clock localTime.

End Demo.

Section Witnesses.

Local Open Scope list_scope.

(** C2 as stated fails: the run hands one record to the CSV writer, and
    its "WCAG SC" field is "SC 1.4.3; 1.4.3", not "SC 1.4.3". *)
Lemma one_issue_wcag_sc_field :
  match fst (gatherAccessibilityIssues Demo.oneIssue 20 DEFAULT_PRIMARY_LABEL [] "acme"
               (start tt)) with
  | Returned (Some (_, [row])) =>
      ExportRecord.WCAG_SC row = Some "SC 1.4.3; 1.4.3"
      /\ ExportRecord.WCAG_SC row <> Some "SC 1.4.3"
      /\ ExportRecord.Last_Commenter row = None
  | _ => False
  end.
Proof. vm_compute. split; [reflexivity|]. split; [discriminate|reflexivity]. Qed.

Lemma one_issue_one_record_witness :
  exists file row st fromTitle rest,
    gatherAccessibilityIssues Demo.oneIssue 20 DEFAULT_PRIMARY_LABEL [] "acme" (start tt)
      = (Returned (Some (file, [row])), st)
    /\ issuesData st = [row]
    /\ fst <$> findWcagScInText 20 WCAG_PATTERNS (Some (Issue.title Demo.contrast))
       = Some fromTitle
    /\ ExportRecord.WCAG_SC row
       = Some (Js.join "; " (Js.dedupe (["SC 1.4.3"; "1.4.3"] ++ fromTitle)))
    /\ ExportRecord.WCAG_SC row = Some ("SC 1.4.3; 1.4.3" +:+ rest)
    /\ (fromTitle = [] -> rest = "")
    /\ ExportRecord.Last_Commenter row = None.
Proof.
  apply (one_issue_one_record Demo.oneIssue [] Demo.site Demo.contrast
           eq_refl (list_elem_of_here _ _) eq_refl eq_refl "acme" tt tt tt eq_refl eq_refl 20).
  - lia.
  - simpl. lia.
Defined.

Lemma rate_limit_exhaustion_is_fatal_witness :
  let run := gatherAccessibilityIssues Demo.limited 5 DEFAULT_PRIMARY_LABEL [] "acme"
               (start tt) in
  fst run = Exited 1
  /\ last (calls (snd run))
     = Some (mkRequest (issuesParams Demo.site) 1 100, Failure Demo.quotaSpent)
  /\ last (console (snd run))
     = Some (Error, "Rate limit exceeded! Please wait until 1753358400 before trying again.").
Proof.
  apply (proj1 (rate_limit_exhaustion_is_fatal Demo.limited 5 DEFAULT_PRIMARY_LABEL []
                  Demo.quotaSpent eq_refl)
               "acme" tt (mkRequest (issuesParams Demo.site) 1 100)).
  apply list_elem_of_further, list_elem_of_here.
Defined.

Lemma included_iff_qualifies_witness :
  included "accessibility" [] Demo.capital = true.
Proof.
  apply (proj2 (included_iff_qualifies "accessibility" [] Demo.capital)).
  apply list_elem_of_here.
Defined.

(** The scan of the listing with a pull request and a repeated issue. *)
Definition repeatedScan : State unit :=
  snd (gatherAccessibilityIssues Demo.repeated 20 DEFAULT_PRIMARY_LABEL [] "acme" (start tt)).

Example repeatedScan_sources :
  sources repeatedScan = [Demo.contrast] /\ length (issuesData repeatedScan) = 1.
Proof. split; vm_compute; reflexivity. Qed.

Lemma pull_requests_never_exported_witness :
  Forall2 rowOf (sources repeatedScan) (issuesData repeatedScan)
  /\ Forall (fun issue => Issue.pull_request issue = false) (sources repeatedScan)
  /\ (forall repo issue (st' : State unit),
        Issue.pull_request issue = true ->
        processIssue Demo.repeated 20 DEFAULT_PRIMARY_LABEL [] repo issue st'
        = (Returned tt, st'))
  /\ (forall repo issues (st' : State unit),
        forEachIssue Demo.repeated 20 DEFAULT_PRIMARY_LABEL [] repo issues st'
        = forEachIssue Demo.repeated 20 DEFAULT_PRIMARY_LABEL [] repo
            (List.filter (fun issue => negb (Issue.pull_request issue)) issues) st').
Proof.
  apply (pull_requests_never_exported Demo.repeated 20 DEFAULT_PRIMARY_LABEL [] repeatedScan).
  apply gatherAccessibilityIssues_reachable.
Defined.

Lemma export_identifiers_unique_witness :
  Forall2 rowOf (sources repeatedScan) (issuesData repeatedScan)
  /\ NoDup (map Issue.id (sources repeatedScan))
  /\ (forall repo issue (st' : State unit),
        Issue.id issue ∈ processedIssueIds st' ->
        processIssue Demo.repeated 20 DEFAULT_PRIMARY_LABEL [] repo issue st'
        = (Returned tt, st')).
Proof.
  apply (export_identifiers_unique Demo.repeated 20 DEFAULT_PRIMARY_LABEL [] repeatedScan).
  apply gatherAccessibilityIssues_reachable.
Defined.

Lemma not_found_ends_only_this_fetch_witness :
  fst (fetchAllPages Demo.gone (listForRepo Demo.gone) (issuesParams Demo.site) 5 (start tt))
    = Returned []
  /\ forEachRepo Demo.gone 5 DEFAULT_PRIMARY_LABEL [] [Demo.site; Demo.site] (start tt)
     = forEachRepo Demo.gone 5 DEFAULT_PRIMARY_LABEL [] [Demo.site]
         (mkState tt
            [(Stdout, "Processing repository: acme/site... ");
             (Warn, "Warning: Repository not found or no access for acme/site. Skipping.");
             (Log, "Found 0 issues.")]
            [(mkRequest (issuesParams Demo.site) 1 100, Failure Demo.missing)]
            WCAG_PATTERNS [] ∅ []).
Proof.
  destruct (not_found_ends_only_this_fetch Demo.gone 4 DEFAULT_PRIMARY_LABEL []
              Demo.missing eq_refl) as (_ & Hfetch & Hrepo & _).
  split.
  - apply (Hfetch _ _ _ _ tt). reflexivity.
  - apply (Hrepo Demo.site [Demo.site] (start tt) tt). reflexivity.
Defined.

End Witnesses.

(** * Further properties of the scripts *)

(** ** The paged fetcher: the calls of one fetch *)

Section FetchTrace.

Local Open Scope list_scope.

Context {W A : Type}.
Variable host : Host W.
Variable apiCall : Request -> W -> Reply A * W.
Variable params : Params.t.

(** A call answered with a page of at least 100 items. *)
Definition fullPage (answer : Answer) : bool :=
  match answer with
  | Items n => (100 <=? n)%nat
  | _ => false
  end.

(** The items a call was answered with. *)
Definition itemsOf (answer : Answer) : nat :=
  match answer with
  | Items n => n
  | _ => 0
  end.

Definition itemsIn (made : list (Request * Answer)) : nat :=
  fold_right (fun c n => itemsOf (snd c) + n)%nat 0%nat made.

Lemma itemsIn_app made made' : itemsIn (made ++ made') = (itemsIn made + itemsIn made')%nat.
Proof. induction made as [|c made IH]; simpl; [reflexivity|]. rewrite IH. lia. Qed.

(** What one fetch does, read off its calls [made]: all ask for the same
    page; every call but the last was answered with a full page; the fetch
    returns at the first answer that is not a full page, with as many new
    items as the calls brought; it exits only at a rate-limit error; and it
    is still running after [fuel] full pages. *)
Definition fetchShape (fuel : nat) (allItems : list A) (page : nat)
    (out : Outcome (list A)) (made : list (Request * Answer)) : Prop :=
  Forall (fun c => fst c = mkRequest params page 100) made
  /\ match out with
     | Returned items =>
         exists before answer,
           made = before ++ [(mkRequest params page 100, answer)]
           /\ Forall (fun c => fullPage (snd c) = true) before
           /\ fullPage answer = false
           /\ (forall error, answer = Failure error -> rateLimitExceeded error = true ->
                 status error = Some 404%Z)
           /\ length items = (length allItems + itemsIn made)%nat
           /\ exists new, items = allItems ++ new
     | Exited code =>
         code = 1%Z
         /\ exists before error,
              made = before ++ [(mkRequest params page 100, Failure error)]
              /\ Forall (fun c => fullPage (snd c) = true) before
              /\ rateLimitExceeded error = true
     | Pending =>
         length made = fuel /\ Forall (fun c => fullPage (snd c) = true) made
     end.

Lemma fetchLoop_shape : forall fuel allItems page st,
  exists made,
    calls (snd (fetchLoop host apiCall params fuel allItems page st)) = calls st ++ made
    /\ fetchShape fuel allItems page
         (fst (fetchLoop host apiCall params fuel allItems page st)) made.
Proof.
  induction fuel as [|fuel IH]; intros allItems pg st.
  - exists []. split; [now rewrite app_nil_r|]. split; [constructor|].
    split; [reflexivity|constructor].
  - rewrite fetchLoop_step.
    destruct (apiCall (mkRequest params pg 100) (world st)) as [reply w].
    set (req := mkRequest params pg 100).
    assert (Hlast : forall (items : list A) (st' : State W) answer,
      calls st' = calls st ++ [(req, answer)] ->
      fullPage answer = false ->
      (forall error, answer = Failure error -> rateLimitExceeded error = true ->
         status error = Some 404%Z) ->
      length items = (length allItems + itemsOf answer)%nat ->
      (exists new, items = allItems ++ new) ->
      exists made, calls (snd (Returned items, st')) = calls st ++ made
        /\ fetchShape (S fuel) allItems pg (fst (Returned items, st')) made).
    { intros items st' answer Hc Hfull Herr Hlen Hnew. exists [(req, answer)].
      split; [exact Hc|]. split; [repeat constructor|].
      exists [], answer. split; [reflexivity|]. split; [constructor|].
      split; [exact Hfull|]. split; [exact Herr|]. split; [|exact Hnew].
      rewrite Hlen. simpl. lia. }
    destruct reply as [[[|x d]|]|error]; cbv beta iota zeta.
    + apply (Hlast _ _ (Items 0));
        [reflexivity|reflexivity|discriminate|simpl; lia|exists []; now rewrite app_nil_r].
    + destruct (length (x :: d) <? 100)%nat eqn:Hshort.
      * apply (Hlast _ _ (Items (length (x :: d))));
          [reflexivity| |discriminate|now rewrite length_app|now exists (x :: d)].
        cbn [fullPage]. apply Nat.ltb_lt in Hshort. apply Nat.leb_gt. exact Hshort.
      * apply Nat.ltb_ge in Hshort. fold req.
        destruct (IH (allItems ++ x :: d) pg
                    (traced st w req (answerOf (Resolved (Some (x :: d))))))
          as (made & Hc & Hall & Hout).
        exists ((req, Items (length (x :: d))) :: made). split.
        { rewrite Hc. simpl. now rewrite <- app_assoc. }
        split; [constructor; auto|].
        assert (Hfull : fullPage (Items (length (x :: d))) = true)
          by (apply Nat.leb_le; exact Hshort).
        destruct (fst (fetchLoop host apiCall params fuel (allItems ++ x :: d) pg _))
          as [items|code|].
        -- destruct Hout as (before & answer & -> & Hb & Ha & He & Hlen & new & ->).
           exists ((req, Items (length (x :: d))) :: before), answer.
           split; [reflexivity|]. split; [constructor; auto|]. split; [exact Ha|].
           split; [exact He|]. split.
           ++ rewrite Hlen, length_app. simpl. lia.
           ++ exists ((x :: d) ++ new). now rewrite app_assoc.
        -- destruct Hout as (-> & before & error & -> & Hb & He).
           split; [reflexivity|].
           exists ((req, Items (length (x :: d))) :: before), error.
           split; [reflexivity|]. split; [constructor; auto|exact He].
        -- destruct Hout as (Hlen & Hb). split; [simpl; lia|]. constructor; auto.
    + apply (Hlast _ _ NoData);
        [reflexivity|reflexivity|discriminate|simpl; lia|exists []; now rewrite app_nil_r].
    + destruct (bool_decide (status error = Some 404%Z)) eqn:H404.
      * apply (Hlast _ _ (Failure error));
          [reflexivity|reflexivity| |simpl; lia|exists []; now rewrite app_nil_r].
        intros e [= <-] _. now apply bool_decide_eq_true_1 in H404.
      * destruct (rateLimitExceeded error) eqn:Hrate.
        -- exists [(req, Failure error)]. split; [reflexivity|].
           split; [repeat constructor|]. split; [reflexivity|].
           exists [], error. split; [reflexivity|]. split; [constructor|exact Hrate].
        -- apply (Hlast _ _ (Failure error));
             [reflexivity|reflexivity| |simpl; lia|exists []; now rewrite app_nil_r].
           intros e [= <-] He. congruence.
Qed.

(** X1. The calls of one fetchAllPages all ask for page 1 with page size
    100.  The fetch returns at the first answer that is not a page of at
    least 100 items (a shorter page, no data, or an error), with exactly as
    many items as its calls were answered with; it exits, with status 1,
    only at a rate-limit error; and after [fuel] full pages it is still
    running. *)
Theorem fetchAllPages_calls (fuel : nat) (st : State W) :
  exists made,
    calls (snd (fetchAllPages host apiCall params fuel st)) = calls st ++ made
    /\ Forall (fun c => fst c = mkRequest params 1 100) made
    /\ match fst (fetchAllPages host apiCall params fuel st) with
       | Returned items =>
           exists before answer,
             made = before ++ [(mkRequest params 1 100, answer)]
             /\ Forall (fun c => fullPage (snd c) = true) before
             /\ fullPage answer = false
             /\ length items = itemsIn made
       | Exited code =>
           code = 1%Z
           /\ exists before error,
                made = before ++ [(mkRequest params 1 100, Failure error)]
                /\ Forall (fun c => fullPage (snd c) = true) before
                /\ rateLimitExceeded error = true
       | Pending =>
           length made = fuel /\ Forall (fun c => fullPage (snd c) = true) made
       end.
Proof.
  unfold fetchAllPages.
  destruct (fetchLoop_shape fuel [] 1 st) as (made & Hc & Hall & Hout).
  exists made. split; [exact Hc|]. split; [exact Hall|].
  destruct (fst (fetchLoop host apiCall params fuel [] 1 st)) as [items|code|].
  - destruct Hout as (before & answer & Hm & Hb & Ha & _ & Hlen & _).
    exists before, answer. repeat split; auto.
  - exact Hout.
  - exact Hout.
Qed.

(** A rejected call that is neither not-found nor a rate-limit error. *)
Lemma fetchLoop_other_error fuel allItems page st error w :
  apiCall (mkRequest params page 100) (world st) = (Rejected error, w) ->
  status error <> Some 404%Z ->
  rateLimitExceeded error = false ->
  fetchLoop host apiCall params (S fuel) allItems page st
  = (Returned allItems,
     printed (traced st w (mkRequest params page 100) (Failure error))
             Error (fetchErrorMessage page error)).
Proof.
  intros Hcall H404 Hrate. rewrite fetchLoop_step, Hcall, Hrate.
  now rewrite bool_decide_eq_false_2 by exact H404.
Qed.

End FetchTrace.

(** *** Listings served by page number *)

Section ByPageNumber.

Local Open Scope list_scope.

Context {W A : Type}.
Variable host : Host W.
Variable params : Params.t.

(** The provider answers a request with the page asked for, always with
    success, and the world stays as it is. *)
Variable pages : nat -> list A.

Definition served (request : Request) (w : W) : Reply A * W :=
  (Resolved (Some (pages (page request))), w).



(** The single-label script: the loop started at page [first] returns the
    pages up to the first empty one. *)
Lemma Legacy_fetchLoop_pages : forall k fuel allItems first st,
  pages (first + k) = [] ->
  (forall j, (j < k)%nat -> pages (first + j) <> []) ->
  (k < fuel)%nat ->
  Legacy.fetchLoop served params fuel allItems first st
  = (Returned (allItems ++ concat (map pages (seq first k))),
     mkState (world st) (console st)
       (calls st ++ map (fun p => (mkRequest params p 100, Items (length (pages p))))
                        (seq first (S k)))
       (patterns st) (issuesData st) (processedIssueIds st) (sources st)).
Proof.
  induction k as [|k IH]; intros fuel allItems first st Hend Hbefore Hfuel;
    (destruct fuel as [|fuel]; [lia|]); cbn [Legacy.fetchLoop];
    unfold bind at 1; unfold await, served at 1; cbn [page].
  - rewrite Nat.add_0_r in Hend. rewrite Hend. unfold ret, traced.
    cbn [map seq concat answerOf length]. rewrite Hend, app_nil_r. reflexivity.
  - specialize (Hbefore 0%nat ltac:(lia)) as Hfirst. rewrite Nat.add_0_r in Hfirst.
    destruct (pages first) as [|x d] eqn:Hp; [congruence|].
    rewrite (IH fuel (allItems ++ x :: d) (S first)).
    + cbn [world console calls patterns issuesData processedIssueIds sources traced answerOf].
      cbn [seq map concat]. rewrite Hp, <- !app_assoc. reflexivity.
    + now rewrite Nat.add_succ_comm.
    + intros j Hj. rewrite Nat.add_succ_comm. apply Hbefore. lia.
    + lia.
Qed.

(** X3. On a listing served by page number, fetchAllPages of the
    single-label script asks for the pages 1, 2, ... in turn, up to the
    first empty page, and returns the pages before it, in order. *)
Theorem Legacy_fetchAllPages_by_page_number (k fuel : nat) (st : State W) :
  pages (S k) = [] ->
  (forall j, (j < k)%nat -> pages (S j) <> []) ->
  (k < fuel)%nat ->
  Legacy.fetchAllPages served params fuel st
  = (Returned (concat (map pages (seq 1 k))),
     mkState (world st) (console st)
       (calls st ++ map (fun p => (mkRequest params p 100, Items (length (pages p))))
                        (seq 1 (S k)))
       (patterns st) (issuesData st) (processedIssueIds st) (sources st)).
Proof.
  intros Hend Hbefore Hfuel. unfold Legacy.fetchAllPages.
  now rewrite (Legacy_fetchLoop_pages k).
Qed.

End ByPageNumber.

(** ** Errors that are neither not-found nor rate-limit errors *)

Section OtherErrors.

Local Open Scope list_scope.

Context {W : Type}.
Variable host : Host W.
Variable fuel : nat.
Variable primaryLabel : string.
Variable additionalLabels : list string.

(** X4. A rejected call that is neither a not-found error nor a rate-limit
    error ends the fetch it occurs in and nothing else: fetchAllPages
    prints one line on the error stream, "Error fetching page", the page
    number and the message of the error, makes no further call and returns
    the items accumulated so far.  When it happens at the issues of a
    repository, the loop over the repositories prints "Found 0 issues." and
    continues with the next repository; when it happens at the
    repositories of the organization, the scan returns without a file
    after this one call. *)
Theorem other_error_ends_only_this_fetch (error : ApiError) :
  status error <> Some 404%Z ->
  rateLimitExceeded error = false ->
  (forall A (apiCall : Request -> W -> Reply A * W) params allItems page st w,
     apiCall (mkRequest params page 100) (world st) = (Rejected error, w) ->
     fetchLoop host apiCall params (S fuel) allItems page st
     = (Returned allItems,
        mkState w
          (console st ++ [(Error, "Error fetching page " +:+ Js.ofNat page +:+ ": "
                                  +:+ message error)])
          (calls st ++ [(mkRequest params page 100, Failure error)])
          (patterns st) (issuesData st) (processedIssueIds st) (sources st)))
  /\ (forall repo rest st w,
        listForRepo host (mkRequest (issuesParams repo) 1 100) (world st)
          = (Rejected error, w) ->
        forEachRepo host (S fuel) primaryLabel additionalLabels (repo :: rest) st
        = forEachRepo host (S fuel) primaryLabel additionalLabels rest
            (mkState w
               (console st
                ++ [(Stdout, "Processing repository: " +:+ Repo.full_name repo +:+ "... ");
                    (Error, "Error fetching page 1: " +:+ message error);
                    (Log, "Found 0 issues.")])
               (calls st ++ [(mkRequest (issuesParams repo) 1 100, Failure error)])
               (patterns st) (issuesData st) (processedIssueIds st) (sources st)))
  /\ (forall orgName w w',
        listForOrg host (mkRequest (orgParams orgName) 1 100) w = (Rejected error, w') ->
        let run := gatherAccessibilityIssues host (S fuel) primaryLabel additionalLabels
                     orgName (start w) in
        fst run = Returned None
        /\ calls (snd run) = [(mkRequest (orgParams orgName) 1 100, Failure error)]
        /\ exists before,
             console (snd run)
             = before
               ++ [(Log, "Fetching repositories...");
                   (Error, "Error fetching page 1: " +:+ message error);
                   (Log, "No public repositories found for " +:+ orgName
                         +:+ " or access denied. Exiting.")]).
Proof.
  intros H404 Hrate. split; [|split].
  - intros A apiCall params allItems page st w Hcall.
    now rewrite (fetchLoop_other_error host apiCall params fuel allItems page st error w).
  - intros repo rest st w Hcall.
    cbn [forEachRepo]. unfold bind at 1. unfold processRepo.
    unfold bind at 1. unfold print at 1.
    unfold bind at 1. unfold fetchAllPages.
    rewrite (fetchLoop_other_error host _ _ _ _ _ _ error w) by assumption.
    unfold bind at 1. unfold print at 1. cbn [forEachIssue]. unfold ret at 1.
    f_equal. unfold printed, traced, fetchErrorMessage.
    cbn [world console calls patterns issuesData processedIssueIds sources length].
    f_equal. now rewrite <- !app_assoc.
  - intros orgName w w' Hcall run. pattern run.
    match goal with |- ?F run => set (P := F) end.
    subst run. unfold gatherAccessibilityIssues.
    unfold bind at 1. unfold print at 1.
    unfold bind at 1. unfold print at 1.
    unfold bind at 1.
    assert (Hlabels : exists st1,
      match additionalLabels with
      | [] => ret tt
      | _ :: _ =>
          print Log ("Also including issues with additional labels: " +:+ dquote
                     +:+ Js.join (dquote +:+ ", " +:+ dquote) additionalLabels +:+ dquote)
      end (printed (printed (start w) Log ("Scanning GitHub organization: " +:+ orgName))
             Log ("Looking for issues with primary label: " +:+ dquote +:+ primaryLabel
                  +:+ dquote))
      = (Returned tt, st1) /\ world st1 = w /\ calls st1 = []).
    { destruct additionalLabels; eexists; repeat split; reflexivity. }
    destruct Hlabels as (st1 & -> & Hw & Hc).
    unfold bind at 1. unfold print at 1.
    unfold bind at 1. unfold fetchAllPages.
    rewrite (fetchLoop_other_error host _ _ _ _ _ _ error w')
      by (try assumption; simpl; rewrite Hw; exact Hcall).
    unfold bind, print, ret, printed, traced, fetchErrorMessage, P.
    cbn [fst snd world console calls].
    split; [reflexivity|]. split; [now rewrite Hc|].
    exists (console st1). now rewrite <- !app_assoc.
Qed.

(** X5. The scan exits only at a rate-limit error: if a run of
    gatherAccessibilityIssues has exited, its status is 1, its last call
    was answered with a rate-limit error, and the last line on the console
    is, on the error stream, "Rate limit exceeded! Please wait until", the
    reset time read from the header x-ratelimit-reset of that error, and
    "before trying again.". *)
Theorem scan_exits_only_at_rate_limit (orgName : string) (w : W) (code : Z) :
  let run := gatherAccessibilityIssues host fuel primaryLabel additionalLabels orgName
               (start w) in
  fst run = Exited code ->
  code = 1%Z
  /\ exists request error,
       last (calls (snd run)) = Some (request, Failure error)
       /\ rateLimitExceeded error = true
       /\ last (console (snd run))
          = Some (Error,
                  "Rate limit exceeded! Please wait until "
                  +:+ resetTime host (match headers error with
                                      | Some h => h !! "x-ratelimit-reset"
                                      | None => None
                                      end)
                  +:+ " before trying again.").
Proof.
  intros run Hexit.
  assert (Hpost : post running (haltedAtLimit host) run).
  { apply gatherAccessibilityIssues_ok.
    - intros to line st Hst. exact Hst.
    - intros A apiCall params. apply fetchLoop_limit.
    - apply processIssue_limit.
    - intros request' error' Hnone. now apply elem_of_nil in Hnone. }
  destruct run as [out st]. simpl in *. subst out.
  destruct Hpost as (-> & made & request & error & Hcalls & _ & Hrate & Hline).
  split; [reflexivity|]. exists request, error.
  rewrite Hcalls, last_snoc, Hline. auto.
Qed.

End OtherErrors.

Section LegacyErrors.

Context {W A : Type}.
Variable apiCall : Request -> W -> Reply A * W.
Variable params : Params.t.

Lemma Legacy_fetchLoop_no_exit : forall fuel allItems page st code,
  fst (Legacy.fetchLoop apiCall params fuel allItems page st) <> Exited code.
Proof.
  induction fuel as [|fuel IH]; intros allItems pg st code; [discriminate|].
  cbn [Legacy.fetchLoop]. unfold bind at 1. unfold await.
  destruct (apiCall (mkRequest params pg 100) (world st)) as [reply w].
  destruct reply as [[[|x d]|]|error]; try discriminate. apply IH.
Qed.

(** X6. fetchAllPages of the single-label script never ends the process:
    whatever a call is rejected with, also a rate-limit error, the fetch
    prints one line on the error stream, "Error fetching page", the number
    of the page asked for and the message of the error, makes no further
    call and returns the items accumulated so far. *)
Theorem Legacy_fetchAllPages_never_exits :
  (forall fuel st code, fst (Legacy.fetchAllPages apiCall params fuel st) <> Exited code)
  /\ (forall fuel allItems page st error w,
        apiCall (mkRequest params page 100) (world st) = (Rejected error, w) ->
        Legacy.fetchLoop apiCall params (S fuel) allItems page st
        = (Returned allItems,
           mkState w
             (console st ++ [(Error, "Error fetching page " +:+ Js.ofNat page +:+ ": "
                                     +:+ message error)])
             (calls st ++ [(mkRequest params page 100, Failure error)])
             (patterns st) (issuesData st) (processedIssueIds st) (sources st))).
Proof.
  split.
  - intros fuel st code. apply Legacy_fetchLoop_no_exit.
  - intros fuel allItems pg st error w Hcall.
    now rewrite (Legacy_fetchLoop_rejected apiCall params fuel allItems pg st error w Hcall).
Qed.

End LegacyErrors.

(** ** The criteria extractor: where the tokens come from *)

Section Tokens.

Local Open Scope list_scope.

(** [m] is a match of the pattern [p] somewhere in [text]. *)
Definition occursIn (p : RegExp.t) (text m : list ascii) : Prop :=
  exists s1 s2,
    text = s1 ++ m ++ s2
    /\ matchNodes (ignoreCase p) (nodes p) (prevOf None s1) (m ++ s2) = Some m.

Lemma exec_occurs r text mt r' :
  wfNodes (nodes r) = true ->
  exec r text = (Some mt, r') ->
  occursIn r text (matched mt) /\ exists i, r' = withLastIndex r i \/ r' = r.
Proof.
  intros Hwf. unfold exec.
  set (start := if global r then lastIndex r else 0).
  destruct (length text <? start)%nat; [discriminate|].
  destruct (search _ _ _ _) as [[i m]|] eqn:Hs; [|discriminate].
  intros [= <- <-]. cbn [matched]. split.
  - apply search_Some in Hs as (sa & sb & Hsplit & _ & Hm).
    pose proof Hm as Hsound.
    apply (matchNodes_sound _ _ Hwf) in Hsound as ([rest ->] & _ & _).
    exists (take start text ++ sa), rest. split.
    + rewrite <- app_assoc, <- Hsplit. now rewrite take_drop.
    + rewrite prevOf_app.
      replace (prevOf None (take start text)) with (last (take start text)); [exact Hm|].
      rewrite prevOf_last. now destruct (last (take start text)).
  - exists (start + i + length m)%nat. destruct (global r); auto.
Qed.

Lemma setAdd_NoDup x l : NoDup l -> NoDup (Js.setAdd x l).
Proof.
  intros H. unfold Js.setAdd. case_bool_decide; [exact H|].
  apply NoDup_app. split; [exact H|]. split; [|apply NoDup_singleton].
  intros y Hy Hx. apply list_elem_of_singleton in Hx. now subst y.
Qed.

Lemma setAdd_inv x y l : y ∈ Js.setAdd x l -> y = x \/ y ∈ l.
Proof.
  unfold Js.setAdd. case_bool_decide as Hd; [now right|].
  intros H. apply elem_of_app in H as [H|H]; [now right|].
  apply list_elem_of_singleton in H. now left.
Qed.

(** What the loop keeps: a property of the set that holds of every new
    token. *)
Lemma execLoop_keeps (P : list string -> Prop) (Q : string -> Prop) r text :
  wfNodes (nodes r) = true ->
  (forall x l, P l -> Q x -> P (Js.setAdd x l)) ->
  (forall m, m <> [] -> occursIn r text m -> Q (normalize m)) ->
  forall fuel i found found' r',
    P found ->
    execLoop fuel (withLastIndex r i) text found = Some (found', r') ->
    P found'.
Proof.
  intros Hwf Hadd Hq. induction fuel as [|fuel IH]; intros i found found' r' HP H;
    [discriminate|].
  simpl in H. destruct (exec (withLastIndex r i) text) as [[mt|] r1] eqn:He.
  - apply exec_occurs in He as [Hocc [j Hr1]]; [|exact Hwf].
    assert (exists k, r1 = withLastIndex r k) as [k ->].
    { destruct Hr1 as [-> | ->]; eauto. }
    eapply IH; [|exact H].
    destruct (matched mt) eqn:Hm; [exact HP|]. apply Hadd; [exact HP|].
    apply Hq; [discriminate|exact Hocc].
  - now injection H as <- _.
Qed.

Lemma forEachPattern_keeps (P : list string -> Prop) (Q : string -> Prop) text :
  (forall x l, P l -> Q x -> P (Js.setAdd x l)) ->
  forall patterns fuel found found' patterns',
    forallb (fun p => wfNodes (nodes p)) patterns = true ->
    (forall p m, p ∈ patterns -> m <> [] -> occursIn p text m -> Q (normalize m)) ->
    P found ->
    forEachPattern fuel patterns text found = Some (found', patterns') ->
    P found'.
Proof.
  intros Hadd patterns. induction patterns as [|p ps IH];
    intros fuel found found' ps' Hwf Hq HP H.
  - now injection H as <- _.
  - simpl in Hwf. apply andb_true_iff in Hwf as [Hp Hps]. simpl in H.
    destruct (execLoop fuel (withLastIndex p 0) text found) as [[f1 p1]|] eqn:H1;
      [|discriminate].
    destruct (forEachPattern fuel ps text f1) as [[f2 ps2]|] eqn:H2; [|discriminate].
    injection H as <- _.
    eapply IH; [exact Hps| |exact (execLoop_keeps P Q p text Hp Hadd
                                      (fun m Hm Ho => Hq p m (list_elem_of_here _ _) Hm Ho)
                                      fuel 0 found f1 p1 HP H1)|exact H2].
    intros q m Hin. apply Hq. now apply list_elem_of_further.
Qed.

(** The origin of a token. *)
Definition tokenOf (text : list ascii) (token : string) : Prop :=
  exists p m, p ∈ WCAG_PATTERNS /\ m <> [] /\ occursIn p text m /\ token = normalize m.

Lemma findWcagScInText_origin fuel text found patterns' :
  findWcagScInText fuel WCAG_PATTERNS (Some text) = Some (found, patterns') ->
  forall token, token ∈ found -> tokenOf (list_ascii_of_string text) token.
Proof.
  intros H. destruct text as [|c s].
  { injection H as <- _. intros t Ht. now apply elem_of_nil in Ht. }
  rewrite findWcagScInText_scan in H.
  change (c :: list_ascii_of_string s) with (list_ascii_of_string (String c s)) in H.
  eapply (forEachPattern_keeps
            (fun l => forall token, token ∈ l ->
               tokenOf (list_ascii_of_string (String c s)) token)
            (tokenOf (list_ascii_of_string (String c s)))); [| | | |exact H].
  - intros x l Hl Hx token Ht. apply setAdd_inv in Ht as [->|Ht]; auto.
  - reflexivity.
  - intros p m Hp Hm Ho. now exists p, m.
  - intros token Ht. now apply elem_of_nil in Ht.
Qed.

(** With the bound above the length of the text the call returns. *)
Lemma findWcagScInText_returns fuel text :
  (String.length text < fuel)%nat ->
  exists found patterns',
    findWcagScInText fuel WCAG_PATTERNS (Some text) = Some (found, patterns').
Proof.
  intros Hf.
  destruct (findWcagScInText_total fuel [] (Some text) Hf) as (found & patterns' & H & _).
  now exists found, patterns'.
Qed.

Lemma findWcagScInText_NoDup fuel text found patterns' :
  findWcagScInText fuel WCAG_PATTERNS (Some text) = Some (found, patterns') ->
  NoDup found.
Proof.
  intros H. destruct text as [|c s]; [injection H as <- _; constructor|].
  rewrite findWcagScInText_scan in H.
  eapply (forEachPattern_keeps (@NoDup string) (fun _ => True)); [| | | |exact H];
    [intros; now apply setAdd_NoDup|reflexivity|auto|constructor].
Qed.

(** X7. With the bound above the length of the text, findWcagScInText
    returns a list; the list has no duplicates, and each of its tokens is
    the normal form (upper case, white-space runs collapsed, trimmed) of a
    non-empty match of one of the five patterns somewhere in the text. *)
Theorem findWcagScInText_tokens (fuel : nat) (text : string) :
  (String.length text < fuel)%nat ->
  exists found patterns',
    findWcagScInText fuel WCAG_PATTERNS (Some text) = Some (found, patterns')
    /\ NoDup found
    /\ forall token, token ∈ found ->
         exists p m, p ∈ WCAG_PATTERNS /\ m <> []
                     /\ occursIn p (list_ascii_of_string text) m
                     /\ token = normalize m.
Proof.
  intros Hf. destruct (findWcagScInText_returns fuel text Hf) as (found & patterns' & H).
  exists found, patterns'. split; [exact H|]. split.
  - exact (findWcagScInText_NoDup _ _ _ _ H).
  - exact (findWcagScInText_origin _ _ _ _ H).
Qed.

Lemma findWcagScInText_tokens_witness :
  exists found patterns',
    findWcagScInText 20 WCAG_PATTERNS (Some "see SC 1.4.3") = Some (found, patterns')
    /\ NoDup found
    /\ forall token, token ∈ found ->
         exists p m, p ∈ WCAG_PATTERNS /\ m <> []
                     /\ occursIn p (list_ascii_of_string "see SC 1.4.3") m
                     /\ token = normalize m.
Proof.
  apply (findWcagScInText_tokens 20 "see SC 1.4.3"). simpl. lia.
Defined.

End Tokens.

(** ** The criteria extractor: the form of the tokens *)

Section NormalForm.

Local Open Scope list_scope.

(** Every white-space character is a space, and no two of them are
    adjacent; [afterSpace] tells that the character before is one. *)
Fixpoint singleSpaced (afterSpace : bool) (l : list ascii) : bool :=
  match l with
  | [] => true
  | c :: l' =>
      if Js.isWhiteSpace c
      then negb afterSpace && Ascii.eqb c " " && singleSpaced true l'
      else singleSpaced false l'
  end.

Definition startsClean (l : list ascii) : bool :=
  match l with
  | c :: _ => negb (Js.isWhiteSpace c)
  | [] => true
  end.

(** The form of a token: not empty, no letter in lower case, no white
    space at either end, and inside only single spaces. *)
Definition normalForm (l : list ascii) : Prop :=
  l <> []
  /\ Forall (fun c => Js.toUpperChar c = c) l
  /\ singleSpaced false l = true
  /\ startsClean l = true
  /\ startsClean (rev l) = true.

Lemma toUpperChar_idem c : Js.toUpperChar (Js.toUpperChar c) = Js.toUpperChar c.
Proof. destruct c as [[] [] [] [] [] [] [] []]; reflexivity. Qed.

Lemma isWhiteSpace_upper c : Js.isWhiteSpace (Js.toUpperChar c) = Js.isWhiteSpace c.
Proof. destruct c as [[] [] [] [] [] [] [] []]; reflexivity. Qed.

Lemma trimStart_suffix l : exists w, l = w ++ Js.trimStart l.
Proof.
  induction l as [|c l [w IH]]; [now exists []|]. simpl.
  destruct (Js.isWhiteSpace c); [|now exists []].
  exists (c :: w). simpl. now rewrite <- IH.
Qed.

Lemma trimStart_clean l : startsClean (Js.trimStart l) = true.
Proof.
  induction l as [|c l IH]; [reflexivity|]. simpl.
  destruct (Js.isWhiteSpace c) eqn:Hc; [exact IH|]. simpl. now rewrite Hc.
Qed.

Lemma trimStart_snoc l c :
  Js.isWhiteSpace c = false -> Js.trimStart (l ++ [c]) = Js.trimStart l ++ [c].
Proof.
  intros Hc. induction l as [|d l IH]; simpl; [now rewrite Hc|].
  destruct (Js.isWhiteSpace d); [exact IH|reflexivity].
Qed.

(** [trim] keeps a part of the text in the middle. *)
Lemma trim_middle l : exists w z, l = w ++ Js.trim l ++ z.
Proof.
  unfold Js.trim. destruct (trimStart_suffix l) as [w Hw].
  destruct (trimStart_suffix (rev (Js.trimStart l))) as [z Hz].
  exists w, (rev z). rewrite <- rev_app_distr, <- Hz, rev_involutive. exact Hw.
Qed.

Lemma singleSpaced_app b l z :
  singleSpaced b (l ++ z) = true -> singleSpaced b l = true.
Proof.
  revert b. induction l as [|c l IH]; intros b; [reflexivity|]. simpl.
  destruct (Js.isWhiteSpace c); [|apply IH].
  rewrite !andb_true_iff. intros [Hb H]. split; [exact Hb|now apply IH].
Qed.

Lemma singleSpaced_trimStart l : forall b,
  singleSpaced b l = true -> singleSpaced false (Js.trimStart l) = true.
Proof.
  induction l as [|c l IH]; intros b; [reflexivity|]. simpl.
  destruct (Js.isWhiteSpace c) eqn:Hc.
  - rewrite !andb_true_iff. intros [_ H]. now apply (IH true).
  - intros H. simpl. now rewrite Hc.
Qed.

Lemma singleSpaced_collapse l : forall b, singleSpaced b (Js.collapseRuns b l) = true.
Proof.
  induction l as [|c l IH]; intros b; [reflexivity|]. simpl.
  destruct (Js.isWhiteSpace c) eqn:Hc.
  - destruct b; [apply IH|]. simpl. apply IH.
  - simpl. rewrite Hc. apply IH.
Qed.

Lemma collapse_Forall (P : ascii -> Prop) l : forall b,
  P " "%char -> Forall P l -> Forall P (Js.collapseRuns b l).
Proof.
  induction l as [|c l IH]; intros b Hs H; [constructor|].
  inversion H as [|? ? Hc Hl]; subst. simpl.
  destruct (Js.isWhiteSpace c); [destruct b|]; try constructor; auto.
Qed.

Lemma collapse_elem x l : forall b,
  x ∈ Js.collapseRuns b l -> x = " "%char \/ x ∈ l.
Proof.
  induction l as [|c l IH]; intros b H; [now apply elem_of_nil in H|]. simpl in H.
  destruct (Js.isWhiteSpace c); [destruct b|].
  - apply IH in H as [H|H]; [now left|right; now apply list_elem_of_further].
  - apply elem_of_cons in H as [H|H]; [now left|].
    apply IH in H as [H|H]; [now left|right; now apply list_elem_of_further].
  - apply elem_of_cons in H as [->|H]; [right; apply list_elem_of_here|].
    apply IH in H as [H|H]; [now left|right; now apply list_elem_of_further].
Qed.

Lemma trim_elem x l : x ∈ Js.trim l -> x ∈ l.
Proof.
  intros H. destruct (trim_middle l) as (w & z & Hl). rewrite Hl.
  apply elem_of_app. right. apply elem_of_app. now left.
Qed.

Lemma trim_clean l :
  startsClean l = true ->
  startsClean (Js.trim l) = true /\ startsClean (rev (Js.trim l)) = true.
Proof.
  intros Hl. unfold Js.trim. rewrite rev_involutive. split; [|apply trimStart_clean].
  assert (Hsame : Js.trimStart l = l).
  { destruct l as [|c l]; [reflexivity|]. simpl in *.
    now destruct (Js.isWhiteSpace c). }
  rewrite Hsame. destruct l as [|c l]; [reflexivity|].
  simpl in Hl. apply negb_true_iff in Hl.
  simpl rev. destruct (trimStart_suffix (rev l ++ [c])) as [w Hw].
  assert (Hne : exists q, Js.trimStart (rev l ++ [c]) = q ++ [c]).
  { rewrite trimStart_snoc by exact Hl. eauto. }
  destruct Hne as [q ->]. rewrite rev_app_distr. simpl. now rewrite Hl.
Qed.

Lemma trim_prefix y : Js.trimStart y = y -> exists z, y = Js.trim y ++ z.
Proof.
  intros Hsame. unfold Js.trim. rewrite Hsame.
  destruct (trimStart_suffix (rev y)) as [w Hw].
  exists (rev w). now rewrite <- rev_app_distr, <- Hw, rev_involutive.
Qed.

(** The normal form of a text that starts with a character that is not
    white space. *)
Lemma normalize_normalForm c m :
  Js.isWhiteSpace c = false ->
  normalForm (list_ascii_of_string (normalize (c :: m))).
Proof.
  intros Hc. unfold normalize. rewrite list_ascii_of_string_of_list_ascii.
  unfold Js.replaceWhiteSpaceRuns, Js.toUpperCase. cbn [map Js.collapseRuns].
  rewrite isWhiteSpace_upper, Hc.
  set (y := Js.toUpperChar c :: Js.collapseRuns false (map Js.toUpperChar m)).
  assert (Hy : startsClean y = true) by (simpl; now rewrite isWhiteSpace_upper, Hc).
  assert (Hsame : Js.trimStart y = y) by (simpl; now rewrite isWhiteSpace_upper, Hc).
  assert (Hsp : singleSpaced false y = true).
  { simpl. rewrite isWhiteSpace_upper, Hc. apply singleSpaced_collapse. }
  assert (Hup : Forall (fun c => Js.toUpperChar c = c) y).
  { constructor; [apply toUpperChar_idem|]. apply collapse_Forall; [reflexivity|].
    apply Forall_forall. intros x Hx. apply list_elem_of_fmap in Hx as (x0 & -> & _).
    apply toUpperChar_idem. }
  destruct (trim_clean y Hy) as [H1 H2].
  destruct (trim_prefix y Hsame) as [z Hz].
  split; [|split; [|split; [|split; [exact H1|exact H2]]]].
  - unfold Js.trim. rewrite Hsame. unfold y at 1. simpl rev.
    rewrite trimStart_snoc by (now rewrite isWhiteSpace_upper).
    intros Hnil. apply (f_equal (@length ascii)) in Hnil.
    rewrite length_rev, length_app in Hnil. simpl in Hnil. lia.
  - apply Forall_forall. intros x Hx. rewrite Forall_forall in Hup.
    apply Hup. now apply trim_elem.
  - rewrite Hz in Hsp. now apply singleSpaced_app in Hsp.
Qed.

(** The set of characters the first character of every match belongs
    to, when the pattern shows one. *)
Fixpoint leading (ns : list Node) : option CharSet :=
  match ns with
  | WordBoundary :: ns' => leading ns'
  | Chr cs :: _ => Some cs
  | Quant cs (S _) _ :: _ => Some cs
  | _ => None
  end.

Lemma matchNodes_leading ic ns : forall cs prev s m,
  wfNodes ns = true -> leading ns = Some cs ->
  matchNodes ic ns prev s = Some m ->
  exists c m', m = c :: m' /\ setMatches ic cs c = true.
Proof.
  induction ns as [|n ns IH]; intros cs prev s m Hwf Hlead H; [discriminate|].
  simpl in Hwf. apply andb_true_iff in Hwf as [Hn Hwf].
  destruct n as [cs'|cs' min max|].
  - injection Hlead as <-.
    apply matchNodes_Chr in H as (c & s' & m' & _ & Hc & _ & ->). eauto.
  - destruct min as [|min]; [discriminate|]. injection Hlead as <-.
    cbn [matchNodes] in H. destruct s as [|c s]; cbn [greedy] in H.
    + destruct max as [[|mx]|]; simpl in *; discriminate.
    + destruct (exhausted max) eqn:Hmax.
      { destruct max as [[|mx]|]; simpl in *; discriminate. }
      cbn [Nat.eqb] in H.
      destruct (setMatches ic cs' c) eqn:Hc; [|discriminate].
      destruct (greedy _ _ _ _ _ _) as [m1|]; [|discriminate].
      injection H as <-. eauto.
  - simpl in H. destruct (xorb _ _); [|discriminate]. eapply IH; eauto.
Qed.

(** Every match of one of the five patterns starts with a character that
    is not white space. *)
Lemma WCAG_PATTERNS_leading p text m :
  p ∈ WCAG_PATTERNS -> m <> [] -> occursIn p text m ->
  exists c m', m = c :: m' /\ Js.isWhiteSpace c = false.
Proof.
  intros Hp _ (s1 & s2 & _ & Hm).
  assert (Hcs : exists cs, leading (nodes p) = Some cs /\ wfNodes (nodes p) = true
            /\ forall c, setMatches (ignoreCase p) cs c = true -> Js.isWhiteSpace c = false).
  { unfold WCAG_PATTERNS in Hp.
    repeat (apply elem_of_cons in Hp as [->|Hp]);
      [| | | | |now apply elem_of_nil in Hp];
      (eexists; split; [reflexivity|]; split; [reflexivity|]);
      intros c; destruct c as [[] [] [] [] [] [] [] []]; vm_compute; congruence. }
  destruct Hcs as (cs & Hlead & Hwf & Hclean).
  destruct (matchNodes_leading _ _ _ _ _ _ Hwf Hlead Hm) as (c & m' & -> & Hc).
  exists c, m'. split; [reflexivity|now apply Hclean].
Qed.

(** X8. With the bound above the length of the text, findWcagScInText
    returns a list, and every token of it is in normal form: it is not
    empty, has no letter in lower case, neither starts nor ends with white
    space, and its only white-space characters are single spaces. *)
Theorem findWcagScInText_normal_form (fuel : nat) (text : string) :
  (String.length text < fuel)%nat ->
  exists found patterns',
    findWcagScInText fuel WCAG_PATTERNS (Some text) = Some (found, patterns')
    /\ forall token, token ∈ found -> normalForm (list_ascii_of_string token).
Proof.
  intros Hf. destruct (findWcagScInText_returns fuel text Hf) as (found & patterns' & H).
  exists found, patterns'. split; [exact H|]. intros token Ht.
  destruct (findWcagScInText_origin _ _ _ _ H token Ht) as (p & m & Hp & Hm & Ho & ->).
  destruct (WCAG_PATTERNS_leading p _ m Hp Hm Ho) as (c & m' & -> & Hc).
  now apply normalize_normalForm.
Qed.

Lemma findWcagScInText_normal_form_witness :
  exists found patterns',
    findWcagScInText 40 WCAG_PATTERNS (Some "Fails wcag  2.1 aa on focus")
    = Some (found, patterns')
    /\ forall token, token ∈ found -> normalForm (list_ascii_of_string token).
Proof.
  apply (findWcagScInText_normal_form 40 "Fails wcag  2.1 aa on focus"). simpl. lia.
Defined.

End NormalForm.

(** ** The criteria extractor: the bare letter *)

Section BareLetter.

Local Open Scope list_scope.

Lemma singleA_normal prev s m :
  matchNodes true (nodes singleA) prev s = Some m -> m <> [] /\ normalize m = "A".
Proof.
  intros H. apply matchNodes_Chr in H as (c & s' & m' & _ & Hc & Hm & ->).
  injection Hm as <-. split; [discriminate|].
  apply isA_inv in Hc as [-> | ->]; reflexivity.
Qed.

Lemma upper_A c : Js.toUpperChar c = "A"%char -> c = "A"%char \/ c = "a"%char.
Proof. destruct c as [[] [] [] [] [] [] [] []]; vm_compute; intros H; auto; discriminate. Qed.

Lemma occursIn_elem p text m c : occursIn p text m -> c ∈ m -> c ∈ text.
Proof.
  intros (s1 & s2 & -> & _) Hc. apply elem_of_app. right. apply elem_of_app. now left.
Qed.

Lemma elem_list_ascii_of_string c text :
  c ∈ list_ascii_of_string text <-> exists pre post, text = pre +:+ String c post.
Proof.
  induction text as [|d text IH]; simpl.
  - split; [intros H; now apply elem_of_nil in H|].
    intros (pre & post & H). destruct pre; discriminate.
  - rewrite elem_of_cons, IH. split.
    + intros [->|(pre & post & ->)]; [now exists "", text|].
      now exists (String d pre), post.
    + intros (pre & post & H). destruct pre as [|e pre].
      * injection H as -> _. now left.
      * rewrite append_cons in H. injection H as _ ->. right. now exists pre, post.
Qed.

(** A letter a of the text is found by the last pattern. *)
Lemma letter_A_found fuel pre c post found patterns' :
  c = "A"%char \/ c = "a"%char ->
  findWcagScInText fuel WCAG_PATTERNS (Some (pre +:+ String c post))
  = Some (found, patterns') ->
  "A" ∈ found.
Proof.
  intros Hc H.
  assert (Htext : list_ascii_of_string (pre +:+ String c post)
            = list_ascii_of_string pre ++ c :: list_ascii_of_string post)
    by (now rewrite list_ascii_of_string_app).
  rewrite findWcagScInText_chars in H
    by (rewrite Htext; destruct (list_ascii_of_string pre); discriminate).
  cbn [forEachPattern WCAG_PATTERNS] in H.
  destruct (execLoop fuel (withLastIndex wcagLevel 0) _ []) as [[f1 p1]|]; [|discriminate].
  destruct (execLoop fuel (withLastIndex scNumber 0) _ f1) as [[f2 p2]|]; [|discriminate].
  destruct (execLoop fuel (withLastIndex dottedTriple 0) _ f2) as [[f3 p3]|];
    [|discriminate].
  destruct (execLoop fuel (withLastIndex doubleA 0) _ f3) as [[f4 p4]|]; [|discriminate].
  destruct (execLoop fuel (withLastIndex singleA 0) _ f4) as [[f5 p5]|] eqn:H5;
    [|discriminate].
  injection H as <- _. rewrite Htext in H5.
  eapply (execLoop_first singleA _ (list_ascii_of_string pre)
            (c :: list_ascii_of_string post) [c] "A" eq_refl eq_refl); [| |exact H5].
  - destruct Hc as [-> | ->]; reflexivity.
  - apply singleA_normal.
Qed.

(** The token "A" comes from a letter a of the text. *)
Lemma token_A_origin fuel text found patterns' :
  findWcagScInText fuel WCAG_PATTERNS (Some text) = Some (found, patterns') ->
  "A" ∈ found ->
  exists pre c post, text = pre +:+ String c post /\ (c = "A"%char \/ c = "a"%char).
Proof.
  intros H HA.
  destruct (findWcagScInText_origin _ _ _ _ H "A" HA) as (p & m & _ & _ & Ho & Hn).
  assert (Hin : "A"%char ∈ Js.toUpperCase m).
  { unfold normalize in Hn.
    apply (f_equal list_ascii_of_string) in Hn.
    rewrite list_ascii_of_string_of_list_ascii in Hn. simpl in Hn.
    assert (Hx : "A"%char ∈ Js.trim (Js.replaceWhiteSpaceRuns (Js.toUpperCase m)))
      by (rewrite <- Hn; apply list_elem_of_here).
    apply trim_elem, collapse_elem in Hx as [Hx|Hx]; [discriminate|exact Hx]. }
  apply list_elem_of_fmap in Hin as (c & Hup & Hc). symmetry in Hup.
  apply (occursIn_elem _ _ _ _ Ho) in Hc.
  apply elem_list_ascii_of_string in Hc as (pre & post & ->).
  exists pre, c, post. split; [reflexivity|now apply upper_A].
Qed.

(** X9. With the bound above the length of the text, findWcagScInText
    returns a list, and the token "A" is in it exactly when the text holds
    a letter A or a somewhere, in whatever word. *)
Theorem findWcagScInText_bare_A (fuel : nat) (text : string) :
  (String.length text < fuel)%nat ->
  exists found patterns',
    findWcagScInText fuel WCAG_PATTERNS (Some text) = Some (found, patterns')
    /\ ("A" ∈ found <->
        exists pre c post,
          text = pre +:+ String c post /\ (c = "A"%char \/ c = "a"%char)).
Proof.
  intros Hf. destruct (findWcagScInText_returns fuel text Hf) as (found & patterns' & H).
  exists found, patterns'. split; [exact H|]. split.
  - exact (token_A_origin _ _ _ _ H).
  - intros (pre & c & post & -> & Hc). exact (letter_A_found _ _ _ _ _ _ Hc H).
Qed.

Lemma findWcagScInText_bare_A_witness :
  exists found patterns',
    findWcagScInText 10 WCAG_PATTERNS (Some "Banana") = Some (found, patterns')
    /\ ("A" ∈ found <->
        exists pre c post,
          "Banana" = pre +:+ String c post /\ (c = "A"%char \/ c = "a"%char)).
Proof.
  apply (findWcagScInText_bare_A 10 "Banana"). simpl. lia.
Defined.

End BareLetter.

(** ** The criteria extractor: the case of the letters *)

Section LetterCase.

Local Open Scope list_scope.

(** A change of the characters of a text that the patterns do not see. *)
Variable f : ascii -> ascii.

Hypothesis f_upper : forall c, Js.toUpperChar (f c) = Js.toUpperChar c.
Hypothesis f_word : forall c, Js.isWordChar (f c) = Js.isWordChar c.

Definition unseen (ic : bool) (n : Node) : Prop :=
  match n with
  | Chr cs | Quant cs _ _ => forall c, setMatches ic cs (f c) = setMatches ic cs c
  | WordBoundary => True
  end.

Definition commutes (k : option ascii -> list ascii -> option (list ascii)) : Prop :=
  forall prev s, k (option_map f prev) (map f s) = option_map (map f) (k prev s).

Lemma greedy_commutes k test :
  commutes k -> (forall c, test (f c) = test c) ->
  forall s min max prev,
    greedy k test min max (option_map f prev) (map f s)
    = option_map (map f) (greedy k test min max prev s).
Proof.
  intros Hk Ht. induction s as [|c s IH]; intros min max prev; simpl.
  - destruct (exhausted max); [apply (Hk prev [])|].
    destruct (min =? 0)%nat; [apply (Hk prev [])|reflexivity].
  - destruct (exhausted max); [apply (Hk prev (c :: s))|].
    rewrite Ht. destruct (test c).
    + rewrite (IH _ _ (Some c)).
      destruct (greedy k test (Init.Nat.pred min) (option_map Init.Nat.pred max) (Some c) s);
        [reflexivity|].
      destruct (min =? 0)%nat; [apply (Hk prev (c :: s))|reflexivity].
    + destruct (min =? 0)%nat; [apply (Hk prev (c :: s))|reflexivity].
Qed.

Lemma matchNodes_commutes ic ns :
  Forall (unseen ic) ns -> commutes (matchNodes ic ns).
Proof.
  induction 1 as [|n ns Hn _ IH]; [intros prev s; reflexivity|].
  intros prev s. destruct n as [cs|cs min max|]; cbn [matchNodes].
  - destruct s as [|c s]; [reflexivity|]. simpl. rewrite (Hn c).
    destruct (setMatches ic cs c); [|reflexivity].
    pose proof (IH (Some c) s) as Hk. cbn [option_map] in Hk. rewrite Hk.
    now destruct (matchNodes ic ns (Some c) s).
  - now apply greedy_commutes.
  - assert (Hp : isWordAt (option_map f prev) = isWordAt prev)
      by (destruct prev; simpl; auto).
    assert (Hh : isWordAt (head (map f s)) = isWordAt (head s))
      by (destruct s; simpl; auto).
    rewrite Hp, Hh. destruct (xorb _ _); [apply IH|reflexivity].
Qed.

Lemma search_commutes ic ns :
  Forall (unseen ic) ns ->
  forall s prev,
    search ic ns (option_map f prev) (map f s)
    = option_map (fun im => (fst im, map f (snd im))) (search ic ns prev s).
Proof.
  intros Hns. induction s as [|c s IH]; intros prev.
  - cbn [search map]. change (@nil ascii) with (map f []) at 1.
    rewrite (matchNodes_commutes ic ns Hns prev []).
    now destruct (matchNodes ic ns prev []).
  - cbn [search map]. change (f c :: map f s) with (map f (c :: s)).
    rewrite (matchNodes_commutes ic ns Hns prev (c :: s)).
    destruct (matchNodes ic ns prev (c :: s)); [reflexivity|].
    pose proof (IH (Some c)) as Hk. cbn [option_map] in Hk. cbn [option_map].
    rewrite Hk. now destruct (search ic ns (Some c) s) as [[i m]|].
Qed.

Lemma normalize_unseen m : normalize (map f m) = normalize m.
Proof.
  unfold normalize, Js.toUpperCase. rewrite map_map.
  now rewrite (map_ext _ _ f_upper).
Qed.

Lemma exec_commutes r text :
  Forall (unseen (ignoreCase r)) (nodes r) ->
  exec r (map f text)
  = (option_map (fun mt => mkMatch (index mt) (map f (matched mt))) (fst (exec r text)),
     snd (exec r text)).
Proof.
  intros Hns. unfold exec. rewrite length_map.
  set (start := if global r then lastIndex r else 0).
  destruct (length text <? start)%nat; [reflexivity|].
  replace (last (take start (map f text))) with (option_map f (last (take start text)))
    by (now rewrite <- fmap_take, fmap_last).
  replace (drop start (map f text)) with (map f (drop start text))
    by (now rewrite <- fmap_drop).
  rewrite (search_commutes _ _ Hns).
  destruct (search _ _ _ _) as [[i m]|]; [|reflexivity].
  cbn [option_map fst snd]. now rewrite length_map.
Qed.

Lemma execLoop_commutes text : forall fuel r found,
  Forall (unseen (ignoreCase r)) (nodes r) ->
  execLoop fuel r (map f text) found = execLoop fuel r text found.
Proof.
  induction fuel as [|fuel IH]; intros r found Hns; [reflexivity|].
  cbn [execLoop]. rewrite (exec_commutes r text Hns).
  pose proof (exec_occurs r text) as Hocc.
  destruct (exec r text) as [[mt|] r1] eqn:He; cbn [fst snd option_map matched]; [|reflexivity].
  assert (Hr1 : Forall (unseen (ignoreCase r1)) (nodes r1)).
  { unfold exec in He. destruct (length text <? _)%nat; [discriminate|].
    destruct (search _ _ _ _) as [[i m]|]; [|discriminate].
    injection He as _ <-. destruct (global r); exact Hns. }
  rewrite (IH r1 _ Hr1). rewrite normalize_unseen.
  now destruct (matched mt).
Qed.

Lemma forEachPattern_commutes text fuel : forall patterns found,
  Forall (fun p => Forall (unseen (ignoreCase p)) (nodes p)) patterns ->
  forEachPattern fuel patterns (map f text) found = forEachPattern fuel patterns text found.
Proof.
  intros patterns. induction patterns as [|p ps IH]; intros found Hps; [reflexivity|].
  inversion Hps as [|? ? Hp Hps']; subst. cbn [forEachPattern].
  rewrite (execLoop_commutes text fuel (withLastIndex p 0) found Hp).
  destruct (execLoop fuel (withLastIndex p 0) text found) as [[f1 p1]|]; [|reflexivity].
  now rewrite (IH f1 Hps').
Qed.

End LetterCase.

Section LowerCase.

Local Open Scope list_scope.

Lemma list_ascii_of_toLowerCase text :
  list_ascii_of_string (Js.toLowerCase text)
  = map Js.toLowerChar (list_ascii_of_string text).
Proof. induction text as [|c text IH]; simpl; [reflexivity|now rewrite IH]. Qed.

Lemma WCAG_PATTERNS_unseen_lower :
  Forall (fun p => Forall (unseen Js.toLowerChar (ignoreCase p)) (nodes p)) WCAG_PATTERNS.
Proof.
  repeat constructor;
    intros c; destruct c as [[] [] [] [] [] [] [] []]; vm_compute; reflexivity.
Qed.

(** X10. On texts of code units 0 to 255, findWcagScInText does not see
    the case of the letters: it returns the same for a text and for the
    text written in lower case.  (Beyond these code units the lower case
    of a character that is no word character can be a letter, as for the
    Kelvin sign, and a word boundary of the third pattern moves.) *)
Theorem findWcagScInText_ignores_case (fuel : nat) (text : string) :
  findWcagScInText fuel WCAG_PATTERNS (Some (Js.toLowerCase text))
  = findWcagScInText fuel WCAG_PATTERNS (Some text).
Proof.
  destruct text as [|c text]; [reflexivity|].
  cbn [Js.toLowerCase]. rewrite !findWcagScInText_scan, list_ascii_of_toLowerCase.
  change (Js.toLowerChar c :: map Js.toLowerChar (list_ascii_of_string text))
    with (map Js.toLowerChar (c :: list_ascii_of_string text)).
  apply forEachPattern_commutes; [| |exact WCAG_PATTERNS_unseen_lower];
    intros x; destruct x as [[] [] [] [] [] [] [] []]; reflexivity.
Qed.

End LowerCase.

(** ** Deduplication of the tokens of an issue *)

Section Dedupe.

Local Open Scope list_scope.

Lemma dedupe_fold l : forall acc,
  NoDup acc ->
  NoDup (fold_left (fun acc x => Js.setAdd x acc) l acc)
  /\ (forall x, x ∈ fold_left (fun acc x => Js.setAdd x acc) l acc <-> x ∈ acc \/ x ∈ l).
Proof.
  induction l as [|y l IH]; intros acc Hacc; simpl.
  - split; [exact Hacc|]. intros x. split; [now left|].
    intros [H|H]; [exact H|now apply elem_of_nil in H].
  - destruct (IH (Js.setAdd y acc) (setAdd_NoDup y acc Hacc)) as [Hnd Hmem].
    split; [exact Hnd|]. intros x. rewrite Hmem, elem_of_cons. split.
    + intros [H|H]; [|auto]. apply setAdd_inv in H as [->|H]; auto.
    + intros [H|[->|H]]; auto; left; [now apply setAdd_mono|apply setAdd_elem].
Qed.

Lemma dedupe_fold_known l : forall acc,
  (forall x, x ∈ l -> x ∈ acc) ->
  fold_left (fun acc x => Js.setAdd x acc) l acc = acc.
Proof.
  induction l as [|y l IH]; intros acc Hl; [reflexivity|]. simpl.
  assert (Hy : Js.setAdd y acc = acc).
  { unfold Js.setAdd. rewrite bool_decide_eq_true_2; [reflexivity|].
    apply Hl, list_elem_of_here. }
  rewrite Hy. apply IH. intros x Hx. now apply Hl, list_elem_of_further.
Qed.

Lemma dedupe_fold_new l : forall acc,
  NoDup (acc ++ l) ->
  fold_left (fun acc x => Js.setAdd x acc) l acc = acc ++ l.
Proof.
  induction l as [|y l IH]; intros acc Hnd; simpl; [now rewrite app_nil_r|].
  assert (Hy : Js.setAdd y acc = acc ++ [y]).
  { unfold Js.setAdd. rewrite bool_decide_eq_false_2; [reflexivity|].
    apply NoDup_app in Hnd as (_ & Hnd & _). intros Hin.
    apply (Hnd y Hin), list_elem_of_here. }
  rewrite Hy, IH; rewrite <- app_assoc; [reflexivity|exact Hnd].
Qed.

(** X11. The deduplication of the tokens of an issue ([[...new Set(l)]])
    returns a list without duplicates that has the elements of the given
    list; it leaves a list without duplicates as it is, in its order; and
    tokens that occurred before add nothing, so the same tokens found
    twice (in the body and in the title, say) appear once. *)
Theorem dedupe_spec (l : list string) :
  NoDup (Js.dedupe l)
  /\ (forall x, x ∈ Js.dedupe l <-> x ∈ l)
  /\ (NoDup l -> Js.dedupe l = l)
  /\ (forall again, (forall x, x ∈ again -> x ∈ l) ->
        Js.dedupe (l ++ again) = Js.dedupe l).
Proof.
  unfold Js.dedupe. destruct (dedupe_fold l [] (NoDup_nil_2 (A:=string))) as [Hnd Hmem].
  split; [exact Hnd|]. split; [|split].
  - intros x. rewrite Hmem. split; [intros [H|H]; [now apply elem_of_nil in H|exact H]|auto].
  - intros Hl. now rewrite (dedupe_fold_new l []).
  - intros again Hagain. rewrite fold_left_app. apply dedupe_fold_known.
    intros x Hx. apply Hmem. right. now apply Hagain.
Qed.

End Dedupe.

(** ** The composite identifier of a record *)

Section IssueId.

Local Open Scope list_scope.

Lemma string_of_uint_digits d :
  "-"%char ∉ list_ascii_of_string (NilEmpty.string_of_uint d).
Proof.
  induction d; simpl; intros H; try (now apply elem_of_nil in H);
    apply elem_of_cons in H as [H|H]; try discriminate; auto.
Qed.

Lemma ofZ_digits z : (0 <= z)%Z -> "-"%char ∉ list_ascii_of_string (Js.ofZ z).
Proof.
  intros Hz. unfold Js.ofZ. destruct z as [|p|p]; [| |lia].
  - simpl. intros H. apply elem_of_cons in H as [H|H]; [discriminate|].
    now apply elem_of_nil in H.
  - cbn [Z.to_int NilZero.string_of_int]. unfold NilZero.string_of_uint.
    destruct (Pos.to_uint p) eqn:Hp; try (rewrite <- Hp; apply string_of_uint_digits).
    now apply DecimalPos.Unsigned.to_uint_nonnil in Hp.
Qed.

Lemma ofZ_inj z z' : Js.ofZ z = Js.ofZ z' -> z = z'.
Proof.
  unfold Js.ofZ. intros H. apply DecimalZ.to_int_inj.
  assert (Hnn : forall x, Z.to_int x <> Decimal.Pos Decimal.Nil
                          /\ Z.to_int x <> Decimal.Neg Decimal.Nil).
  { intros [|p|p]; simpl; split; try discriminate; intros [= Hp];
      now apply DecimalPos.Unsigned.to_uint_nonnil in Hp. }
  destruct (Hnn z) as [H1 H2]. destruct (Hnn z') as [H3 H4].
  pose proof (NilZero.isi _ H1 H2) as Hz. pose proof (NilZero.isi _ H3 H4) as Hz'.
  rewrite H in Hz. rewrite Hz in Hz'. now injection Hz'.
Qed.

(** Two texts cut at a separator that occurs in neither tail. *)
Lemma cut_at_last (x : ascii) l1 : forall l2 r1 r2,
  x ∉ l1 -> x ∉ l2 -> l1 ++ x :: r1 = l2 ++ x :: r2 -> l1 = l2 /\ r1 = r2.
Proof.
  induction l1 as [|a l1 IH]; intros l2 r1 r2 H1 H2 H.
  - destruct l2 as [|b l2]; [now injection H|].
    injection H as -> _. exfalso. apply H2, list_elem_of_here.
  - destruct l2 as [|b l2].
    + injection H as -> _. exfalso. apply H1, list_elem_of_here.
    + injection H as -> H. destruct (IH l2 r1 r2) as [-> ->]; auto.
      * intros Hx. apply H1. now apply list_elem_of_further.
      * intros Hx. apply H2. now apply list_elem_of_further.
Qed.

Lemma list_ascii_of_string_inj s t :
  list_ascii_of_string s = list_ascii_of_string t -> s = t.
Proof.
  intros H. apply (f_equal string_of_list_ascii) in H.
  now rewrite !string_of_list_ascii_of_string in H.
Qed.

(** X12. The "Issue ID" of a record, the name of the repository and the
    number of the issue joined by a hyphen, tells the two apart: records
    of issues with numbers that are not negative have the same "Issue ID"
    only if the names of their repositories and the numbers of their
    issues are the same. *)
Theorem Issue_ID_injective (repo repo' : Repo.t) (issue issue' : Issue.t)
    (found found' : list string) (lastCommenter lastCommenter' : option string)
    (extractedAt extractedAt' : string) :
  (0 <= Issue.number issue)%Z -> (0 <= Issue.number issue')%Z ->
  ExportRecord.Issue_ID (exportRecord repo issue found lastCommenter extractedAt)
  = ExportRecord.Issue_ID (exportRecord repo' issue' found' lastCommenter' extractedAt') ->
  Repo.name repo = Repo.name repo' /\ Issue.number issue = Issue.number issue'.
Proof.
  intros Hn Hn' H. cbn [exportRecord ExportRecord.Issue_ID] in H.
  apply (f_equal list_ascii_of_string) in H.
  rewrite !list_ascii_of_string_app in H. cbn [list_ascii_of_string app] in H.
  apply (f_equal (@rev ascii)) in H. rewrite !rev_app_distr in H.
  cbn [rev app] in H. rewrite <- !app_assoc in H. cbn [app] in H.
  apply cut_at_last in H as [Hd Hname].
  - split.
    + apply list_ascii_of_string_inj. apply (f_equal (@rev ascii)) in Hname.
      now rewrite !rev_involutive in Hname.
    + apply ofZ_inj, list_ascii_of_string_inj. apply (f_equal (@rev ascii)) in Hd.
      now rewrite !rev_involutive in Hd.
  - intros Hx. apply list_elem_of_In in Hx. apply in_rev in Hx.
    apply list_elem_of_In in Hx. revert Hx. now apply ofZ_digits.
  - intros Hx. apply list_elem_of_In in Hx. apply in_rev in Hx.
    apply list_elem_of_In in Hx. revert Hx. now apply ofZ_digits.
Qed.

Lemma Issue_ID_injective_witness :
  Repo.name Demo.site = Repo.name Demo.site
  /\ Issue.number Demo.contrast = Issue.number Demo.contrast.
Proof.
  apply (Issue_ID_injective Demo.site Demo.site Demo.contrast Demo.contrast
           [] ["1.4.3"] None (Some "kim") "" "2025-07-24T12:00:00.000Z").
  - vm_compute. discriminate.
  - vm_compute. discriminate.
  - reflexivity.
Defined.

End IssueId.

(** ** What one issue costs and adds *)

Section OneIssue.

Local Open Scope list_scope.

Context {W : Type}.
Variable host : Host W.
Variable fuel : nat.
Variable primaryLabel : string.
Variable additionalLabels : list string.

Lemma findWcagSc_calls text (st : State W) :
  calls (snd (findWcagSc fuel text st)) = calls st.
Proof.
  unfold findWcagSc.
  now destruct (findWcagScInText fuel (patterns st) text) as [[found p]|].
Qed.

Lemma scanComments_calls comments : forall found (st : State W),
  calls (snd (scanComments fuel comments found st)) = calls st.
Proof.
  induction comments as [|c comments IH]; intros found st; [reflexivity|].
  cbn [scanComments]. unfold bind.
  pose proof (findWcagSc_calls (Comment.body c) st) as Hc.
  destruct (findWcagSc fuel (Comment.body c) st) as [[tokens|code|] st1];
    simpl in Hc; [|exact Hc|exact Hc].
  now rewrite IH.
Qed.

(** The calls of [readComments]: requests for the first page of the
    comments of the issue, and none when the issue counts no comment. *)
Lemma readComments_calls repo issue (st : State W) :
  exists made,
    calls (snd (readComments host fuel repo issue st)) = calls st ++ made
    /\ Forall (fun c => fst c = mkRequest (commentsParams repo issue) 1 100) made
    /\ ((Issue.comments issue <= 0)%Z -> made = []).
Proof.
  unfold readComments. destruct (Z.ltb_spec 0 (Issue.comments issue)) as [Hpos|Hnone].
  - unfold bind at 1. unfold fetchAllPages.
    destruct (fetchLoop_same_page host (listComments host) (commentsParams repo issue)
                fuel [] 1 st) as (made & Hc & Hall).
    exists made. split; [|split; [exact Hall|lia]].
    destruct (fetchLoop host (listComments host) (commentsParams repo issue) fuel [] 1 st)
      as [[comments|code|] st1]; simpl in Hc; try exact Hc.
    destruct (last comments); [|exact Hc].
    unfold bind. pose proof (scanComments_calls comments [] st1) as Hs.
    destruct (scanComments fuel comments [] st1) as [[tokens|code|] st2];
      simpl in Hs |- *; congruence.
  - exists []. split; [now rewrite app_nil_r|]. split; [constructor|reflexivity].
Qed.

(** X13. Looking at one issue costs only requests for the first page of
    its comments, and none at all when the issue is a pull request, was
    processed before, is not included, or counts no comment.  It appends at
    most one record, built from this issue, and changes no earlier record;
    the processed identifiers only grow. *)
Theorem processIssue_effect (repo : Repo.t) (issue : Issue.t) (st : State W) :
  let st' := snd (processIssue host fuel primaryLabel additionalLabels repo issue st) in
  (exists made,
     calls st' = calls st ++ made
     /\ Forall (fun c => fst c = mkRequest (commentsParams repo issue) 1 100) made
     /\ (Issue.pull_request issue = true
         \/ Issue.id issue ∈ processedIssueIds st
         \/ included primaryLabel additionalLabels issue = false
         \/ (Issue.comments issue <= 0)%Z -> made = []))
  /\ (issuesData st' = issuesData st
      \/ exists row, issuesData st' = issuesData st ++ [row] /\ rowOf issue row)
  /\ processedIssueIds st ⊆ processedIssueIds st'.
Proof.
  set (P := fun s : State W =>
    (exists made,
       calls s = calls st ++ made
       /\ Forall (fun c => fst c = mkRequest (commentsParams repo issue) 1 100) made
       /\ (Issue.pull_request issue = true
           \/ Issue.id issue ∈ processedIssueIds st
           \/ included primaryLabel additionalLabels issue = false
           \/ (Issue.comments issue <= 0)%Z -> made = []))
    /\ (issuesData s = issuesData st
        \/ exists row, issuesData s = issuesData st ++ [row] /\ rowOf issue row)
    /\ processedIssueIds st ⊆ processedIssueIds s).
  change (P (snd (processIssue host fuel primaryLabel additionalLabels repo issue st))).
  unfold processIssue.
  assert (Hsame : forall s : State W, calls s = calls st -> issuesData s = issuesData st ->
            processedIssueIds st ⊆ processedIssueIds s -> P s).
  { intros s Hc Hd Hp. split; [|split; [now left|exact Hp]].
    exists []. rewrite app_nil_r. split; [exact Hc|]. split; [constructor|reflexivity]. }
  destruct (Issue.pull_request issue) eqn:Hpr; [now apply Hsame|].
  unfold bind at 1. unfold isProcessed at 1.
  case_bool_decide as Hseen; [now apply Hsame|].
  unfold bind at 1. unfold addProcessed at 1.
  set (st1 := mkState _ _ _ _ _ _ _).
  assert (Hp1 : processedIssueIds st ⊆ processedIssueIds st1).
  { unfold st1. simpl. apply union_subseteq_r. }
  destruct (negb _ && negb _) eqn:Hskip;
    [apply (Hsame st1); [reflexivity|reflexivity|exact Hp1]|].
  assert (Hinc : included primaryLabel additionalLabels issue = true).
  { unfold included. now rewrite Hskip. }
  unfold bind at 1.
  destruct (readComments_calls repo issue st1) as (made & Hc1 & Hall & Hnone).
  pose proof (readComments_keeps host fuel repo issue st1) as (Kd1 & _ & Kp1).
  assert (Hmade : Issue.pull_request issue = true
                  \/ Issue.id issue ∈ processedIssueIds st
                  \/ included primaryLabel additionalLabels issue = false
                  \/ (Issue.comments issue <= 0)%Z -> made = []).
  { intros [H|[H|[H|H]]]; [congruence|contradiction|congruence|auto]. }
  assert (Hrest : forall s : State W, calls s = calls st ++ made ->
            issuesData s = issuesData st ->
            processedIssueIds s = processedIssueIds st1 -> P s).
  { intros s Hc Hd Hp. split; [|split; [now left|now rewrite Hp]].
    exists made. split; [exact Hc|]. split; [exact Hall|].
    intros [Hf|Hx]; [discriminate|apply Hmade; now right]. }
  assert (Hc0 : calls st1 = calls st) by reflexivity.
  assert (Hd0 : issuesData st1 = issuesData st) by reflexivity.
  rewrite Hc0 in Hc1. rewrite Hd0 in Kd1.
  destruct (readComments host fuel repo issue st1) as [[read|code|] st2];
    simpl in Hc1, Kd1, Kp1; [|now apply Hrest|now apply Hrest].
  unfold bind at 1.
  pose proof (findWcagSc_calls (Issue.body issue) st2) as Hc2.
  pose proof (findWcagSc_keeps fuel (Issue.body issue) st2) as (Kd2 & _ & Kp2).
  destruct (findWcagSc fuel (Issue.body issue) st2) as [[fromBody|code|] st3];
    simpl in Hc2, Kd2, Kp2; [|apply Hrest; unfold st1; simpl; congruence|apply Hrest; unfold st1; simpl; congruence].
  unfold bind at 1.
  pose proof (findWcagSc_calls (Some (Issue.title issue)) st3) as Hc3.
  pose proof (findWcagSc_keeps fuel (Some (Issue.title issue)) st3) as (Kd3 & _ & Kp3).
  destruct (findWcagSc fuel (Some (Issue.title issue)) st3) as [[fromTitle|code|] st4];
    simpl in Hc3, Kd3, Kp3; [|apply Hrest; unfold st1; simpl; congruence|apply Hrest; unfold st1; simpl; congruence].
  unfold bind at 1. unfold now at 1. unfold push, P.
  cbn [snd calls issuesData processedIssueIds].
  split; [exists made; split; [congruence|split; [exact Hall|]]|].
  { intros [Hf|Hx]; [discriminate|apply Hmade; now right]. }
  split.
  - right. eexists. split; [|now eexists _, _, _, _].
    f_equal. congruence.
  - rewrite Kp3, Kp2, Kp1. exact Hp1.
Qed.

End OneIssue.

(** ** The letter a of a title *)

Section TitleLetter.

Local Open Scope list_scope.

Context {W : Type}.
Variable host : Host W.
Variable fuel : nat.
Variable primaryLabel : string.
Variable additionalLabels : list string.

(** The pattern objects of the process are those of [WCAG_PATTERNS], with
    their cursors anywhere. *)
Definition cursorsOnly (st : State W) : Prop :=
  exists cursors, patterns st = relocate cursors WCAG_PATTERNS.

Lemma cursorsOnly_start w : cursorsOnly (start w).
Proof. now exists []. Qed.

Lemma fetchLoop_patterns {A} (apiCall : Request -> W -> Reply A * W) params :
  forall n allItems page st,
    patterns (snd (fetchLoop host apiCall params n allItems page st)) = patterns st.
Proof.
  induction n as [|n IH]; intros allItems pg st; [reflexivity|].
  rewrite fetchLoop_step.
  destruct (apiCall (mkRequest params pg 100) (world st)) as [reply w].
  destruct reply as [[[|x d]|]|error]; try reflexivity.
  - destruct (length (x :: d) <? 100)%nat; [reflexivity|]. now rewrite IH.
  - destruct (bool_decide (status error = Some 404%Z)); [reflexivity|].
    destruct (rateLimitExceeded error); reflexivity.
Qed.

Lemma findWcagSc_cursors text :
  respects cursorsOnly (fun _ => cursorsOnly) (@findWcagSc W fuel text).
Proof.
  intros st [cursors Hst]. unfold findWcagSc.
  destruct (findWcagScInText fuel (patterns st) text) as [[found ps]|] eqn:H;
    [|now exists cursors].
  apply (afterCalls_cursors fuel [text] cursors ps).
  cbn [afterCalls]. now rewrite <- Hst, H.
Qed.

Lemma readComments_cursors repo issue :
  respects cursorsOnly (fun _ => cursorsOnly) (readComments host fuel repo issue).
Proof.
  apply readComments_ok; [|apply findWcagSc_cursors].
  intros A apiCall params st [cursors Hst].
  pose proof (fetchLoop_patterns apiCall params fuel [] 1%nat st) as Hp.
  unfold fetchAllPages.
  destruct (fetchLoop host apiCall params fuel [] 1%nat st) as [[items|code|] st'];
    exists cursors; simpl in Hp; congruence.
Qed.

Lemma lower_a c : Js.toLowerChar c = "a"%char -> c = "A"%char \/ c = "a"%char.
Proof. destruct c as [[] [] [] [] [] [] [] []]; vm_compute; intros H; auto; discriminate. Qed.

(** A text with the keyword has a letter a. *)
Lemma keyword_letter text :
  Js.includes (Js.toLowerCase text) "accessibility" = true ->
  exists pre c post, text = pre +:+ String c post /\ (c = "A"%char \/ c = "a"%char).
Proof.
  intros H. apply includes_app in H as (pre & post & H).
  apply toLowerCase_split in H as (tpre & trest & -> & _ & H).
  destruct trest as [|c trest]; [discriminate|].
  exists tpre, c, trest. split; [reflexivity|].
  apply lower_a. cbn [Js.toLowerCase] in H. rewrite append_cons in H. congruence.
Qed.

Lemma findWcagSc_letter text found (st st' : State W) :
  cursorsOnly st ->
  (exists pre c post, text = pre +:+ String c post /\ (c = "A"%char \/ c = "a"%char)) ->
  findWcagSc fuel (Some text) st = (Returned found, st') ->
  "A" ∈ found.
Proof.
  intros [cursors Hst] (pre & c & post & -> & Hc). unfold findWcagSc. rewrite Hst.
  destruct (findWcagScInText fuel _ _) as [[f ps]|] eqn:H; [|discriminate].
  intros [= <- _].
  assert (Hne : list_ascii_of_string (pre +:+ String c post) <> []).
  { rewrite list_ascii_of_string_app. destruct (list_ascii_of_string pre); discriminate. }
  rewrite findWcagScInText_chars, forEachPattern_relocate in H by exact Hne.
  rewrite <- (findWcagScInText_chars fuel WCAG_PATTERNS) in H by exact Hne.
  exact (letter_A_found fuel pre c post f ps Hc H).
Qed.

(** X14. The title of an issue is scanned for criteria, and the pattern
    [/A/gi] matches every letter a.  So the record of an issue with the
    keyword "accessibility" in its title always has a "WCAG SC" field, with
    the token "A" in it. *)
Theorem keyword_in_title_gives_A (repo : Repo.t) (issue : Issue.t) (st st' : State W) :
  cursorsOnly st ->
  Issue.pull_request issue = false ->
  Issue.id issue ∉ processedIssueIds st ->
  Js.includes (Js.toLowerCase (Issue.title issue)) "accessibility" = true ->
  processIssue host fuel primaryLabel additionalLabels repo issue st = (Returned tt, st') ->
  exists row tokens,
    issuesData st' = issuesData st ++ [row]
    /\ rowOf issue row
    /\ ExportRecord.WCAG_SC row = Some (Js.join "; " tokens)
    /\ "A" ∈ tokens.
Proof.
  intros Hcur Hpr Hnew Hkey. unfold processIssue. rewrite Hpr.
  unfold bind at 1. unfold isProcessed at 1.
  rewrite bool_decide_eq_false_2 by exact Hnew.
  unfold bind at 1. unfold addProcessed at 1.
  assert (Hfound : isKeywordFoundInText issue = true).
  { unfold isKeywordFoundInText. now rewrite Hkey. }
  rewrite Hfound. cbn [negb]. rewrite andb_false_r.
  set (st1 := mkState _ _ _ _ _ _ _).
  assert (Hcur1 : cursorsOnly st1) by exact Hcur.
  assert (Hd1 : issuesData st1 = issuesData st) by reflexivity.
  clearbody st1.
  unfold bind at 1.
  pose proof (readComments_cursors repo issue st1 Hcur1) as C2.
  pose proof (readComments_keeps host fuel repo issue st1) as (K2 & _).
  destruct (readComments host fuel repo issue st1) as [[read|code|] st2];
    [|discriminate|discriminate].
  cbn [post fst snd] in C2, K2. unfold bind at 1.
  pose proof (findWcagSc_cursors (Issue.body issue) st2 C2) as C3.
  pose proof (findWcagSc_keeps fuel (Issue.body issue) st2) as (K3 & _).
  destruct (findWcagSc fuel (Issue.body issue) st2) as [[fromBody|code|] st3];
    [|discriminate|discriminate].
  cbn [post fst snd] in C3, K3. unfold bind at 1.
  pose proof (findWcagSc_keeps fuel (Some (Issue.title issue)) st3) as (K4 & _).
  destruct (findWcagSc fuel (Some (Issue.title issue)) st3) as [[fromTitle|code|] st4]
    eqn:Htitle; [|discriminate|discriminate].
  cbn [fst snd] in K4.
  apply findWcagSc_letter in Htitle; [|exact C3|now apply keyword_letter].
  unfold bind at 1. unfold now at 1. unfold push. intros [= <-].
  cbn [issuesData].
  set (tokens := Js.dedupe ((snd read ++ fromBody) ++ fromTitle)).
  assert (Htokens : "A" ∈ tokens).
  { unfold tokens, Js.dedupe.
    apply (dedupe_fold _ [] (NoDup_nil_2 (A:=string))). right.
    apply elem_of_app. now right. }
  eexists _, tokens. split; [|split; [now eexists _, _, _, _|split; [|exact Htokens]]].
  - f_equal. congruence.
  - cbn [exportRecord ExportRecord.WCAG_SC].
    destruct tokens; [now apply elem_of_nil in Htokens|reflexivity].
Qed.

End TitleLetter.

(** ** What a scan returns *)

Section ScanResult.

Local Open Scope list_scope.

Context {W : Type}.
Variable host : Host W.
Variable fuel : nat.
Variable primaryLabel : string.
Variable additionalLabels : list string.

(** X15. A scan that returns without a file has only listed the
    repositories of the organization: every call it made asks for page 1 of
    that listing, it has exported nothing, and its last line says that no
    repository was found.  A scan that returns a file names it after the
    organization and the first ten characters of the time of its end, hands
    over the records of the process in their order, and reports their number
    in its last line. *)
Theorem scan_result (orgName : string) (w : W) :
  let run := gatherAccessibilityIssues host fuel primaryLabel additionalLabels orgName
               (start w) in
  match fst run with
  | Returned None =>
      Forall (fun c => fst c = mkRequest (orgParams orgName) 1 100) (calls (snd run))
      /\ issuesData (snd run) = []
      /\ last (console (snd run))
         = Some (Log, "No public repositories found for " +:+ orgName
                      +:+ " or access denied. Exiting.")
  | Returned (Some (file, data)) =>
      file = orgName +:+ "-accessibility-issues-"
             +:+ substring 0 10 (toISOString host (world (snd run))) +:+ ".csv"
      /\ data = issuesData (snd run)
      /\ exists n,
           last (console (snd run))
           = Some (Log, newline +:+ "Found " +:+ Js.ofNat (length data)
                        +:+ " accessibility-related issues across "
                        +:+ Js.ofNat n +:+ " repositories.")
  | _ => True
  end.
Proof.
  intros run. pattern run.
  match goal with |- ?F run => set (P := F) end.
  subst run. unfold gatherAccessibilityIssues.
  unfold bind at 1. unfold print at 1.
  unfold bind at 1. unfold print at 1.
  unfold bind at 1.
  assert (Hlabels : exists st1,
    match additionalLabels with
    | [] => ret tt
    | _ :: _ =>
        print Log ("Also including issues with additional labels: " +:+ dquote
                   +:+ Js.join (dquote +:+ ", " +:+ dquote) additionalLabels +:+ dquote)
    end (printed (printed (start w) Log ("Scanning GitHub organization: " +:+ orgName))
           Log ("Looking for issues with primary label: " +:+ dquote +:+ primaryLabel
                +:+ dquote))
    = (Returned tt, st1) /\ calls st1 = [] /\ issuesData st1 = []).
  { destruct additionalLabels; eexists; repeat split; reflexivity. }
  destruct Hlabels as (st1 & -> & Hc1 & Hd1).
  unfold bind at 1. unfold print at 1.
  unfold bind at 1. unfold fetchAllPages.
  set (st2 := printed st1 Log "Fetching repositories...").
  destruct (fetchLoop_same_page host (listForOrg host) (orgParams orgName) fuel [] 1 st2)
    as (made & Hcalls & Hall).
  pose proof (fetchLoop_keeps host (listForOrg host) (orgParams orgName) fuel [] 1 st2)
    as (Hdata & _).
  destruct (fetchLoop host (listForOrg host) (orgParams orgName) fuel [] 1 st2)
    as [[[|repo repositories]|code|] st3]; cbn [fst snd] in *; [| |exact I|exact I].
  - unfold bind, print, ret, P. cbn [fst snd printed calls issuesData console].
    split; [|split].
    + rewrite Hcalls. unfold st2. cbn [printed calls]. rewrite Hc1. exact Hall.
    + rewrite Hdata. unfold st2. cbn [printed issuesData]. exact Hd1.
    + apply last_snoc.
  - unfold bind at 1. unfold print at 1.
    unfold bind at 1.
    destruct (forEachRepo host fuel primaryLabel additionalLabels (repo :: repositories) _)
      as [[[]|code|] st4]; [|exact I|exact I].
    unfold bind, rows, print, now, ret, P.
    cbn [fst snd printed world issuesData console].
    split; [reflexivity|]. split; [reflexivity|].
    exists (length (repo :: repositories)). apply last_snoc.
Qed.

End ScanResult.

(** * The single-label script *)

(** [gather-accessibility-issues.js] with the one label "accessibility":
    its extractor does not reset the pattern objects, its fetcher is
    [Legacy.fetchAllPages], and its scan has no title scan, no early return
    and no null in the "WCAG SC" field. *)
Module SingleLabel.

Definition ACCESSIBILITY_LABEL : string := "accessibility".

(** [WCAG_PATTERNS.forEach(pattern => { while ... })]: the loop starts where
    the last call left the pattern object. *)
Fixpoint forEachPattern (fuel : nat) (patterns : list RegExp.t) (text : list ascii)
    (foundSc : list string) : option (list string * list RegExp.t) :=
  match patterns with
  | [] => Some (foundSc, [])
  | pattern :: rest =>
      match execLoop fuel pattern text foundSc with
      | Some (foundSc', pattern') =>
          match forEachPattern fuel rest text foundSc' with
          | Some (foundSc'', rest') => Some (foundSc'', pattern' :: rest')
          | None => None
          end
      | None => None
      end
  end.

Definition findWcagScInText (fuel : nat) (patterns : list RegExp.t)
    (text : option string) : option (list string * list RegExp.t) :=
  match text with
  | None | Some EmptyString => Some ([], patterns)
  | Some text => forEachPattern fuel patterns (list_ascii_of_string text) []
  end.

(** The pattern objects after the calls on [texts], in this order. *)
Fixpoint afterCalls (fuel : nat) (patterns : list RegExp.t) (texts : list (option string))
    : option (list RegExp.t) :=
  match texts with
  | [] => Some patterns
  | text :: rest =>
      match findWcagScInText fuel patterns text with
      | Some (_, patterns') => afterCalls fuel patterns' rest
      | None => None
      end
  end.

Section Scan.

Context {W : Type}.
Variable host : Host W.
Variable fuel : nat.
(** The message of the TypeError the engine throws at [null.login]. *)
Variable loginOfNull : string.

Definition isLabelledAccessibility (issue : Issue.t) : bool :=
  existsb (fun label => bool_decide (Js.toLowerCase (Label.name label) = ACCESSIBILITY_LABEL))
          (Issue.labels issue).

Definition isKeywordFound (issue : Issue.t) : bool :=
  Js.includes (Js.toLowerCase (Issue.title issue)) "accessibility"
  || match Issue.body issue with
     | Some body => Js.includes (Js.toLowerCase body) "accessibility"
     | None => false
     end.

(** The test of the loop body: the issue is not skipped. *)
Definition included (issue : Issue.t) : bool :=
  negb (negb (isLabelledAccessibility issue) && negb (isKeywordFound issue)).

Definition findWcagSc (text : option string) : M W (list string) :=
  fun st =>
    match findWcagScInText fuel (patterns st) text with
    | Some (found, patterns') =>
        (Returned found,
         mkState (world st) (console st) (calls st) patterns'
                 (issuesData st) (processedIssueIds st) (sources st))
    | None => (Pending, st)
    end.

Fixpoint scanComments (comments : list Comment.t) (wcagScFound : list string)
    : M W (list string) :=
  match comments with
  | [] => ret wcagScFound
  | comment :: rest =>
      found <- findWcagSc (Comment.body comment) ;;
      scanComments rest (wcagScFound ++ found)%list
  end.

Definition commentsWarning (issue : Issue.t) : string :=
  "Warning: Could not fetch comments for issue " ++ Issue.html_url issue ++ ": "
  ++ loginOfNull.

(** The [try] block of the comments.  Reading [user.login] of a last
    comment without user throws before any comment is scanned; the [catch]
    prints the warning and leaves both variables as they were. *)
Definition readComments (repo : Repo.t) (issue : Issue.t)
    : M W (option string * list string) :=
  if (0 <? Issue.comments issue)%Z then
    comments <- Legacy.fetchAllPages (listComments host) (commentsParams repo issue) fuel ;;
    match last comments with
    | Some lastComment =>
        match Comment.user lastComment with
        | Some u =>
            found <- scanComments comments [] ;;
            ret (Some (User.login u), found)
        | None => print Warn (commentsWarning issue) ;;; ret (None, [])
        end
    | None => ret (None, [])
    end
  else ret (None, []).

Definition exportRecord (repo : Repo.t) (issue : Issue.t) (wcagScFound : list string)
    (lastCommenter : option string) (extractedAt : string) : ExportRecord.t :=
  {| ExportRecord.WCAG_SC := Some (Js.join "; " wcagScFound);
     ExportRecord.Issue_ID := Repo.name repo ++ "-" ++ Js.ofZ (Issue.number issue);
     ExportRecord.Issue_Title := Issue.title issue;
     ExportRecord.Issue_URL := Issue.html_url issue;
     ExportRecord.Project := Repo.name repo;
     ExportRecord.Status := Issue.state issue;
     ExportRecord.Priority := None;
     ExportRecord.Component := None;
     ExportRecord.Version := None;
     ExportRecord.Reporter :=
       match Issue.user issue with Some u => User.login u | None => "N/A" end;
     ExportRecord.Created := Issue.created_at issue;
     ExportRecord.Updated := Issue.updated_at issue;
     ExportRecord.Comments := Issue.comments issue;
     ExportRecord.Has_Fork := if Repo.fork repo then "Yes" else "No";
     ExportRecord.Last_Commenter := lastCommenter;
     ExportRecord.Extracted_At := extractedAt |}.

(** The body of [for (const issue of repoIssues)]. *)
Definition processIssue (repo : Repo.t) (issue : Issue.t) : M W unit :=
  if Issue.pull_request issue then ret tt
  else
    seen <- isProcessed (Issue.id issue) ;;
    if seen : bool then ret tt
    else
      addProcessed (Issue.id issue) ;;;
      if negb (isLabelledAccessibility issue) && negb (isKeywordFound issue) then ret tt
      else
        read <- readComments repo issue ;;
        fromBody <- findWcagSc (Issue.body issue) ;;
        extractedAt <- now host ;;
        push issue
          (exportRecord repo issue (Js.dedupe (snd read ++ fromBody)%list)
                        (fst read) extractedAt).

Fixpoint forEachIssue (repo : Repo.t) (repoIssues : list Issue.t) : M W unit :=
  match repoIssues with
  | [] => ret tt
  | issue :: rest => processIssue repo issue ;;; forEachIssue repo rest
  end.

(** The body of [for (const repo of repositories)]. *)
Definition processRepo (repo : Repo.t) : M W unit :=
  print Log ("Processing repository: " ++ Repo.full_name repo) ;;;
  repoIssues <- Legacy.fetchAllPages (listForRepo host) (issuesParams repo) fuel ;;
  forEachIssue repo repoIssues.

Fixpoint forEachRepo (repositories : list Repo.t) : M W unit :=
  match repositories with
  | [] => ret tt
  | repo :: rest => processRepo repo ;;; forEachRepo rest
  end.

(** [gatherAccessibilityIssues(orgName)]: the file name and the rows handed
    to the CSV writer. *)
Definition gatherAccessibilityIssues (orgName : string)
    : M W (string * list ExportRecord.t) :=
  print Log ("Scanning GitHub organization: " ++ orgName) ;;;
  print Log "Fetching repositories..." ;;;
  repositories <- Legacy.fetchAllPages (listForOrg host) (orgParams orgName) fuel ;;
  print Log ("Found " ++ Js.ofNat (length repositories) ++ " repositories.") ;;;
  forEachRepo repositories ;;;
  data <- rows ;;
  print Log ("Found " ++ Js.ofNat (length data) ++ " accessibility-related issues.") ;;;
  today <- now host ;;
  ret (orgName ++ "-accessibility-issues-" ++ substring 0 10 today ++ ".csv", data).

End Scan.

End SingleLabel.

(** ** The two extractors *)

Section SingleLabelExtractor.

Local Open Scope list_scope.

Lemma withLastIndex_same (p : RegExp.t) : withLastIndex p (lastIndex p) = p.
Proof. now destruct p. Qed.

Lemma SingleLabel_forEachPattern_fresh fuel text : forall patterns found,
  Forall (fun p => lastIndex p = 0%nat) patterns ->
  SingleLabel.forEachPattern fuel patterns text found
  = forEachPattern fuel patterns text found.
Proof.
  intros patterns; induction patterns as [|p ps IH]; intros found Hps; [reflexivity|].
  apply Forall_cons in Hps as [Hp Hps].
  cbn [SingleLabel.forEachPattern forEachPattern].
  assert (Hsame : withLastIndex p 0 = p) by (rewrite <- Hp; apply withLastIndex_same).
  rewrite Hsame.
  destruct (execLoop fuel p text found) as [[f1 p1]|]; [|reflexivity].
  now rewrite IH.
Qed.

Lemma SingleLabel_findWcagScInText_fresh fuel text :
  SingleLabel.findWcagScInText fuel WCAG_PATTERNS text
  = findWcagScInText fuel WCAG_PATTERNS text.
Proof.
  destruct text as [[|c s]|]; [reflexivity| |reflexivity].
  apply SingleLabel_forEachPattern_fresh.
  repeat (constructor; [reflexivity|]). constructor.
Qed.

Lemma SingleLabel_findWcagScInText_total fuel text :
  (textLength text < fuel)%nat ->
  exists found,
    SingleLabel.findWcagScInText fuel WCAG_PATTERNS text = Some (found, WCAG_PATTERNS).
Proof.
  intros Hf. rewrite SingleLabel_findWcagScInText_fresh.
  destruct (findWcagScInText_total fuel [] text Hf) as (found & patterns' & H & Hp).
  change (relocate [] WCAG_PATTERNS) with WCAG_PATTERNS in H, Hp.
  exists found. rewrite H. now destruct Hp as [->| ->].
Qed.

(** X16. The extractor of the single-label script, which does not reset
    the pattern objects, leaves them as they were created after every call
    that ends; so after any such calls it returns what the extractor of the
    label-option script returns. *)
Theorem SingleLabel_findWcagScInText_agrees (fuel : nat) (earlier : list (option string))
    (text : option string) :
  Forall (fun t => (textLength t < fuel)%nat) earlier ->
  SingleLabel.afterCalls fuel WCAG_PATTERNS earlier = Some WCAG_PATTERNS
  /\ SingleLabel.findWcagScInText fuel WCAG_PATTERNS text
     = findWcagScInText fuel WCAG_PATTERNS text.
Proof.
  intros Hall. split; [|apply SingleLabel_findWcagScInText_fresh].
  induction Hall as [|t rest Ht _ IH]; [reflexivity|].
  cbn [SingleLabel.afterCalls].
  destruct (SingleLabel_findWcagScInText_total fuel t Ht) as [found ->]. exact IH.
Qed.

End SingleLabelExtractor.

(** ** The scan of the single-label script *)

Section SingleLabelScan.

Local Open Scope list_scope.

Context {W : Type}.
Variable host : Host W.
Variable fuel : nat.
Variable loginOfNull : string.

(** X17. The single-label script includes exactly the issues the
    label-option script includes when it is run with its default label and
    no additional label. *)
Theorem SingleLabel_included_agrees (issue : Issue.t) :
  SingleLabel.included issue = included DEFAULT_PRIMARY_LABEL [] issue.
Proof.
  unfold SingleLabel.included, included. f_equal. f_equal. f_equal.
  unfold SingleLabel.isLabelledAccessibility, hasRelevantLabel.
  cbn [existsb]. rewrite orb_false_r.
  change (Js.toLowerCase DEFAULT_PRIMARY_LABEL) with SingleLabel.ACCESSIBILITY_LABEL.
  induction (Issue.labels issue) as [|label labels IH]; [reflexivity|].
  cbn [existsb map]. rewrite IH.
  apply eq_true_iff_eq.
  rewrite orb_true_iff, !bool_decide_eq_true, elem_of_cons.
  split; intros [H|H]; auto.
Qed.

(** The process does not exit in [m]. *)
Definition neverExits {A} (m : M W A) : Prop :=
  respects (fun _ => True) (fun _ _ => False) m.

Lemma neverExits_bind {A B} (m : M W A) (f : A -> M W B) :
  neverExits m -> (forall a, neverExits (f a)) -> neverExits (bind m f).
Proof. apply respects_bind. Qed.

Lemma neverExits_returns {A} (m : M W A) :
  (forall st, exists a st', m st = (Returned a, st')) -> neverExits m.
Proof. intros H st _. destruct (H st) as (a & st' & ->). exact I. Qed.

Lemma neverExits_spec {A} (m : M W A) st code :
  neverExits m -> fst (m st) <> Exited code.
Proof.
  intros H Hm. specialize (H st I). destruct (m st) as [[a|c|] st']; try discriminate.
  exact H.
Qed.

Lemma print_neverExits to line : neverExits (@print W to line).
Proof. apply neverExits_returns. intros st. now eexists _, _. Qed.

Lemma Legacy_fetchAllPages_neverExits {A} (apiCall : Request -> W -> Reply A * W) params :
  neverExits (Legacy.fetchAllPages apiCall params fuel).
Proof.
  intros st _. unfold Legacy.fetchAllPages.
  pose proof (Legacy_fetchLoop_no_exit apiCall params fuel [] 1%nat st) as H.
  destruct (Legacy.fetchLoop apiCall params fuel [] 1%nat st) as [[a|c|] st']; try exact I.
  now apply (H c).
Qed.

Lemma SingleLabel_findWcagSc_neverExits text :
  neverExits (@SingleLabel.findWcagSc W fuel text).
Proof.
  intros st _. unfold SingleLabel.findWcagSc.
  destruct (SingleLabel.findWcagScInText fuel (patterns st) text) as [[found ps]|]; exact I.
Qed.

Lemma SingleLabel_scanComments_neverExits comments : forall found,
  neverExits (@SingleLabel.scanComments W fuel comments found).
Proof.
  induction comments as [|c comments IH]; intros found; cbn [SingleLabel.scanComments].
  - apply respects_ret.
  - apply neverExits_bind; [apply SingleLabel_findWcagSc_neverExits|]. intros f. apply IH.
Qed.

Lemma SingleLabel_readComments_neverExits repo issue :
  neverExits (SingleLabel.readComments host fuel loginOfNull repo issue).
Proof.
  unfold SingleLabel.readComments.
  destruct (0 <? Issue.comments issue)%Z; [|apply respects_ret].
  apply neverExits_bind; [apply Legacy_fetchAllPages_neverExits|]. intros comments.
  destruct (last comments) as [c|]; [|apply respects_ret].
  destruct (Comment.user c).
  - apply neverExits_bind; [apply SingleLabel_scanComments_neverExits|].
    intros found. apply respects_ret.
  - apply neverExits_bind; [apply print_neverExits|]. intros _. apply respects_ret.
Qed.

Lemma SingleLabel_processIssue_neverExits repo issue :
  neverExits (SingleLabel.processIssue host fuel loginOfNull repo issue).
Proof.
  unfold SingleLabel.processIssue.
  destruct (Issue.pull_request issue); [apply respects_ret|].
  apply neverExits_bind; [apply neverExits_returns; intros st; now eexists _, _|].
  intros [|]; [apply respects_ret|].
  apply neverExits_bind; [apply neverExits_returns; intros st; now eexists _, _|].
  intros _. destruct (negb _ && negb _); [apply respects_ret|].
  apply neverExits_bind; [apply SingleLabel_readComments_neverExits|]. intros read.
  apply neverExits_bind; [apply SingleLabel_findWcagSc_neverExits|]. intros fromBody.
  apply neverExits_bind; [apply neverExits_returns; intros st; now eexists _, _|].
  intros extractedAt. apply neverExits_returns. intros st. now eexists _, _.
Qed.

Lemma SingleLabel_forEachIssue_neverExits repo : forall issues,
  neverExits (SingleLabel.forEachIssue host fuel loginOfNull repo issues).
Proof.
  induction issues as [|issue issues IH]; cbn [SingleLabel.forEachIssue].
  - apply respects_ret.
  - apply neverExits_bind; [apply SingleLabel_processIssue_neverExits|]. intros _. exact IH.
Qed.

Lemma SingleLabel_forEachRepo_neverExits : forall repositories,
  neverExits (SingleLabel.forEachRepo host fuel loginOfNull repositories).
Proof.
  induction repositories as [|repo repositories IH]; cbn [SingleLabel.forEachRepo].
  - apply respects_ret.
  - apply neverExits_bind; [|intros _; exact IH].
    unfold SingleLabel.processRepo.
    apply neverExits_bind; [apply print_neverExits|]. intros _.
    apply neverExits_bind; [apply Legacy_fetchAllPages_neverExits|]. intros issues.
    apply SingleLabel_forEachIssue_neverExits.
Qed.

(** X18. The scan of the single-label script never ends the process,
    whatever the calls are answered with, rate-limit errors included, and
    it has no return without a file: when it ends it hands the records of
    the process, in their order, to the CSV writer, under a file name made
    of the organization and the first ten characters of the time of its
    end. *)
Theorem SingleLabel_scan_ends_with_a_file (orgName : string) (st : State W) :
  let run := SingleLabel.gatherAccessibilityIssues host fuel loginOfNull orgName st in
  match fst run with
  | Returned (file, data) =>
      file = orgName +:+ "-accessibility-issues-"
             +:+ substring 0 10 (toISOString host (world (snd run))) +:+ ".csv"
      /\ data = issuesData (snd run)
  | Exited code => False
  | Pending => True
  end.
Proof.
  intros run. pattern run.
  match goal with |- ?F run => set (P := F) end.
  subst run. unfold SingleLabel.gatherAccessibilityIssues.
  unfold bind at 1. unfold print at 1.
  unfold bind at 1. unfold print at 1.
  unfold bind at 1.
  match goal with |- P (match ?m ?s with _ => _ end) =>
    pose proof (neverExits_spec m s) as Hfetch; destruct (m s) as [[repositories|code|] st1]
  end; [|now destruct (Hfetch code (Legacy_fetchAllPages_neverExits _ _))|exact I].
  clear Hfetch. unfold bind at 1. unfold print at 1.
  unfold bind at 1.
  match goal with |- P (match ?m ?s with _ => _ end) =>
    pose proof (neverExits_spec m s) as Hrepos; destruct (m s) as [[[]|code|] st2]
  end; [|now destruct (Hrepos code (SingleLabel_forEachRepo_neverExits _))|exact I].
  unfold bind, rows, print, now, ret, P.
  cbn [fst snd printed world issuesData]. split; reflexivity.
Qed.


End SingleLabelScan.

(** ** The records of the single-label script *)

Section SingleLabelExport.

Local Open Scope list_scope.

Context {W : Type}.
Variable host : Host W.
Variable fuel : nat.
Variable loginOfNull : string.

(** [row] is the record the single-label script builds from [issue]. *)
Definition SingleLabel_rowOf (issue : Issue.t) (row : ExportRecord.t) : Prop :=
  exists repo wcagScFound lastCommenter extractedAt,
    row = SingleLabel.exportRecord repo issue wcagScFound lastCommenter extractedAt.

Definition SingleLabel_exportInv (st : State W) : Prop :=
  NoDup (map Issue.id (sources st))
  /\ (forall issue, issue ∈ sources st -> Issue.id issue ∈ processedIssueIds st)
  /\ Forall (fun issue => Issue.pull_request issue = false) (sources st)
  /\ Forall2 SingleLabel_rowOf (sources st) (issuesData st).

Lemma keeps_ret {A} (a : A) : keeps (@ret W A a).
Proof. intros st. apply sameExport_refl. Qed.

Lemma keeps_bind {A B} (m : M W A) (f : A -> M W B) :
  keeps m -> (forall a, keeps (f a)) -> keeps (bind m f).
Proof.
  intros Hm Hf st. unfold bind. specialize (Hm st).
  destruct (m st) as [[a|code|] st1]; simpl in *; auto.
  eapply sameExport_trans; [exact Hm|apply Hf].
Qed.

Lemma print_keeps to line : keeps (@print W to line).
Proof. intros st. now repeat split. Qed.

Lemma Legacy_fetchLoop_keeps {A} (apiCall : Request -> W -> Reply A * W) params :
  forall n allItems page, keeps (Legacy.fetchLoop apiCall params n allItems page).
Proof.
  induction n as [|n IH]; intros allItems pg; [intros st; apply sameExport_refl|].
  cbn [Legacy.fetchLoop]. apply keeps_bind.
  - intros st. unfold await.
    destruct (apiCall (mkRequest params pg 100) (world st)) as [reply w]. now repeat split.
  - intros [[[|x d]|]|error]; try apply keeps_ret; try apply IH;
      (apply keeps_bind; [apply print_keeps|intros _; apply keeps_ret]).
Qed.

Lemma SingleLabel_findWcagSc_keeps text : keeps (@SingleLabel.findWcagSc W fuel text).
Proof.
  intros st. unfold SingleLabel.findWcagSc.
  destruct (SingleLabel.findWcagScInText fuel (patterns st) text) as [[found p]|];
    now repeat split.
Qed.

Lemma SingleLabel_scanComments_keeps comments : forall found,
  keeps (@SingleLabel.scanComments W fuel comments found).
Proof.
  induction comments as [|c comments IH]; intros found; cbn [SingleLabel.scanComments].
  - apply keeps_ret.
  - apply keeps_bind; [apply SingleLabel_findWcagSc_keeps|]. intros f. apply IH.
Qed.

Lemma SingleLabel_readComments_keeps repo issue :
  keeps (SingleLabel.readComments host fuel loginOfNull repo issue).
Proof.
  unfold SingleLabel.readComments.
  destruct (0 <? Issue.comments issue)%Z; [|apply keeps_ret].
  apply keeps_bind; [apply Legacy_fetchLoop_keeps|]. intros comments.
  destruct (last comments) as [c|]; [|apply keeps_ret].
  destruct (Comment.user c).
  - apply keeps_bind; [apply SingleLabel_scanComments_keeps|]. intros f. apply keeps_ret.
  - apply keeps_bind; [apply print_keeps|]. intros _. apply keeps_ret.
Qed.

Lemma SingleLabel_exportInv_same st st' :
  sameExport st st' -> SingleLabel_exportInv st -> SingleLabel_exportInv st'.
Proof. intros (a & b & c). unfold SingleLabel_exportInv. now rewrite a, b, c. Qed.

Lemma SingleLabel_exportInv_push st issue row :
  SingleLabel_exportInv st -> Issue.id issue ∈ processedIssueIds st ->
  Issue.id issue ∉ map Issue.id (sources st) ->
  Issue.pull_request issue = false -> SingleLabel_rowOf issue row ->
  SingleLabel_exportInv (snd (push issue row st)).
Proof.
  intros (Hnd & Hin & Hpr & Hrows) Hid Hnew Hnot Hrow.
  unfold SingleLabel_exportInv, push. simpl.
  repeat split.
  - rewrite map_app. simpl. apply NoDup_app. split; [exact Hnd|]. split.
    + intros x Hx Hx'. apply list_elem_of_singleton in Hx' as ->. exact (Hnew Hx).
    + apply NoDup_singleton.
  - intros i Hi. apply elem_of_app in Hi as [Hi|Hi]; [now apply Hin|].
    apply list_elem_of_singleton in Hi as ->. exact Hid.
  - apply Forall_app. split; [exact Hpr|]. now constructor.
  - apply Forall2_app; [exact Hrows|]. now constructor.
Qed.

(** The invariant holds after [m], however [m] ends. *)
Definition preserves {A} (m : M W A) : Prop :=
  forall st, SingleLabel_exportInv st -> SingleLabel_exportInv (snd (m st)).

Lemma preserves_keeps {A} (m : M W A) : keeps m -> preserves m.
Proof. intros H st Hst. exact (SingleLabel_exportInv_same _ _ (H st) Hst). Qed.

Lemma preserves_bind {A B} (m : M W A) (f : A -> M W B) :
  preserves m -> (forall a, preserves (f a)) -> preserves (bind m f).
Proof.
  intros Hm Hf st Hst. unfold bind. specialize (Hm st Hst).
  destruct (m st) as [[a|code|] st1]; simpl in *; auto. now apply Hf.
Qed.

Lemma SingleLabel_processIssue_export repo issue :
  preserves (SingleLabel.processIssue host fuel loginOfNull repo issue).
Proof.
  intros st Hst. unfold SingleLabel.processIssue.
  destruct (Issue.pull_request issue) eqn:Hpr; [exact Hst|].
  unfold bind at 1. unfold isProcessed at 1.
  case_bool_decide as Hseen; [exact Hst|].
  unfold bind at 1. unfold addProcessed at 1.
  set (st1 := mkState _ _ _ _ _ _ _).
  assert (Hst1 : SingleLabel_exportInv st1).
  { destruct Hst as (Hnd & Hin & Hprs & Hrows). unfold SingleLabel_exportInv, st1. simpl.
    repeat split; auto. intros i Hi. apply elem_of_union. right. now apply Hin. }
  assert (Hid : Issue.id issue ∈ processedIssueIds st1).
  { unfold st1. simpl. apply elem_of_union. left. now apply elem_of_singleton. }
  assert (Hnew : Issue.id issue ∉ map Issue.id (sources st1)).
  { intros Hx. apply list_elem_of_fmap in Hx as (i & Hi & Hx).
    destruct Hst as (_ & Hin & _). apply Hseen. rewrite Hi. now apply Hin. }
  clearbody st1. clear Hst Hseen st.
  destruct (negb _ && negb _); [exact Hst1|].
  assert (Hkeep : forall st', sameExport st1 st' ->
            SingleLabel_exportInv st' /\ Issue.id issue ∈ processedIssueIds st'
            /\ Issue.id issue ∉ map Issue.id (sources st')).
  { intros st' (a & b & c). split; [now apply (SingleLabel_exportInv_same st1)|].
    now rewrite b, c. }
  unfold bind at 1.
  pose proof (SingleLabel_readComments_keeps repo issue st1) as K1.
  destruct (SingleLabel.readComments host fuel loginOfNull repo issue st1)
    as [[read|code|] st2]; simpl in K1; try (now apply Hkeep).
  unfold bind at 1.
  pose proof (SingleLabel_findWcagSc_keeps (Issue.body issue) st2) as K2.
  destruct (SingleLabel.findWcagSc fuel (Issue.body issue) st2) as [[fromBody|code|] st3];
    simpl in K2; try (apply Hkeep; eapply sameExport_trans; eassumption).
  unfold bind at 1. unfold now at 1.
  destruct (Hkeep st3) as (H3 & Hid3 & Hnew3).
  { eapply sameExport_trans; eassumption. }
  apply SingleLabel_exportInv_push; auto. now eexists _, _, _, _.
Qed.

Lemma SingleLabel_forEachIssue_export repo : forall issues,
  preserves (SingleLabel.forEachIssue host fuel loginOfNull repo issues).
Proof.
  induction issues as [|issue issues IH]; cbn [SingleLabel.forEachIssue].
  - apply preserves_keeps, keeps_ret.
  - apply preserves_bind; [apply SingleLabel_processIssue_export|]. intros _. exact IH.
Qed.

Lemma SingleLabel_forEachRepo_export : forall repositories,
  preserves (SingleLabel.forEachRepo host fuel loginOfNull repositories).
Proof.
  induction repositories as [|repo repositories IH]; cbn [SingleLabel.forEachRepo].
  - apply preserves_keeps, keeps_ret.
  - apply preserves_bind; [|intros _; exact IH].
    unfold SingleLabel.processRepo.
    apply preserves_bind; [apply preserves_keeps, print_keeps|]. intros _.
    apply preserves_bind; [apply preserves_keeps, Legacy_fetchLoop_keeps|]. intros issues.
    apply SingleLabel_forEachIssue_export.
Qed.

(** X20. The records of the single-label scan, at whatever bound its loops
    are cut: each was built from one issue, in the order of the scan; none
    of these issues is a pull request; and their identifiers are pairwise
    different. *)
Theorem SingleLabel_export_invariant (orgName : string) (w : W) :
  let st := snd (SingleLabel.gatherAccessibilityIssues host fuel loginOfNull orgName
                   (start w)) in
  Forall2 SingleLabel_rowOf (sources st) (issuesData st)
  /\ Forall (fun issue => Issue.pull_request issue = false) (sources st)
  /\ NoDup (map Issue.id (sources st)).
Proof.
  assert (H : preserves (SingleLabel.gatherAccessibilityIssues host fuel loginOfNull
                           orgName)).
  { unfold SingleLabel.gatherAccessibilityIssues.
    apply preserves_bind; [apply preserves_keeps, print_keeps|]. intros _.
    apply preserves_bind; [apply preserves_keeps, print_keeps|]. intros _.
    apply preserves_bind; [apply preserves_keeps, Legacy_fetchLoop_keeps|].
    intros repositories.
    apply preserves_bind; [apply preserves_keeps, print_keeps|]. intros _.
    apply preserves_bind; [apply SingleLabel_forEachRepo_export|]. intros _.
    apply preserves_bind; [apply preserves_keeps; intros st; apply sameExport_refl|].
    intros data.
    apply preserves_bind; [apply preserves_keeps, print_keeps|]. intros _.
    apply preserves_bind; [apply preserves_keeps; intros st; apply sameExport_refl|].
    intros today. apply preserves_keeps, keeps_ret. }
  destruct (H (start w)) as (Hnd & _ & Hpr & Hrows).
  { repeat split; simpl; try constructor. intros i Hi. now apply elem_of_nil in Hi. }
  cbv zeta. auto.
Qed.

End SingleLabelExport.

(** * The start of the scripts *)

(** The options the scripts read from the parsed command line
    ([minimist(process.argv.slice(2))]). *)
Module Cli.

(** A value of an option: a string, or a value that is no string
    (undefined, a boolean, a number, an array), of which the scripts read
    only whether it is truthy. *)
Inductive Arg :=
| Text (s : string)
| Other (isTruthy : bool).

Definition undefined : Arg := Other false.

Definition truthy (a : Arg) : bool :=
  match a with
  | Text EmptyString => false
  | Text (String _ _) => true
  | Other b => b
  end.

(** [a || b] *)
Definition orElse (a b : Arg) : Arg := if truthy a then a else b.

(** [process.env.GITHUB_TOKEN] is a string or undefined. *)
Definition ofEnv (v : option string) : Arg :=
  match v with
  | Some s => Text s
  | None => undefined
  end.

(** [String.prototype.split] at a separator of one character. *)
Fixpoint split (sep : ascii) (s : string) : list string :=
  match s with
  | EmptyString => [EmptyString]
  | String c s' =>
      if Ascii.eqb c sep then EmptyString :: split sep s'
      else match split sep s' with
           | piece :: pieces => String c piece :: pieces
           | [] => [String c EmptyString]
           end
  end.

(** [String.prototype.trim] *)
Definition trim (s : string) : string :=
  string_of_list_ascii (Js.trim (list_ascii_of_string s)).

(** How the top level of a script ends: the process exits, an error is
    thrown and not caught, or the scan is called. *)
Inductive Startup (A : Type) :=
| Exits (code : Z) (console : list (Stream * string))
| Throws
| Scans (call : A).

Arguments Exits {A} code console.
Arguments Throws {A}.
Arguments Scans {A} call.

End Cli.

Module Argv.
Record t := mk {
  h : Cli.Arg;
  help : Cli.Arg;
  r : Cli.Arg;
  repo : Cli.Arg;
  l : Cli.Arg;
  label : Cli.Arg;
  a : Cli.Arg;
  additional_labels : Cli.Arg          (* argv['additional-labels'] *)
}.
End Argv.

(** The arguments of [gatherAccessibilityIssues] at the call of the last
    line. *)
Module Call.
Record t := mk {
  organization : Cli.Arg;
  primaryLabel : Cli.Arg;
  additionalLabels : list string
}.
End Call.

Import Cli.

Definition tokenErrors : list (Stream * string) :=
  [(Error, "Error: GITHUB_TOKEN environment variable not set.");
   (Error, "Please generate a GitHub Personal Access Token (PAT) with " ++ dquote ++ "repo"
           ++ dquote ++ " scope and set it as GITHUB_TOKEN.");
   (Error, "Example: export GITHUB_TOKEN=" ++ dquote ++ "YOUR_PAT_HERE" ++ dquote)].

(** The template literal of [showHelp], line by line. *)
Definition helpText : string :=
  Js.join newline
    [EmptyString;
     "Usage: node gather-accessibility-issues.js -r <github_organization_name> [options]";
     EmptyString;
     "Options:";
     "  -r, --repo <organization_name>   Required. The GitHub organization to scan (e.g., localgovdrupal).";
     "  -l, --label <label_name>         Optional. The primary label to scan for (default: " ++ dquote ++ DEFAULT_PRIMARY_LABEL ++ dquote ++ ").";
     "  -a, --additional-labels <label1,label2,...>";
     "                                   Optional. Comma-separated list of additional labels to include.";
     "  -h, --help                       Show this help message and exit.";
     EmptyString;
     "Examples:";
     "  node gather-accessibility-issues.js -r localgovdrupal";
     "  node gather-accessibility-issues.js --repo your-org --label bug --additional-labels " ++ dquote ++ "critical,p1" ++ dquote;
     "  node gather-accessibility-issues.js -r another-org -l atag";
     "  node gather-accessibility-issues.js -h";
     EmptyString].

Definition showHelp : list (Stream * string) := [(Log, helpText)].

(** [additionalLabelsString ? additionalLabelsString.split(',').map(s => s.trim()) : []];
    a truthy value that is no string has no [split], and the call throws. *)
Definition additionalLabelsOf (additionalLabelsString : Arg) : option (list string) :=
  if truthy additionalLabelsString then
    match additionalLabelsString with
    | Text s => Some (map trim (split "," s))
    | Other _ => None
    end
  else Some [].

(** The top level of the label-option script, from the token check to the
    call of the scan. *)
Definition startup (GITHUB_TOKEN : option string) (argv : Argv.t) : Startup Call.t :=
  if negb (truthy (ofEnv GITHUB_TOKEN)) then Exits 1 tokenErrors
  else if truthy (Argv.h argv) || truthy (Argv.help argv) then Exits 0 showHelp
  else
    let organization := orElse (Argv.r argv) (Argv.repo argv) in
    let primaryLabel :=
      orElse (orElse (Argv.l argv) (Argv.label argv)) (Text DEFAULT_PRIMARY_LABEL) in
    let additionalLabelsString := orElse (Argv.a argv) (Argv.additional_labels argv) in
    match additionalLabelsOf additionalLabelsString with
    | None => Throws
    | Some additionalLabels =>
        if negb (truthy organization) then
          Exits 1 ((Error, "Error: GitHub organization name is required.") :: showHelp)
        else Scans (Call.mk organization primaryLabel additionalLabels)
    end.



(** ** Properties of the start *)

Section Startup.

Local Open Scope list_scope.




(** What the scan is called with. *)
Lemma startup_Scans token argv call :
  startup token argv = Scans call ->
  truthy (Call.organization call) = true
  /\ Call.organization call = orElse (Argv.r argv) (Argv.repo argv)
  /\ Call.primaryLabel call
     = orElse (orElse (Argv.l argv) (Argv.label argv)) (Text DEFAULT_PRIMARY_LABEL)
  /\ additionalLabelsOf (orElse (Argv.a argv) (Argv.additional_labels argv))
     = Some (Call.additionalLabels call).
Proof.
  unfold startup. destruct (negb _); [discriminate|].
  destruct (_ || _); [discriminate|].
  destruct (additionalLabelsOf _) as [additionalLabels|]; [|discriminate].
  destruct (truthy (orElse (Argv.r argv) (Argv.repo argv))) eqn:Ho; [|discriminate].
  cbn [negb]. intros [= <-]. cbn. auto.
Qed.



Lemma additionalLabelsOf_Text s :
  s <> EmptyString -> additionalLabelsOf (Text s) = Some (map trim (split "," s)).
Proof. destruct s; [contradiction|reflexivity]. Qed.

(** The pieces of [split]. *)
Lemma split_nonempty sep s : split sep s <> [].
Proof.
  destruct s as [|c s]; cbn [split]; [discriminate|].
  destruct (Ascii.eqb c sep); [discriminate|].
  destruct (split sep s); discriminate.
Qed.

Lemma join_split sep : forall s, Js.join (String sep "") (split sep s) = s.
Proof.
  induction s as [|c s IH]; [reflexivity|]. cbn [split].
  destruct (Ascii.eqb_spec c sep) as [->|Hne].
  - pose proof (split_nonempty sep s) as Hs.
    destruct (split sep s) as [|piece pieces]; [contradiction|].
    change (Js.join (String sep "") ("" :: piece :: pieces))
      with (String sep (Js.join (String sep "") (piece :: pieces))).
    now rewrite IH.
  - pose proof (split_nonempty sep s) as Hs.
    destruct (split sep s) as [|piece pieces]; [contradiction|].
    rewrite <- IH. destruct pieces; reflexivity.
Qed.

Lemma split_length sep : forall s,
  length (split sep s) = S (count_occ Ascii.ascii_dec (list_ascii_of_string s) sep).
Proof.
  induction s as [|c s IH]; [reflexivity|]. cbn [split list_ascii_of_string].
  destruct (Ascii.eqb_spec c sep) as [->|Hne].
  - rewrite count_occ_cons_eq by reflexivity. cbn [length]. now rewrite IH.
  - rewrite count_occ_cons_neq by exact Hne.
    pose proof (split_nonempty sep s) as Hs.
    destruct (split sep s) as [|piece pieces]; [contradiction|]. exact IH.
Qed.

Lemma split_pieces sep : forall s,
  Forall (fun piece => sep ∉ list_ascii_of_string piece) (split sep s).
Proof.
  induction s as [|c s IH]; cbn [split].
  - constructor; [|constructor]. apply not_elem_of_nil.
  - destruct (Ascii.eqb_spec c sep) as [->|Hne].
    + constructor; [apply not_elem_of_nil|exact IH].
    + destruct (split sep s) as [|piece pieces].
      * constructor; [|constructor]. cbn. intros H.
        apply elem_of_cons in H as [H|H]; [congruence|]. now apply elem_of_nil in H.
      * apply Forall_cons in IH as [Hp Hps]. constructor; [|exact Hps].
        cbn. intros H. apply elem_of_cons in H as [H|H]; [congruence|contradiction].
Qed.

(** Neither the first nor the last character is white space. *)
Definition trimmed (s : string) : Prop :=
  startsClean (list_ascii_of_string s) = true
  /\ startsClean (rev (list_ascii_of_string s)) = true.

Lemma trimStart_fixed l : startsClean l = true -> Js.trimStart l = l.
Proof.
  destruct l as [|c l]; [reflexivity|]. cbn. now destruct (Js.isWhiteSpace c).
Qed.

Lemma trim_trimmed s : trimmed (trim s).
Proof.
  unfold trimmed, trim. rewrite list_ascii_of_string_of_list_ascii.
  assert (Hsame : Js.trim (list_ascii_of_string s)
                  = Js.trim (Js.trimStart (list_ascii_of_string s))).
  { unfold Js.trim. now rewrite (trimStart_fixed _ (trimStart_clean _)). }
  rewrite Hsame. apply trim_clean, trimStart_clean.
Qed.

(** X22. The additional labels of the scan are the pieces of the option
    between its commas, each without the white space around it: one label
    more than the option has commas, empty pieces included, and no label
    starts or ends with white space or holds a comma.  Joining the pieces
    with commas gives the option back. *)
Theorem additionalLabels_parsed (token : option string) (argv : Argv.t) (call : Call.t)
    (s : string) :
  startup token argv = Scans call ->
  orElse (Argv.a argv) (Argv.additional_labels argv) = Text s ->
  s <> EmptyString ->
  Call.additionalLabels call = map trim (split "," s)
  /\ Js.join "," (split "," s) = s
  /\ length (Call.additionalLabels call)
     = S (count_occ Ascii.ascii_dec (list_ascii_of_string s) ","%char)
  /\ Forall (fun label => trimmed label /\ ","%char ∉ list_ascii_of_string label)
            (Call.additionalLabels call).
Proof.
  intros Hstart Hs Hne.
  apply startup_Scans in Hstart as (_ & _ & _ & Hl).
  rewrite Hs, additionalLabelsOf_Text in Hl by exact Hne.
  injection Hl as Hl. rewrite <- Hl.
  split; [reflexivity|]. split; [apply join_split|].
  split; [rewrite length_map; apply split_length|].
  apply Forall_map. eapply Forall_impl; [apply split_pieces|].
  intros piece Hp. split; [apply trim_trimmed|].
  unfold trim. rewrite list_ascii_of_string_of_list_ascii.
  intros H. apply Hp. now apply trim_elem.
Qed.



(** X24. A label given with the additional-labels option includes the
    issues that carry it, with whatever white space around it in the option
    and in whatever case. *)
Theorem additional_label_includes (token : option string) (argv : Argv.t) (call : Call.t)
    (primaryLabel s piece : string) (issue : Issue.t) (label : Label.t) :
  startup token argv = Scans call ->
  Call.primaryLabel call = Text primaryLabel ->
  orElse (Argv.a argv) (Argv.additional_labels argv) = Text s ->
  s <> EmptyString ->
  piece ∈ split "," s ->
  label ∈ Issue.labels issue ->
  sameIgnoringCase (Label.name label) (trim piece) ->
  included primaryLabel (Call.additionalLabels call) issue = true.
Proof.
  intros Hstart _ Hs Hne Hpiece Hlabel Hsame.
  apply startup_Scans in Hstart as (_ & _ & _ & Hl).
  rewrite Hs, additionalLabelsOf_Text in Hl by exact Hne.
  injection Hl as Hl. rewrite <- Hl.
  apply included_spec. left. exists label, (trim piece).
  split; [exact Hlabel|]. split; [|exact Hsame].
  apply list_elem_of_further. apply list_elem_of_fmap. now exists piece.
Qed.

End Startup.

(** * Runs on sample hosts *)

Module Sample.

Definition serverError : ApiError := mkApiError (Some 500%Z) "Server Error" None.

(** The issues of the repository cannot be listed. *)
Definition broken : Host unit :=
  mkHost unit (Demo.listing [Demo.site]) (Demo.failing serverError) (Demo.listing [])
         Demo.clock Demo.localTime.

(** Two pages of items, served by page number. *)
Definition twoPages (p : nat) : list nat :=
  match p with
  | 1 => [10; 11]
  | 2 => [12]
  | _ => []
  end%nat.





(** [-r acme -a " critical , P1"] *)
Definition argv : Argv.t :=
  Argv.mk Cli.undefined Cli.undefined (Cli.Text "acme") Cli.undefined
          Cli.undefined Cli.undefined (Cli.Text " critical , P1") Cli.undefined.

Definition call : Call.t :=
  Call.mk (Cli.Text "acme") (Cli.Text "accessibility") ["critical"; "P1"].

(** An issue without label, with the keyword in its title. *)
Definition menu : Issue.t :=
  Issue.mk 1006 12 "Accessibility of the menu" None []
           None "2025-07-08T10:00:00Z" "2025-07-08T10:00:00Z" 0
           "open" "https://github.com/acme/site/issues/12" false.

Definition docs : Repo.t := Repo.mk "docs" "acme/docs" Demo.acme false.

(** Two repositories, listed on page 1; the quota is spent when their
    issues are asked for. *)
Definition spent : Host unit :=
  mkHost unit
         (fun request w =>
            (Resolved (Some (if (page request =? 1)%nat then [Demo.site; docs] else [])), w))
         (Demo.failing Demo.quotaSpent) (Demo.listing []) Demo.clock Demo.localTime.

Definition urgent : Issue.t :=
  Issue.mk 1005 11 "Crash on save" None [Label.mk "p1"]
           None "2025-07-07T10:00:00Z" "2025-07-07T10:00:00Z" 0
           "open" "https://github.com/acme/site/issues/11" false.

End Sample.

Section Runs.

Local Open Scope list_scope.

(** C3 as stated fails on the single-label script: both listings of issues
    are answered with a rate-limit error, and the run prints no reset time,
    goes on to the next repository and ends with a file. *)
Lemma rate_limit_not_fatal_in_single_label_script :
  let run := SingleLabel.gatherAccessibilityIssues Sample.spent 5 "TypeError" "acme"
               (start tt) in
  rateLimitExceeded Demo.quotaSpent = true
  /\ fst run = Returned ("acme-accessibility-issues-2025-07-24.csv", [])
  /\ calls (snd run)
     = [(mkRequest (orgParams "acme") 1 100, Items 2);
        (mkRequest (orgParams "acme") 2 100, Items 0);
        (mkRequest (issuesParams Demo.site) 1 100, Failure Demo.quotaSpent);
        (mkRequest (issuesParams Sample.docs) 1 100, Failure Demo.quotaSpent)]
  /\ console (snd run)
     = [(Log, "Scanning GitHub organization: acme");
        (Log, "Fetching repositories...");
        (Log, "Found 2 repositories.");
        (Log, "Processing repository: acme/site");
        (Error, "Error fetching page 1: API rate limit exceeded");
        (Log, "Processing repository: acme/docs");
        (Error, "Error fetching page 1: API rate limit exceeded");
        (Log, "Found 0 accessibility-related issues.")].
Proof. repeat split; reflexivity. Qed.


Lemma Legacy_fetchAllPages_by_page_number_witness :
  fst (Legacy.fetchAllPages (served Sample.twoPages) Listing.noParams 5 (start tt))
  = Returned [10; 11; 12]%nat.
Proof.
  rewrite (Legacy_fetchAllPages_by_page_number Listing.noParams Sample.twoPages 2 5 (start tt)).
  - reflexivity.
  - reflexivity.
  - intros [|[|j]] Hj; [discriminate|discriminate|lia].
  - lia.
Defined.

Lemma other_error_ends_only_this_fetch_witness :
  forEachRepo Sample.broken 3 DEFAULT_PRIMARY_LABEL [] [Demo.site] (start tt)
  = (Returned tt,
     mkState tt
       [(Stdout, "Processing repository: acme/site... ");
        (Error, "Error fetching page 1: Server Error");
        (Log, "Found 0 issues.")]
       [(mkRequest (issuesParams Demo.site) 1 100, Failure Sample.serverError)]
       WCAG_PATTERNS [] ∅ []).
Proof.
  apply (proj1 (proj2 (other_error_ends_only_this_fetch Sample.broken 2
                         DEFAULT_PRIMARY_LABEL [] Sample.serverError
                         ltac:(discriminate) eq_refl))
               Demo.site [] (start tt) tt).
  reflexivity.
Defined.

Lemma scan_exits_only_at_rate_limit_witness :
  last (console (snd (gatherAccessibilityIssues Demo.limited 5 DEFAULT_PRIMARY_LABEL []
                        "acme" (start tt))))
  = Some (Error, "Rate limit exceeded! Please wait until 1753358400 before trying again.").
Proof.
  destruct (scan_exits_only_at_rate_limit Demo.limited 5 DEFAULT_PRIMARY_LABEL [] "acme"
              tt 1) as (_ & request & error & Hlast & _ & Hline).
  - vm_compute. reflexivity.
  - assert (Hcall : last (calls (snd (gatherAccessibilityIssues Demo.limited 5
                                        DEFAULT_PRIMARY_LABEL [] "acme" (start tt))))
                    = Some (mkRequest (issuesParams Demo.site) 1 100,
                            Failure Demo.quotaSpent)) by reflexivity.
    rewrite Hcall in Hlast. injection Hlast as <- <-. exact Hline.
Defined.

Lemma Legacy_fetchAllPages_never_exits_witness :
  Legacy.fetchAllPages (Demo.failing (A:=Issue.t) Demo.quotaSpent) Listing.noParams 3 (start tt)
  = (Returned [],
     mkState tt [(Error, "Error fetching page 1: API rate limit exceeded")]
       [(mkRequest Listing.noParams 1 100, Failure Demo.quotaSpent)]
       WCAG_PATTERNS [] ∅ []).
Proof.
  apply (proj2 (Legacy_fetchAllPages_never_exits (Demo.failing Demo.quotaSpent)
                  Listing.noParams)
               2%nat [] 1%nat (start tt) Demo.quotaSpent tt).
  reflexivity.
Defined.

Lemma dedupe_spec_witness : Js.dedupe ["1.4.3"; "AA"; "A"] = ["1.4.3"; "AA"; "A"].
Proof.
  apply (proj1 (proj2 (proj2 (dedupe_spec ["1.4.3"; "AA"; "A"])))).
  apply (bool_decide_unpack _). vm_compute. exact I.
Defined.

Lemma processIssue_effect_witness :
  calls (snd (processIssue Demo.oneIssue 5 DEFAULT_PRIMARY_LABEL [] Demo.site Demo.patch
                (start tt)))
  = [].
Proof.
  destruct (processIssue_effect Demo.oneIssue 5 DEFAULT_PRIMARY_LABEL [] Demo.site
              Demo.patch (start tt)) as ((made & Hcalls & _ & Hnone) & _).
  rewrite Hcalls, (Hnone (or_introl eq_refl)). reflexivity.
Defined.

Lemma keyword_in_title_gives_A_witness :
  exists row tokens,
    issuesData (snd (processIssue Demo.oneIssue 40 DEFAULT_PRIMARY_LABEL [] Demo.site
                       Sample.menu (start tt)))
    = issuesData (start tt) ++ [row]
    /\ rowOf Sample.menu row
    /\ ExportRecord.WCAG_SC row = Some (Js.join "; " tokens)
    /\ "A" ∈ tokens.
Proof.
  apply (keyword_in_title_gives_A Demo.oneIssue 40 DEFAULT_PRIMARY_LABEL [] Demo.site
           Sample.menu (start tt)).
  - apply cursorsOnly_start.
  - reflexivity.
  - apply not_elem_of_empty.
  - reflexivity.
  - vm_compute. reflexivity.
Defined.

Lemma SingleLabel_findWcagScInText_agrees_witness :
  SingleLabel.afterCalls 20 WCAG_PATTERNS [Some "see SC 1.4.3"; None; Some "wcag 2.1 aa"]
  = Some WCAG_PATTERNS.
Proof.
  apply (proj1 (SingleLabel_findWcagScInText_agrees 20
                  [Some "see SC 1.4.3"; None; Some "wcag 2.1 aa"] None
                  ltac:(repeat constructor; simpl; lia))).
Defined.


Lemma additionalLabels_parsed_witness :
  Call.additionalLabels Sample.call = ["critical"; "P1"]
  /\ length (Call.additionalLabels Sample.call) = 2%nat.
Proof.
  destruct (additionalLabels_parsed (Some "t") Sample.argv Sample.call " critical , P1")
    as (Hlabels & _ & Hlength & _).
  - reflexivity.
  - reflexivity.
  - discriminate.
  - split; [exact Hlabels|exact Hlength].
Defined.

Lemma additional_label_includes_witness :
  included "accessibility" ["critical"; "P1"] Sample.urgent = true.
Proof.
  apply (additional_label_includes (Some "t") Sample.argv Sample.call "accessibility"
           " critical , P1" " P1" Sample.urgent (Label.mk "p1")).
  - reflexivity.
  - reflexivity.
  - reflexivity.
  - discriminate.
  - apply list_elem_of_further, list_elem_of_here.
  - apply list_elem_of_here.
  - reflexivity.
Defined.

End Runs.
